(** * Gyoto: the generic astrophysical object ([lib/Astrobj.C])

    A shallow embedding of the radiative-transfer dispatch of
    [Gyoto::Astrobj::Generic], of the band quadrature, of the hit-quantity
    accumulator, of the step-size policy and of the [Astrobj::Properties]
    output record, followed by the properties proved about them.

    Conventions of the embedding.
    - A C++ [double] is a type [D] with the operations the source applies to
      it (class [Double]).  Two instances are given: [float_double], the
      IEEE-754 binary64 numbers of the machine (Rocq's primitive floats), and
      [Q_double], exact rational arithmetic.  Every definition below is
      written once, over the class, and can be run at either instance.
    - The capability bitmask [__defaultfeatures] is the only field the
      [const] methods mutate; it is the state of the monad [M].
    - Virtual dispatch is a table of methods ([vtable]); a derived class is
      the record of the methods it reimplements ([Overrides]).
    - Recursion between the default methods and the loops of the quadrature
      are bounded by a [fuel]; running dry is the outcome [OutOfFuel].
    - [GYOTO_ERROR] is the outcome [Error]. Debug output
      ([GYOTO_DEBUG...]) is not modelled. *)

From Stdlib Require Import ZArith List Bool String Lia QArith Qabs Lqa.
From Stdlib Require Import Floats.PrimFloat.
Import ListNotations.

Set Implicit Arguments.
Local Open Scope Z_scope.

(** ** Double-precision numbers *)

Declare Scope double_scope.
Delimit Scope double_scope with D.

Class Double (D : Type) : Type := {
  dadd : D -> D -> D;
  dsub : D -> D -> D;
  dmul : D -> D -> D;
  ddiv : D -> D -> D;
  dopp : D -> D;
  dltb : D -> D -> bool;          (* a < b *)
  deqb : D -> D -> bool;          (* a == b *)
  fabs : D -> D;
  sqrt : D -> D;
  exp : D -> D;
  log : D -> D;
  d_0 : D;                        (* 0. *)
  d_1 : D;                        (* 1. *)
  d_2 : D;                        (* 2. *)
  d_0p5 : D;                      (* 0.5 *)
  d_0p25 : D;                     (* 0.25 *)
  d_1em2 : D;                     (* 1e-2 *)
  d_0p1 : D;                      (* 0.1 *)
  DBL_MAX : D;                    (* <cfloat> *)
  infinity : D                    (* std::numeric_limits<double>::infinity() *)
}.

Notation "x + y" := (dadd x y) : double_scope.
Notation "x - y" := (dsub x y) : double_scope.
Notation "x * y" := (dmul x y) : double_scope.
Notation "x / y" := (ddiv x y) : double_scope.
Notation "- x" := (dopp x) : double_scope.
Notation "x <? y" := (dltb x y) : double_scope.
Notation "x >? y" := (dltb y x) : double_scope.
Notation "x =? y" := (deqb x y) : double_scope.

(** [double(flag)]: the conversion of a [bool] to a [double]. *)
Definition of_bool {D} `{Double D} (b : bool) : D := if b then d_1 else d_0.

(** The machine's binary64 numbers.  [exp] and [log] come from libm and are
    parameters of the instance. *)
Definition float_double (fexp flog : float -> float) : Double float := {|
  dadd := PrimFloat.add;
  dsub := PrimFloat.sub;
  dmul := PrimFloat.mul;
  ddiv := PrimFloat.div;
  dopp := PrimFloat.opp;
  dltb := PrimFloat.ltb;
  deqb := PrimFloat.eqb;
  fabs := PrimFloat.abs;
  sqrt := PrimFloat.sqrt;
  exp := fexp;
  log := flog;
  d_0 := 0%float;
  d_1 := 1%float;
  d_2 := 2%float;
  d_0p5 := 0.5%float;
  d_0p25 := 0.25%float;
  d_1em2 := 0x1.47ae147ae147bp-7%float;
  d_0p1 := 0x1.999999999999ap-4%float;
  DBL_MAX := 0x1.fffffffffffffp+1023%float;
  infinity := PrimFloat.infinity
|}.

(** Exact rational arithmetic: what the same code computes when no
    operation rounds.  The irrational functions and the value standing for
    an infinite result are parameters of the instance. *)
Definition Qltb (a b : Q) : bool := negb (Qle_bool b a).

Definition Q_double (qsqrt qexp qlog : Q -> Q) (qinf : Q) : Double Q := {|
  dadd := Qplus;
  dsub := Qminus;
  dmul := Qmult;
  ddiv := Qdiv;
  dopp := Qopp;
  dltb := Qltb;
  deqb := Qeq_bool;
  fabs := Qabs;
  sqrt := qsqrt;
  exp := qexp;
  log := qlog;
  d_0 := 0%Q;
  d_1 := 1%Q;
  d_2 := 2%Q;
  d_0p5 := (1 # 2)%Q;
  d_0p25 := (1 # 4)%Q;
  d_1em2 := (1 # 100)%Q;
  d_0p1 := (1 # 10)%Q;
  DBL_MAX := inject_Z (2 ^ 1024 - 2 ^ 971);
  infinity := qinf
|}.

(** ** Outcomes and the state monad *)

Inductive outcome (A : Type) : Type :=
| Ok (a : A)
| Error (msg : string)          (* GYOTO_ERROR *)
| Undefined                     (* a null [double*] is dereferenced *)
| OutOfFuel.

Arguments Ok {A} a.
Arguments Error {A} msg.
Arguments Undefined {A}.
Arguments OutOfFuel {A}.

Definition St (S A : Type) : Type := S -> outcome (A * S).

Definition ret {S A} (a : A) : St S A := fun s => Ok (a, s).

Definition bind {S A B} (m : St S A) (k : A -> St S B) : St S B :=
  fun s => match m s with
           | Ok (a, s') => k a s'
           | Error msg => Error msg
           | Undefined => Undefined
           | OutOfFuel => OutOfFuel
           end.

Definition out_of_fuel {S A} : St S A := fun _ => OutOfFuel.
Definition throw {S A} (msg : string) : St S A := fun _ => Error msg.
Definition undefined {S A} : St S A := fun _ => Undefined.

Declare Scope monad_scope.
Delimit Scope monad_scope with monad.
Notation "x <- m ;; k" := (bind m (fun x => k))
  (at level 61, m at next level, right associativity) : monad_scope.
Notation "' p <- m ;; k" := (bind m (fun x => let p := x in k))
  (at level 61, p pattern, m at next level, right associativity) : monad_scope.
Notation "m ;;; k" := (bind m (fun _ => k))
  (at level 61, right associativity) : monad_scope.

(** A [for] loop that fills one output array from one input array, the
    calls made in index order. *)
Fixpoint mapM {S A B} (f : A -> St S B) (l : list A) : St S (list B) :=
  match l with
  | [] => ret []
  | a :: l' => bind (f a) (fun b => bind (mapM f l') (fun bs => ret (b :: bs)))
  end.

(** A [for] loop run for its effects. *)
Fixpoint forM {S A} (l : list A) (f : A -> St S unit) : St S unit :=
  match l with
  | [] => ret tt
  | a :: l' => bind (f a) (fun _ => forM l' f)
  end.

(** The [const] methods of [Generic] mutate one field, the capability
    bitmask [__defaultfeatures]: it is the state of their monad. *)
Definition M (A : Type) : Type := St Z A.

(** Reads [__defaultfeatures]. *)
Definition features : M Z := fun df => Ok (df, df).

(** [const_cast<Generic*>(this)->__defaultfeatures |= mask]. *)
Definition set_features (mask : Z) : M unit := fun df => Ok (tt, Z.lor df mask).

Definition __default_radiativeQ_polar : Z := 1.
Definition __default_radiativeQ : Z := 2.
Definition __default_emission_vector : Z := 4.

(** [!(df & mask)] *)
Definition unset (df mask : Z) : bool := Z.land df mask =? 0.

(** ** Data of the object and of its collaborators *)

Section Model.

Context {D : Type} {DD : Double D}.

Local Open Scope double_scope.
Local Open Scope monad_scope.

(** [state_t] is [std::vector<double>]; a [double const *] to 8 doubles is
    a list as well.  Reading past the end yields [0.] here. *)
Definition state_t : Type := list D.
Definition at_ (v : list D) (i : nat) : D := nth i v d_0.

Inductive CoordKind : Type :=
| GYOTO_COORDKIND_SPHERICAL
| GYOTO_COORDKIND_CARTESIAN
| GYOTO_COORDKIND_UNSPECIFIED.

(** The metric is used through two of its methods (GyotoMetric.h). *)
Record Metric : Type := {
  coordKind : CoordKind;
  ScalarProd : list D -> list D -> list D -> D
}.

(** The fields of [Astrobj::Generic] other than [__defaultfeatures]. *)
Record Generic : Type := {
  gg_ : option Metric;
  rmax_ : D;
  deltamaxinsidermax_ : D;
  flag_radtransf_ : bool;
  noredshift_ : bool;
  shadow_ : bool
}.

(** The eleven output arrays of the polarized [radiativeQ]. *)
Record Polar : Type := {
  p_Inu : list D; p_Qnu : list D; p_Unu : list D; p_Vnu : list D;
  p_alphaInu : list D; p_alphaQnu : list D;
  p_alphaUnu : list D; p_alphaVnu : list D;
  p_rQnu : list D; p_rUnu : list D; p_rVnu : list D
}.

(** The five virtual methods.  The array arguments [nuem] carry their
    length [nbnu]. *)
Record vtable : Type := {
  v_transmission : D -> D -> state_t -> list D -> M D;
  v_emission : D -> D -> state_t -> list D -> M D;
  v_emission_vector : list D -> D -> state_t -> list D -> M (list D);
  v_radiativeQ : list D -> D -> state_t -> list D -> M (list D * list D);
  v_radiativeQ_polar : list D -> D -> state_t -> list D -> M Polar
}.

(** What a derived class reimplements: user code, a function of the
    arguments it is given, that does not touch [__defaultfeatures] and
    fills the arrays it is handed. *)
Record Overrides : Type := {
  o_transmission : option (D -> D -> state_t -> list D -> D);
  o_emission : option (D -> D -> state_t -> list D -> D);
  o_emission_vector : option (list D -> D -> state_t -> list D -> list D);
  o_radiativeQ : option (list D -> D -> state_t -> list D -> list D * list D);
  o_radiativeQ_polar : option (list D -> D -> state_t -> list D -> Polar)
}.

Definition no_overrides : Overrides :=
  {| o_transmission := None; o_emission := None; o_emission_vector := None;
     o_radiativeQ := None; o_radiativeQ_polar := None |}.

(** The method table of an object of the derived class: the reimplemented
    methods, and [base] for the others. *)
Definition dispatch (o : Overrides) (base : vtable) : vtable := {|
  v_transmission :=
    match o_transmission o with
    | Some f => fun nuem dsem cph co => ret (f nuem dsem cph co)
    | None => v_transmission base
    end;
  v_emission :=
    match o_emission o with
    | Some f => fun nuem dsem cph co => ret (f nuem dsem cph co)
    | None => v_emission base
    end;
  v_emission_vector :=
    match o_emission_vector o with
    | Some f => fun nuem dsem cph co => ret (f nuem dsem cph co)
    | None => v_emission_vector base
    end;
  v_radiativeQ :=
    match o_radiativeQ o with
    | Some f => fun nuem dsem cph co => ret (f nuem dsem cph co)
    | None => v_radiativeQ base
    end;
  v_radiativeQ_polar :=
    match o_radiativeQ_polar o with
    | Some f => fun nuem dsem cph co => ret (f nuem dsem cph co)
    | None => v_radiativeQ_polar base
    end
|}.

(** ** The default methods of [Generic] (Astrobj.C, 482-694)

    [self] is the method table the body calls through ([this->...]). *)

Section Defaults.

Variable self : vtable.
Variable g : Generic.

(** [Generic::transmission] (482-499) *)
Definition Generic_transmission (nuem dsem : D) (coord_ph : state_t)
    (coord_obj : list D) : M D :=
  df <- features ;;
  if unset df __default_radiativeQ || unset df __default_radiativeQ_polar then
    ' (_, Taunu) <- v_radiativeQ self [nuem] dsem coord_ph coord_obj ;;
    ret (at_ Taunu 0)
  else ret (of_bool (flag_radtransf_ g)).

(** [Generic::emission(double, ...)] (501-531) *)
Definition Generic_emission (nuem dsem : D) (cph : state_t) (co : list D)
    : M D :=
  df <- features ;;
  if unset df __default_emission_vector then
    Inu <- v_emission_vector self [nuem] dsem cph co ;;
    ret (at_ Inu 0)
  else if unset df __default_radiativeQ
          || unset df __default_radiativeQ_polar then
    ' (Inu, _) <- v_radiativeQ self [nuem] dsem cph co ;;
    ret (at_ Inu 0)
  else if flag_radtransf_ g then ret dsem
  else ret d_1.

(** [Generic::emission(double*, ...)] (533-590) *)
Definition Generic_emission_vector (nuem : list D) (dsem : D)
    (cph : state_t) (co : list D) : M (list D) :=
  set_features __default_emission_vector ;;;
  df <- features ;;
  if unset df __default_radiativeQ then
    ' (Inu, _) <- v_radiativeQ self nuem dsem cph co ;;
    ret Inu
  else if unset df __default_radiativeQ_polar then
    p <- v_radiativeQ_polar self nuem dsem cph co ;;
    ret (p_Inu p)
  else mapM (fun nu => v_emission self nu dsem cph co) nuem.

(** [Generic::radiativeQ], unpolarized (592-655) *)
Definition Generic_radiativeQ (nuem : list D) (dsem : D)
    (cph : state_t) (co : list D) : M (list D * list D) :=
  let nbnu := List.length nuem in
  set_features __default_radiativeQ ;;;
  df <- features ;;
  if unset df __default_radiativeQ_polar then
    p <- v_radiativeQ_polar self nuem dsem cph co ;;
    df <- features ;;
    if unset df __default_radiativeQ_polar then
      ret (p_Inu p,
           map (fun i => exp (- at_ (p_alphaInu p) i)) (seq 0 nbnu))
    else
      Taunu <- mapM (fun nu => v_transmission self nu dsem cph co) nuem ;;
      ret (p_Inu p, Taunu)
  else
    Inu <- v_emission_vector self nuem dsem cph co ;;
    Taunu <- mapM (fun nu => v_transmission self nu dsem cph co) nuem ;;
    ret (Inu, Taunu).

(** [Generic::radiativeQ], polarized (657-694) *)
Definition Generic_radiativeQ_polar (nuem : list D) (dsem : D)
    (cph : state_t) (co : list D) : M Polar :=
  let nbnu := List.length nuem in
  let zeros := map (fun _ => d_0) (seq 0 nbnu) in
  set_features __default_radiativeQ_polar ;;;
  ' (Inu, Taunu) <- v_radiativeQ self nuem dsem cph co ;;
  ret {| p_Inu := Inu;
         p_Qnu := zeros; p_Unu := zeros; p_Vnu := zeros;
         p_alphaInu :=
           map (fun i => if at_ Taunu i <? d_0p1 then - infinity
                         else - log (at_ Taunu i))
               (seq 0 nbnu);
         p_alphaQnu := zeros; p_alphaUnu := zeros; p_alphaVnu := zeros;
         p_rQnu := zeros; p_rUnu := zeros; p_rVnu := zeros |}.

End Defaults.

(** The methods of the base class with calls nested at most [fuel] deep,
    and the method table of an object of a derived class [o]. *)
Fixpoint generic (o : Overrides) (g : Generic) (fuel : nat) : vtable :=
  match fuel with
  | O => {| v_transmission := fun _ _ _ _ => out_of_fuel;
            v_emission := fun _ _ _ _ => out_of_fuel;
            v_emission_vector := fun _ _ _ _ => out_of_fuel;
            v_radiativeQ := fun _ _ _ _ => out_of_fuel;
            v_radiativeQ_polar := fun _ _ _ _ => out_of_fuel |}
  | S n =>
      let self := dispatch o (generic o g n) in
      {| v_transmission := Generic_transmission self g;
         v_emission := Generic_emission self g;
         v_emission_vector := Generic_emission_vector self;
         v_radiativeQ := Generic_radiativeQ self;
         v_radiativeQ_polar := Generic_radiativeQ_polar self |}
  end.

Definition methods (o : Overrides) (g : Generic) (fuel : nat) : vtable :=
  dispatch o (generic o g fuel).

(** ** The band quadrature (Astrobj.C, 696-739) *)

Section Quadrature.

Variable self : vtable.
Variables (dsem : D) (coord_ph : state_t) (coord_obj : list D).

(** The loop [for (nu = ...; nu < nu2; nu += dnux2) Icur += ...] (724-726),
    entered with the current [nu] and [Icur]. *)
Fixpoint integrateEmission_for (fuel : nat) (nu nu2 dnux2 Icur : D) : M D :=
  match fuel with
  | O => out_of_fuel
  | S k =>
      if nu <? nu2 then
        e <- v_emission self nu dsem coord_ph coord_obj ;;
        integrateEmission_for k (nu + dnux2) nu2 dnux2 (Icur + e * dnux2)
      else ret Icur
  end.

(** The loop [do { ... } while (fabs(Icur-Iprev) > (1e-2 * Icur))]
    (721-731), entered with the current [dnux2] and [Icur]. *)
Fixpoint integrateEmission_do (fuel : nat) (nu1 nu2 dnux2 Icur : D) : M D :=
  match fuel with
  | O => out_of_fuel
  | S k =>
      let Iprev := Icur in
      let dnux2 := dnux2 * d_0p5 in
      Icur <- integrateEmission_for fuel (nu1 + d_0p5 * dnux2) nu2 dnux2 Icur ;;
      let Icur := Icur * d_0p5 in
      if fabs (Icur - Iprev) >? d_1em2 * Icur
      then integrateEmission_do k nu1 nu2 dnux2 Icur
      else ret Icur
  end.

(** [Generic::integrateEmission(double nu1, double nu2, ...)] (706-739) *)
Definition integrateEmission (fuel : nat) (nu1 nu2 : D) : M D :=
  let '(nu1, nu2) := if nu1 >? nu2 then (nu2, nu1) else (nu1, nu2) in
  Inu1 <- v_emission self nu1 dsem coord_ph coord_obj ;;
  Inu2 <- v_emission self nu2 dsem coord_ph coord_obj ;;
  let dnux2 := (nu2 - nu1) * d_2 in
  let Icur := (Inu2 + Inu1) * dnux2 * d_0p25 in
  integrateEmission_do fuel nu1 nu2 dnux2 Icur.

(** [Generic::integrateEmission(double * I, double const * boundaries,
    size_t const * chaninds, size_t nbnu, ...)] (696-704) *)
Definition integrateEmission_vector (fuel : nat) (boundaries : list D)
    (chaninds : list nat) (nbnu : nat) : M (list D) :=
  mapM (fun i => integrateEmission fuel
                   (at_ boundaries (nth (2 * i) chaninds O))
                   (at_ boundaries (nth (2 * i + 1) chaninds O)))
       (seq 0 nbnu).

End Quadrature.

(** ** The step-size policy (Astrobj.C, 748-767) *)

(** [Generic::deltaMax]; [rMax()] is the accessor of [rmax_] (129-130). *)
Definition rMax (g : Generic) : D := rmax_ g.

Definition deltaMax (g : Generic) (coord : list D) : outcome D :=
  match gg_ g with
  | None =>
      Error "Please set metric before calling Astrobj::Generic::deltaMax()"
  | Some gg =>
      let rr :=
        match coordKind gg with
        | GYOTO_COORDKIND_SPHERICAL => Ok (at_ coord 1)
        | GYOTO_COORDKIND_CARTESIAN =>
            Ok (sqrt (at_ coord 1 * at_ coord 1 + at_ coord 2 * at_ coord 2
                      + at_ coord 3 * at_ coord 3))
        | GYOTO_COORDKIND_UNSPECIFIED =>
            Error "Incompatible coordinate kind in Astrobj.C"
        end in
      match rr with
      | Ok rr =>
          Ok (if rr <? rMax g then deltamaxinsidermax_ g else rr * d_0p5)
      | Error msg => Error msg
      | Undefined => Undefined
      | OutOfFuel => OutOfFuel
      end
  end.

(** ** The output record [Astrobj::Properties] (Astrobj.C, 777-906)

    A [double*] field is [None] when [NULL] and otherwise the index of the
    double it points to in the memory of doubles; pointer arithmetic counts
    in doubles. *)

Definition pointer : Type := option Z.

Record Properties : Type := {
  intensity : pointer; time : pointer; distance : pointer;
  first_dmin : pointer; first_dmin_found : Z;
  redshift : pointer; nbcrosseqplane : pointer;
  spectrum : pointer; stokesQ : pointer; stokesU : pointer; stokesV : pointer;
  binspectrum : pointer; offset : Z; impactcoords : pointer;
  user1 : pointer; user2 : pointer; user3 : pointer; user4 : pointer;
  user5 : pointer;
  intensity_converter_ : option (D -> D);       (* HAVE_UDUNITS *)
  spectrum_converter_ : option (D -> D);
  binspectrum_converter_ : option (D -> D);
  alloc : bool
}.

(** [Properties::Properties()] (777-789) *)
Definition Properties_default : Properties := {|
  intensity := None; time := None; distance := None;
  first_dmin := None; first_dmin_found := 0;
  redshift := None; nbcrosseqplane := None;
  spectrum := None; stokesQ := None; stokesU := None; stokesV := None;
  binspectrum := None; offset := 1; impactcoords := None;
  user1 := None; user2 := None; user3 := None; user4 := None; user5 := None;
  intensity_converter_ := None; spectrum_converter_ := None;
  binspectrum_converter_ := None; alloc := false
|}.

(** [if (p) p += n;] *)
Definition advance (p : pointer) (n : Z) : pointer :=
  match p with
  | Some a => Some (a + n)%Z
  | None => None
  end.

(** [Properties::operator+=(ptrdiff_t ofset)] (858-877) *)
Definition Properties_add (d : Properties) (ofset : Z) : Properties := {|
  intensity := advance (intensity d) ofset;
  time := advance (time d) ofset;
  distance := advance (distance d) ofset;
  first_dmin := advance (first_dmin d) ofset;
  first_dmin_found := first_dmin_found d;
  redshift := advance (redshift d) ofset;
  nbcrosseqplane := advance (nbcrosseqplane d) ofset;
  spectrum := advance (spectrum d) ofset;
  stokesQ := advance (stokesQ d) ofset;
  stokesU := advance (stokesU d) ofset;
  stokesV := advance (stokesV d) ofset;
  binspectrum := advance (binspectrum d) ofset;
  offset := offset d;
  impactcoords := advance (impactcoords d) (16 * ofset);
  user1 := advance (user1 d) ofset;
  user2 := advance (user2 d) ofset;
  user3 := advance (user3 d) ofset;
  user4 := advance (user4 d) ofset;
  user5 := advance (user5 d) ofset;
  intensity_converter_ := intensity_converter_ d;
  spectrum_converter_ := spectrum_converter_ d;
  binspectrum_converter_ := binspectrum_converter_ d;
  alloc := alloc d
|}.

(** [Properties::operator++()] (879-882) *)
Definition Properties_incr (d : Properties) : Properties :=
  Properties_add d 1.

(** The memory of doubles the pointers of the record point into. *)
Definition memory : Type := Z -> D.

Definition store (m : memory) (a : Z) (v : D) : memory :=
  fun x => if (x =? a)%Z then v else m x.

(** Writes [f i] to [p[i*stride]] for [i] from [i0] to [i0 + n - 1]. *)
Fixpoint fill (m : memory) (p stride : Z) (f : nat -> D) (i0 n : nat)
    : memory :=
  match n with
  | O => m
  | S n' => fill (store m (p + Z.of_nat i0 * stride)%Z (f i0)) p stride f
                 (S i0) n'
  end.

(** [memcpy(dst, src, n * sizeof(double))] *)
Definition memcpy (m : memory) (dst : Z) (src : list D) (n : nat) : memory :=
  fill m dst 1 (at_ src) 0 n.

(** [Properties::init(size_t nbnuobs)] (805-824) *)
Definition Properties_init (d : Properties) (nbnuobs : nat) (m : memory)
    : Properties * memory :=
  let set (p : pointer) (v : D) (m : memory) : memory :=
    match p with Some a => store m a v | None => m end in
  let clear (p : pointer) (m : memory) : memory :=
    match p with
    | Some a => fill m a (offset d) (fun _ => d_0) 0 nbnuobs
    | None => m
    end in
  let m := set (intensity d) d_0 m in
  let m := set (time d) DBL_MAX m in
  let m := set (distance d) DBL_MAX m in
  let m := set (first_dmin d) DBL_MAX m in
  let found := match first_dmin d with
               | Some _ => 0%Z
               | None => first_dmin_found d
               end in
  let m := set (redshift d) d_0 m in
  let m := set (nbcrosseqplane d) d_0 m in
  let m := clear (spectrum d) m in
  let m := clear (stokesQ d) m in
  let m := clear (stokesU d) m in
  let m := clear (stokesV d) m in
  let m := clear (binspectrum d) m in
  let m := match impactcoords d with
           | Some a => fill m a 1 (fun _ => DBL_MAX) 0 16
           | None => m
           end in
  let m := set (user1 d) d_0 m in
  let m := set (user2 d) d_0 m in
  let m := set (user3 d) d_0 m in
  let m := set (user4 d) d_0 m in
  let m := set (user5 d) d_0 m in
  ({| intensity := intensity d; time := time d; distance := distance d;
      first_dmin := first_dmin d; first_dmin_found := found;
      redshift := redshift d; nbcrosseqplane := nbcrosseqplane d;
      spectrum := spectrum d; stokesQ := stokesQ d; stokesU := stokesU d;
      stokesV := stokesV d; binspectrum := binspectrum d;
      offset := offset d; impactcoords := impactcoords d;
      user1 := user1 d; user2 := user2 d; user3 := user3 d;
      user4 := user4 d; user5 := user5 d;
      intensity_converter_ := intensity_converter_ d;
      spectrum_converter_ := spectrum_converter_ d;
      binspectrum_converter_ := binspectrum_converter_ d;
      alloc := alloc d |}, m).

(** ** The collaborators of the accumulator

    [Photon] and [Spectrometer] are used through the methods below
    (GyotoPhoton.h, GyotoSpectrometer.h).  A spectrometer is the
    values its accessors return; a photon is any type [Ph] with the methods
    of [PhotonClass], which are taken as they come. [transfer] receives the
    eleven arrays by pointer and may update them. *)

Record Spectrometer : Type := {
  nSamples : nat;
  getMidpoints : list D;
  getNBoundaries : nat;
  getChannelBoundaries : list D;
  getChannelIndices : list nat
}.

Record PhotonClass (Ph : Type) : Type := {
  freqObs : Ph -> D;
  spectrometer : Ph -> option Spectrometer;
  getTransmission : Ph -> Z -> D;
  transmit : Ph -> Z -> D -> Ph;
  parallelTransport : Ph -> bool;
  transfer : Ph -> Polar -> Ph * Polar
}.

(** [size_t(-1)] (a [size_t] of 64 bits), the index that stands for the
    photon's overall transmission. *)
Definition SIZE_MAX : Z := 18446744073709551615.

(** ** The hit-quantity accumulator (Astrobj.C, 163-451) *)

Section Accumulator.

Context {Ph : Type} (P : PhotonClass Ph).

(** What one call reads and writes: the object's bitmask, the photon and
    the memory behind the output record. *)
Record World : Type := {
  w_features : Z;
  w_ph : Ph;
  w_mem : memory
}.

Definition H (A : Type) : Type := St World A.

(** A call of a method of the object. *)
Definition call {A} (m : M A) : H A :=
  fun w => match m (w_features w) with
           | Ok (a, df) =>
               Ok (a, {| w_features := df; w_ph := w_ph w; w_mem := w_mem w |})
           | Error msg => Error msg
           | Undefined => Undefined
           | OutOfFuel => OutOfFuel
           end.

Definition photon : H Ph := fun w => Ok (w_ph w, w).

Definition set_photon (ph : Ph) : H unit :=
  fun w => Ok (tt, {| w_features := w_features w; w_ph := ph;
                      w_mem := w_mem w |}).

Definition load (a : Z) : H D := fun w => Ok (w_mem w a, w).

Definition write (a : Z) (v : D) : H unit :=
  fun w => Ok (tt, {| w_features := w_features w; w_ph := w_ph w;
                      w_mem := store (w_mem w) a v |}).

Definition write_list (dst : Z) (src : list D) (n : nat) : H unit :=
  fun w => Ok (tt, {| w_features := w_features w; w_ph := w_ph w;
                      w_mem := memcpy (w_mem w) dst src n |}).

(** [p[i] += inc] through a raw pointer. *)
Definition add_at (p : pointer) (i : Z) (inc : D) : H unit :=
  match p with
  | Some a => old <- load (a + i)%Z ;; write (a + i)%Z (old + inc)
  | None => undefined
  end.

(** [operator->] of a [SmartPointer] reports an error on [NULL]
    (GyotoSmartPointer.h). *)
Definition deref {S A} (p : option A) : St S A :=
  match p with
  | Some a => ret a
  | None => throw "Null Gyoto::SmartPointer dereference in operator->"
  end.

Definition convert (c : option (D -> D)) (inc : D) : D :=
  match c with
  | Some f => f inc
  | None => inc
  end.

Definition is_set (p : pointer) : bool :=
  match p with Some _ => true | None => false end.

Section Hit.

Variable self : vtable.
Variable fuel : nat.
Variables (coord_ph_hit : state_t) (coord_obj_hit : list D).
Variable data : Properties.
Variables (freqObs_ ggredm1 ggred dsem : D).
Variable spr : option Spectrometer.
Variables (nbnuobs : nat) (nuobs : list D).

(** 200-205 *)
Definition phq_redshift : H unit :=
  match redshift data with
  | Some p => write p ggred
  | None => ret tt
  end.

(** 206-211 *)
Definition phq_time : H unit :=
  match time data with
  | Some p => write p (at_ coord_ph_hit 0)
  | None => ret tt
  end.

(** 212-216 *)
Definition phq_impactcoords : H unit :=
  match impactcoords data with
  | Some p =>
      first <- load p ;;
      if first =? DBL_MAX then
        (if (8 <? List.length coord_ph_hit)%nat
         then throw "ImpactCoords is incompatible with parallel transport"
         else ret tt) ;;;
        write_list p coord_obj_hit 8 ;;;
        write_list (p + 8)%Z coord_ph_hit 8
      else ret tt
  | None => ret tt
  end.

(** 221-271 *)
Definition phq_intensity : H unit :=
  match intensity data with
  | Some p =>
      e <- call (v_emission self (freqObs_ * ggredm1) dsem
                            coord_ph_hit coord_obj_hit) ;;
      ph <- photon ;;
      let inc := e * getTransmission P ph SIZE_MAX * ggred * ggred * ggred in
      let inc := convert (intensity_converter_ data) inc in
      old <- load p ;;
      write p (old + inc)
  | None => ret tt
  end.

(** 272-303 *)
Definition phq_binspectrum : H unit :=
  match binspectrum data with
  | Some p =>
      s <- deref spr ;;
      let nbounds := getNBoundaries s in
      let channels := getChannelBoundaries s in
      let chaninds := getChannelIndices s in
      let boundaries :=
        map (fun ii => at_ channels ii * ggredm1) (seq 0 nbounds) in
      I <- call (integrateEmission_vector self dsem coord_ph_hit
                   coord_obj_hit fuel boundaries chaninds nbnuobs) ;;
      forM (seq 0 nbnuobs) (fun ii =>
        ph <- photon ;;
        let inc := at_ I ii * getTransmission P ph (Z.of_nat ii)
                   * ggred * ggred * ggred * ggred in
        let inc := convert (binspectrum_converter_ data) inc in
        old <- load (p + Z.of_nat ii * offset data)%Z ;;
        write (p + Z.of_nat ii * offset data)%Z (old + inc) ;;;
        if is_set (spectrum data) then ret tt
        else
          t <- call (v_transmission self (at_ nuobs ii * ggredm1) dsem
                                    coord_ph_hit coord_obj_hit) ;;
          ph <- photon ;;
          set_photon (transmit P ph (Z.of_nat ii) t))
  | None => ret tt
  end.

(** 304-442 *)
Definition phq_spectrum : H unit :=
  if is_set (spectrum data) || is_set (stokesQ data)
     || is_set (stokesU data) || is_set (stokesV data) then
    ph <- photon ;;
    let nuem := map (fun ii => at_ nuobs ii * ggredm1) (seq 0 nbnuobs) in
    if parallelTransport P ph then
      q <- call (v_radiativeQ_polar self nuem dsem
                                    coord_ph_hit coord_obj_hit) ;;
      ph <- photon ;;
      let '(ph', q) := transfer P ph q in
      set_photon ph' ;;;
      let ggred3 := ggred * ggred * ggred in
      let out (slot : pointer) (X : list D) (ii : nat) : H unit :=
        match slot with
        | Some p =>
            let inc := at_ X ii * ggred3 in
            let inc := convert (spectrum_converter_ data) inc in
            old <- load (p + Z.of_nat ii * offset data)%Z ;;
            write (p + Z.of_nat ii * offset data)%Z (old + inc)
        | None => ret tt
        end in
      forM (seq 0 nbnuobs) (fun ii =>
        out (spectrum data) (p_Inu q) ii ;;;
        out (stokesQ data) (p_Qnu q) ii ;;;
        out (stokesU data) (p_Unu q) ii ;;;
        out (stokesV data) (p_Vnu q) ii)
    else
      ' (Inu, Taunu) <- call (v_radiativeQ self nuem dsem
                                           coord_ph_hit coord_obj_hit) ;;
      forM (seq 0 nbnuobs) (fun ii =>
        ph <- photon ;;
        let inc := at_ Inu ii * getTransmission P ph (Z.of_nat ii)
                   * ggred * ggred * ggred in
        let inc := convert (spectrum_converter_ data) inc in
        add_at (spectrum data) (Z.of_nat ii * offset data) inc ;;;
        ph <- photon ;;
        set_photon (transmit P ph (Z.of_nat ii) (at_ Taunu ii)))
  else ret tt.

(** 443-445: the update of the photon's transmission *)
Definition phq_transmit : H unit :=
  t <- call (v_transmission self (freqObs_ * ggredm1) dsem
                            coord_ph_hit coord_obj_hit) ;;
  ph <- photon ;;
  set_photon (transmit P ph SIZE_MAX t).

End Hit.

(** [Generic::processHitQuantities] (163-451); [data] is [None] for a
    [NULL] pointer. *)
Definition processHitQuantities (o : Overrides) (g : Generic) (fuel : nat)
    (coord_ph_hit : state_t) (coord_obj_hit : list D) (dt : D)
    (data : option Properties) : H unit :=
  let self := methods o g fuel in
  ph <- photon ;;
  let freqObs_ := freqObs P ph in
  let spr := spectrometer P ph in
  let nbnuobs := match spr with Some s => nSamples s | None => O end in
  let nuobs := match spr, nbnuobs with
               | Some s, S _ => getMidpoints s
               | _, _ => []
               end in
  let dlambda := dt / at_ coord_ph_hit 4 in
  gg <- deref (gg_ g) ;;
  let ggredm1 := - ScalarProd gg coord_ph_hit (skipn 4 coord_obj_hit)
                                 (skipn 4 coord_ph_hit) in
  let ggredm1 := if noredshift_ g then d_1 else ggredm1 in
  let ggred := d_1 / ggredm1 in
  let dsem := dlambda * ggredm1 in
  match data with
  | Some data =>
      phq_redshift data ggred ;;;
      phq_time coord_ph_hit data ;;;
      phq_impactcoords coord_ph_hit coord_obj_hit data ;;;
      phq_intensity self coord_ph_hit coord_obj_hit data
                    freqObs_ ggredm1 ggred dsem ;;;
      phq_binspectrum self fuel coord_ph_hit coord_obj_hit data
                      ggredm1 ggred dsem spr nbnuobs nuobs ;;;
      phq_spectrum self coord_ph_hit coord_obj_hit data
                   ggredm1 ggred dsem nbnuobs nuobs ;;;
      phq_transmit self coord_ph_hit coord_obj_hit freqObs_ ggredm1 dsem
  | None => ret tt
  end.

End Accumulator.

End Model.

Arguments state_t D : clear implicits.
Arguments Metric D : clear implicits.
Arguments Generic D : clear implicits.
Arguments Polar D : clear implicits.
Arguments vtable D : clear implicits.
Arguments Overrides D : clear implicits.
Arguments Properties D : clear implicits.
Arguments memory D : clear implicits.
Arguments Spectrometer D : clear implicits.
Arguments PhotonClass D Ph : clear implicits.
Arguments World D Ph : clear implicits.

(** ** Vocabulary of the properties *)

Section Vocabulary.

Context {D : Type} {DD : Double D}.

(** Derived classes that reimplement one method. *)
Definition only_emission (f : D -> D -> state_t D -> list D -> D)
    : Overrides D :=
  {| o_transmission := None; o_emission := Some f;
     o_emission_vector := None;
     o_radiativeQ := None; o_radiativeQ_polar := None |}.

Definition only_vector (V : list D -> D -> state_t D -> list D -> list D)
    : Overrides D :=
  {| o_transmission := None; o_emission := None;
     o_emission_vector := Some V;
     o_radiativeQ := None; o_radiativeQ_polar := None |}.

Definition only_radiativeQ
    (F : list D -> D -> state_t D -> list D -> list D * list D)
    : Overrides D :=
  {| o_transmission := None; o_emission := None; o_emission_vector := None;
     o_radiativeQ := Some F; o_radiativeQ_polar := None |}.

Definition only_radiativeQ_polar
    (G : list D -> D -> state_t D -> list D -> Polar D) : Overrides D :=
  {| o_transmission := None; o_emission := None; o_emission_vector := None;
     o_radiativeQ := None; o_radiativeQ_polar := Some G |}.

(** The radiative-transfer levels: polarized transfer, unpolarized
    transfer, vector emission, and the scalar level (scalar emission,
    scalar transmission).  [one_level o]: the class reimplements methods of
    exactly one of them. *)
Inductive one_level : Overrides D -> Prop :=
| level_scalar o :
    o_emission_vector o = None ->
    o_radiativeQ o = None ->
    o_radiativeQ_polar o = None ->
    o_emission o <> None \/ o_transmission o <> None ->
    one_level o
| level_vector V : one_level (only_vector V)
| level_radiativeQ F : one_level (only_radiativeQ F)
| level_radiativeQ_polar G : one_level (only_radiativeQ_polar G).

(** A bit of [__defaultfeatures] is set by the default body of its method
    only: in an object of class [o] the bit of a reimplemented method is
    clear.  The constructors start from [0], which is consistent. *)
Definition consistent (o : Overrides D) (df : Z) : Prop :=
  match o_emission_vector o with
  | Some _ => unset df __default_emission_vector = true
  | None => True
  end
  /\ match o_radiativeQ o with
     | Some _ => unset df __default_radiativeQ = true
     | None => True
     end
  /\ match o_radiativeQ_polar o with
     | Some _ => unset df __default_radiativeQ_polar = true
     | None => True
     end.

(** The call [m] gives one answer [r] whatever consistent value the
    bitmask has, and leaves the bitmask consistent. *)
Definition determined {A} (o : Overrides D) (m : M A) : Prop :=
  exists r, forall df, consistent o df ->
    exists df', m df = Ok (r, df') /\ consistent o df'.

(** What the scalar methods of an object answer once the bits are set. *)
Definition scalar_emission (o : Overrides D) (g : Generic D)
    : D -> D -> state_t D -> list D -> D :=
  match o_emission o with
  | Some f => f
  | None => fun _ dsem _ _ => if flag_radtransf_ g then dsem else d_1
  end.

Definition scalar_transmission (o : Overrides D) (g : Generic D)
    : D -> D -> state_t D -> list D -> D :=
  match o_transmission o with
  | Some f => f
  | None => fun _ _ _ _ => of_bool (flag_radtransf_ g)
  end.

(** The eleven arrays the default polarized [radiativeQ] builds from the
    two of the unpolarized one (677-692). *)
Definition unpolarized (nbnu : nat) (Inu Taunu : list D) : Polar D :=
  let zeros := map (fun _ => d_0) (seq 0 nbnu) in
  {| p_Inu := Inu;
     p_Qnu := zeros; p_Unu := zeros; p_Vnu := zeros;
     p_alphaInu :=
       map (fun i => if dltb (at_ Taunu i) d_0p1 then dopp infinity
                     else dopp (log (at_ Taunu i)))
           (seq 0 nbnu);
     p_alphaQnu := zeros; p_alphaUnu := zeros; p_alphaVnu := zeros;
     p_rQnu := zeros; p_rUnu := zeros; p_rVnu := zeros |}.

(** The transmission the default unpolarized [radiativeQ] derives from the
    absorption coefficient of a reimplemented polarized one (622-624). *)
Definition transmission_of (alphaInu : list D) (nbnu : nat) : list D :=
  map (fun i => exp (dopp (at_ alphaInu i))) (seq 0 nbnu).

(** All three capability bits are set. *)
Definition settled (df : Z) : Prop :=
  unset df 1 = false /\ unset df 2 = false /\ unset df 4 = false.

(** [df'] is [df] with some of the three capability bits added. *)
Definition extends (df df' : Z) : Prop :=
  exists m, Z.land m 7 = m /\ df' = Z.lor df m.

(** A call that returns has only added capability bits. *)
Definition grows {A} (m : M A) : Prop :=
  forall df r df', m df = Ok (r, df') -> extends df df'.

Definition vtable_grows (vt : vtable D) : Prop :=
  (forall nu dsem cph co, grows (v_transmission vt nu dsem cph co))
  /\ (forall nu dsem cph co, grows (v_emission vt nu dsem cph co))
  /\ (forall nuem dsem cph co, grows (v_emission_vector vt nuem dsem cph co))
  /\ (forall nuem dsem cph co, grows (v_radiativeQ vt nuem dsem cph co))
  /\ (forall nuem dsem cph co, grows (v_radiativeQ_polar vt nuem dsem cph co)).

Definition growsH {Ph A} (m : St (World D Ph) A) : Prop :=
  forall w r w', m w = Ok (r, w') -> extends (w_features w) (w_features w').

(** [p'] is [p] moved forward by [k] doubles, or both are [NULL]. *)
Definition moved (p p' : pointer) (k : Z) : Prop :=
  match p, p' with
  | Some a, Some a' => a' = (a + k)%Z
  | None, None => True
  | _, _ => False
  end.

(** The factor [ggredm1] and the length [dsem] of one hit (182-189). *)
Definition hit_ggredm1 (g : Generic D) (gg : Metric D)
    (coord_ph_hit : state_t D) (coord_obj_hit : list D) : D :=
  if noredshift_ g then d_1
  else dopp (ScalarProd gg coord_ph_hit (skipn 4 coord_obj_hit)
                        (skipn 4 coord_ph_hit)).

Definition hit_dsem (g : Generic D) (gg : Metric D)
    (coord_ph_hit : state_t D) (coord_obj_hit : list D) (dt : D) : D :=
  dmul (ddiv dt (at_ coord_ph_hit 4))
       (hit_ggredm1 g gg coord_ph_hit coord_obj_hit).

End Vocabulary.

(** ** Data of the examples

    The examples run on binary64 numbers.  [exp] and [log] are tabulated
    where their value is a binary64 number and are NaN elsewhere. *)

Definition exp_table (x : float) : float :=
  if PrimFloat.eqb x 0 then 1%float
  else if PrimFloat.eqb x neg_infinity then 0%float
  else if PrimFloat.eqb x PrimFloat.infinity then PrimFloat.infinity
  else nan.

Definition log_table (x : float) : float :=
  if PrimFloat.eqb x 1 then 0%float
  else if PrimFloat.eqb x 0 then neg_infinity
  else if PrimFloat.eqb x PrimFloat.infinity then PrimFloat.infinity
  else nan.

Definition binary64 : Double float := float_double exp_table log_table.

(** Exact arithmetic for the examples: none of them calls [sqrt], [exp] or
    [log], which are left at [0]. *)
Definition rational : Double Q :=
  Q_double (fun _ => 0%Q) (fun _ => 0%Q) (fun _ => 0%Q) 0%Q.

(** A metric of spherical kind in which every scalar product is [-1]. *)
Definition unit_metric : Metric float :=
  {| coordKind := GYOTO_COORDKIND_SPHERICAL;
     ScalarProd := fun _ _ _ => (-1)%float |}.

Definition thin_object : Generic float :=
  {| gg_ := Some unit_metric; rmax_ := 10%float;
     deltamaxinsidermax_ := 0.5%float; flag_radtransf_ := true;
     noredshift_ := false; shadow_ := false |}.

(** A photon that records the calls of [transmit], the latest first; it
    has no spectrometer and all its transmissions are 1. *)
Definition recording_photon : PhotonClass float (list (Z * float)) :=
  {| freqObs := fun _ => 1%float;
     spectrometer := fun _ => None;
     getTransmission := fun _ _ => 1%float;
     transmit := fun ph i t => (i, t) :: ph;
     parallelTransport := fun _ => false;
     transfer := fun ph q => (ph, q) |}.

(** A state of 8 components: the point [t = 0, r = 5], at rest. *)
Definition hit_coord : list float := [0; 5; 1; 0; 1; 0; 0; 0]%float.

Definition blank_world : World float (list (Z * float)) :=
  {| w_features := 0; w_ph := []; w_mem := fun _ => 0%float |}.

(** An output record that asks for the impact coordinates, at address 0. *)
Definition impact_only : Properties float :=
  {| intensity := None; time := None; distance := None;
     first_dmin := None; first_dmin_found := 0;
     redshift := None; nbcrosseqplane := None;
     spectrum := None; stokesQ := None; stokesU := None; stokesV := None;
     binspectrum := None; offset := 1; impactcoords := Some 0;
     user1 := None; user2 := None; user3 := None; user4 := None;
     user5 := None;
     intensity_converter_ := None; spectrum_converter_ := None;
     binspectrum_converter_ := None; alloc := false |}.

(** An output record that asks for the intensity, at address 0. *)
Definition intensity_only : Properties float :=
  {| intensity := Some 0; time := None; distance := None;
     first_dmin := None; first_dmin_found := 0;
     redshift := None; nbcrosseqplane := None;
     spectrum := None; stokesQ := None; stokesU := None; stokesV := None;
     binspectrum := None; offset := 1; impactcoords := None;
     user1 := None; user2 := None; user3 := None; user4 := None;
     user5 := None;
     intensity_converter_ := None; spectrum_converter_ := None;
     binspectrum_converter_ := None; alloc := false |}.

(** ** More vocabulary *)

(** A call that returns normally. *)
Definition returns {S A} (m : St S A) (s : S) : Prop :=
  exists r s', m s = Ok (r, s').

(** A call that returns leaves the bitmask consistent with the class. *)
Definition keeps {D A} (o : Overrides D) (m : M A) : Prop :=
  forall df r df', consistent o df -> m df = Ok (r, df') -> consistent o df'.

Definition vtable_keeps {D} (o : Overrides D) (vt : vtable D) : Prop :=
  (forall nu dsem cph co, keeps o (v_transmission vt nu dsem cph co))
  /\ (forall nu dsem cph co, keeps o (v_emission vt nu dsem cph co))
  /\ (forall nuem dsem cph co,
        keeps o (v_emission_vector vt nuem dsem cph co))
  /\ (forall nuem dsem cph co, keeps o (v_radiativeQ vt nuem dsem cph co))
  /\ (forall nuem dsem cph co,
        keeps o (v_radiativeQ_polar vt nuem dsem cph co)).

(** No slot of the record that the accumulator fills from a spectrum is
    requested. *)
Definition no_spectral_slot {D} (data : Properties D) : Prop :=
  binspectrum data = None /\ spectrum data = None
  /\ stokesQ data = None /\ stokesU data = None /\ stokesV data = None.

(** [Generic::metric(SmartPointer<Metric::Generic> gg)] (Astrobj.C, 125) *)
Definition set_metric {D} (g : Generic D) (gg : Metric D) : Generic D :=
  {| gg_ := Some gg; rmax_ := rmax_ g;
     deltamaxinsidermax_ := deltamaxinsidermax_ g;
     flag_radtransf_ := flag_radtransf_ g; noredshift_ := noredshift_ g;
     shadow_ := shadow_ g |}.

(** The values of the macros [GYOTO_QUANTITY_...] (GyotoDefs.h), taken as
    they come. *)
Record Quantities : Type := {
  GYOTO_QUANTITY_NONE : Z;
  GYOTO_QUANTITY_INTENSITY : Z;
  GYOTO_QUANTITY_EMISSIONTIME : Z;
  GYOTO_QUANTITY_MIN_DISTANCE : Z;
  GYOTO_QUANTITY_FIRST_DMIN : Z;
  GYOTO_QUANTITY_REDSHIFT : Z;
  GYOTO_QUANTITY_NBCROSSEQPLANE : Z;
  GYOTO_QUANTITY_SPECTRUM : Z;
  GYOTO_QUANTITY_SPECTRUM_STOKES_Q : Z;
  GYOTO_QUANTITY_SPECTRUM_STOKES_U : Z;
  GYOTO_QUANTITY_SPECTRUM_STOKES_V : Z;
  GYOTO_QUANTITY_BINSPECTRUM : Z;
  GYOTO_QUANTITY_IMPACTCOORDS : Z;
  GYOTO_QUANTITY_USER1 : Z;
  GYOTO_QUANTITY_USER2 : Z;
  GYOTO_QUANTITY_USER3 : Z;
  GYOTO_QUANTITY_USER4 : Z;
  GYOTO_QUANTITY_USER5 : Z
}.

(** [if (p) res |= q;] *)
Definition or_if (p : pointer) (q res : Z) : Z :=
  match p with
  | Some _ => Z.lor res q
  | None => res
  end.

(** [Properties::operator Quantity_t () const] (Astrobj.C, 884-906) *)
Definition Properties_Quantity_t {D} (Q : Quantities) (d : Properties D)
    : Z :=
  let res := GYOTO_QUANTITY_NONE Q in
  let res := or_if (intensity d) (GYOTO_QUANTITY_INTENSITY Q) res in
  let res := or_if (time d) (GYOTO_QUANTITY_EMISSIONTIME Q) res in
  let res := or_if (distance d) (GYOTO_QUANTITY_MIN_DISTANCE Q) res in
  let res := or_if (first_dmin d) (GYOTO_QUANTITY_FIRST_DMIN Q) res in
  let res := or_if (redshift d) (GYOTO_QUANTITY_REDSHIFT Q) res in
  let res := or_if (nbcrosseqplane d) (GYOTO_QUANTITY_NBCROSSEQPLANE Q) res in
  let res := or_if (spectrum d) (GYOTO_QUANTITY_SPECTRUM Q) res in
  let res := or_if (stokesQ d) (GYOTO_QUANTITY_SPECTRUM_STOKES_Q Q) res in
  let res := or_if (stokesU d) (GYOTO_QUANTITY_SPECTRUM_STOKES_U Q) res in
  let res := or_if (stokesV d) (GYOTO_QUANTITY_SPECTRUM_STOKES_V Q) res in
  let res := or_if (binspectrum d) (GYOTO_QUANTITY_BINSPECTRUM Q) res in
  let res := or_if (impactcoords d) (GYOTO_QUANTITY_IMPACTCOORDS Q) res in
  let res := or_if (user1 d) (GYOTO_QUANTITY_USER1 Q) res in
  let res := or_if (user2 d) (GYOTO_QUANTITY_USER2 Q) res in
  let res := or_if (user3 d) (GYOTO_QUANTITY_USER3 Q) res in
  let res := or_if (user4 d) (GYOTO_QUANTITY_USER4 Q) res in
  let res := or_if (user5 d) (GYOTO_QUANTITY_USER5 Q) res in
  res.

(** [u] is [NULL] or points outside the 16 doubles at [p]. *)
Definition outside (u : pointer) (p : Z) : Prop :=
  match u with
  | Some a => a < p \/ p + 16 <= a
  | None => True
  end.

(** * The utilities (Utils.C) *)

From Stdlib Require Ascii Uint63.
From Stdlib Require Floats.SpecFloat Floats.FloatAxioms Floats.FloatLemmas.

Module Utils.

Import Ascii.

(** ** The debug mode and the verbosity (Utils.C, 37-70)

    The three file-level variables are the state; the macros
    [GYOTO_DEBUG_VERBOSITY], [GYOTO_DEFAULT_VERBOSITY] and
    [GYOTO_DEFAULT_DEBUG_MODE] (GyotoDefs.h) are taken as they come. *)

Record globals : Type := {
  gyoto_debug : Z;
  gyoto_verbosity : Z;
  gyoto_prev_verbosity : Z
}.

(** The initial values of the three variables (37-44). *)
Definition initial (GYOTO_DEFAULT_DEBUG_MODE GYOTO_DEBUG_VERBOSITY
                    GYOTO_DEFAULT_VERBOSITY : Z) : globals :=
  if negb (GYOTO_DEFAULT_DEBUG_MODE =? 0) then
    {| gyoto_debug := GYOTO_DEFAULT_DEBUG_MODE;
       gyoto_verbosity := GYOTO_DEBUG_VERBOSITY;
       gyoto_prev_verbosity := GYOTO_DEBUG_VERBOSITY |}
  else
    {| gyoto_debug := GYOTO_DEFAULT_DEBUG_MODE;
       gyoto_verbosity := GYOTO_DEFAULT_VERBOSITY;
       gyoto_prev_verbosity := GYOTO_DEBUG_VERBOSITY |}.

(** [int Gyoto::debug()] *)
Definition debug (s : globals) : Z := gyoto_debug s.

(** [int Gyoto::verbose()] *)
Definition verbose (s : globals) : Z := gyoto_verbosity s.

(** [void Gyoto::verbose(int mode)] *)
Definition set_verbose (mode : Z) (s : globals) : globals :=
  {| gyoto_debug := gyoto_debug s;
     gyoto_verbosity := mode;
     gyoto_prev_verbosity := gyoto_prev_verbosity s |}.

(** [void Gyoto::debug(int mode)] *)
Definition set_debug (GYOTO_DEBUG_VERBOSITY : Z) (mode : Z) (s : globals)
    : globals :=
  if negb (mode =? gyoto_debug s) then
    let s :=
      if negb (mode =? 0) then
        let s := {| gyoto_debug := gyoto_debug s;
                    gyoto_verbosity := gyoto_verbosity s;
                    gyoto_prev_verbosity := verbose s |} in
        set_verbose GYOTO_DEBUG_VERBOSITY s
      else set_verbose (gyoto_prev_verbosity s) s in
    {| gyoto_debug := mode;
       gyoto_verbosity := gyoto_verbosity s;
       gyoto_prev_verbosity := gyoto_prev_verbosity s |}
  else s.

(** ** [std::string] and [Gyoto::split] (Utils.C, 166-177)

    A [std::string] is the list of its characters; [size_t] is 64 bits
    wide and [npos] is its largest value. *)

Definition std_string : Type := list ascii.

Definition npos : Z := 18446744073709551615.

Definition size_t (z : Z) : Z := z mod 18446744073709551616.

(** [s.length()] *)
Definition length (s : std_string) : Z := Z.of_nat (List.length s).

Definition is_in (c : ascii) (delim : std_string) : bool :=
  existsb (Ascii.eqb c) delim.

(** The index of the first character of [l] that is in [delim], counting
    the head of [l] as index [i]. *)
Fixpoint scan (delim l : std_string) (i : Z) : Z :=
  match l with
  | [] => npos
  | c :: l' => if is_in c delim then i else scan delim l' (i + 1)
  end.

(** [src.find_first_of(delim, pos)] *)
Definition find_first_of (src delim : std_string) (pos : Z) : Z :=
  scan delim (skipn (Z.to_nat pos) src) pos.

(** [src.substr(pos, n)], which throws [std::out_of_range] when [pos] is
    past the end. *)
Definition substr (src : std_string) (pos n : Z) : outcome std_string :=
  if length src <? pos then Error "basic_string::substr"
  else Ok (firstn (Z.to_nat n) (skipn (Z.to_nat pos) src)).

(** The [while] loop of [split]. *)
Fixpoint split_while (fuel : nat) (src delim : std_string)
    (res : list std_string) (pos fpos : Z) : outcome (list std_string) :=
  if negb (fpos =? npos) && (pos <? length src) then
    match fuel with
    | O => OutOfFuel
    | S fuel =>
        let fpos := find_first_of src delim pos in
        if fpos =? pos then
          split_while fuel src delim res (size_t (pos + 1)) fpos
        else
          match substr src pos (size_t (fpos - pos)) with
          | Ok tok =>
              split_while fuel src delim (res ++ [tok])
                          (size_t (fpos + 1)) fpos
          | Error msg => Error msg
          | Undefined => Undefined
          | OutOfFuel => OutOfFuel
          end
    end
  else Ok res.

Definition split (fuel : nat) (src delim : std_string)
    : outcome (list std_string) :=
  split_while fuel src delim [] 0 0.

(** [tokens] joined by the one character [d]. *)
Fixpoint join (d : ascii) (tokens : list std_string) : std_string :=
  match tokens with
  | [] => []
  | [t] => t
  | t :: ts => t ++ d :: join d ts
  end.

(** No character of [l] is in [delim]. *)
Definition free (delim l : std_string) : Prop :=
  forall c, In c l -> is_in c delim = false.

(** A token: not empty, and without a character of [delim]. *)
Definition token (delim t : std_string) : Prop := t <> [] /\ free delim t.

(** The characters that are not in [delim]. *)
Definition kept (delim : std_string) (c : ascii) : bool :=
  negb (is_in c delim).

(** ** [Gyoto::atof] (Utils.C, 96-126)

    A C string is the list of its characters before the terminating NUL,
    which none of the comparisons reads past.  [isspace] depends on the
    locale and [std::atof] is the C library's; both are taken as they
    come, as is the macro [DBL_MIN]. *)

Section Atof.

Context {D : Type} {DD : Double D}.
Variable isspace : ascii -> bool.
Variable std_atof : list ascii -> D.
Variable DBL_MIN : D.

(** [while (isspace(str[offset])) ++offset;] *)
Fixpoint skip_space (str : list ascii) : list ascii :=
  match str with
  | c :: str' => if isspace c then skip_space str' else str
  | [] => []
  end.

Definition atof (str : list ascii) : outcome D :=
  let s := skip_space str in
  let '(positive, s) :=
    match s with
    | "-"%char :: s' => (false, s')
    | _ => (true, s)
    end in
  match s with
  | "D"%char :: "B"%char :: "L"%char :: "_"%char :: "M"%char :: s' =>
      match s' with
      | "A"%char :: "X"%char :: _ =>
          Ok (if positive then DBL_MAX else (- DBL_MAX)%D)
      | "I"%char :: "N"%char :: _ =>
          Ok (if positive then DBL_MIN else (- DBL_MIN)%D)
      | _ => Error "unrecognize double representation"
      end
  | _ => Ok (std_atof str)
  end.

End Atof.

(** ** [Gyoto::help] (Utils.C, 128-164)

    The class name is parsed with [substr], [find] and [==]; what is
    modelled of the calls [X().help()] and of the calls to the object
    that [X::getSubcontractor(name, plugins)] builds is which of them
    [help] makes, and with what name. *)

Inductive help_call : Type :=
| Scenery_help
| Screen_help
| Photon_help
| Astrobj_help (class_name : std_string)
| Metric_help (class_name : std_string)
| Spectrum_help (class_name : std_string)
| Spectrometer_help (class_name : std_string).

(** [a == "..."] *)
Fixpoint same (a b : std_string) : bool :=
  match a, b with
  | [], [] => true
  | x :: a', y :: b' => Ascii.eqb x y && same a' b'
  | _, _ => false
  end.

(** [l] starts with [pat]. *)
Fixpoint starts_with (pat l : std_string) : bool :=
  match pat, l with
  | [], _ => true
  | x :: pat', y :: l' => Ascii.eqb x y && starts_with pat' l'
  | _ :: _, [] => false
  end.

(** The index of the first occurrence of [pat] in [l], counting the head
    of [l] as index [i]. *)
Fixpoint find_at (pat l : std_string) (i : Z) : Z :=
  if starts_with pat l then i
  else
    match l with
    | [] => npos
    | _ :: l' => find_at pat l' (i + 1)
    end.

(** [s.find(pat)] *)
Definition find (s pat : std_string) : Z := find_at pat s 0.

Definition and_then {A B} (m : outcome A) (k : A -> outcome B)
    : outcome B :=
  match m with
  | Ok a => k a
  | Error msg => Error msg
  | Undefined => Undefined
  | OutOfFuel => OutOfFuel
  end.

Definition help (class_name : std_string) : outcome help_call :=
  and_then (substr class_name 0 7) (fun prefix =>
  and_then (if same prefix (list_ascii_of_string "Gyoto::")
            then substr class_name 7 npos
            else Ok class_name) (fun class_name =>
  if same class_name (list_ascii_of_string "Scenery") then Ok Scenery_help
  else if same class_name (list_ascii_of_string "Screen") then Ok Screen_help
  else if same class_name (list_ascii_of_string "Photon") then Ok Photon_help
  else
    let pos := find class_name (list_ascii_of_string "::") in
    if (pos =? 0) || (size_t (pos + 2) =? length class_name) then
      Error ("Not a valid class name: " ++ string_of_list_ascii class_name)
    else if (0 <? pos) && negb (pos =? npos) then
      and_then (substr class_name 0 pos) (fun nspace =>
      and_then (substr class_name (size_t (pos + 2)) npos)
        (fun class_name =>
      if same nspace (list_ascii_of_string "Astrobj")
      then Ok (Astrobj_help class_name)
      else if same nspace (list_ascii_of_string "Metric")
      then Ok (Metric_help class_name)
      else if same nspace (list_ascii_of_string "Spectrum")
      then Ok (Spectrum_help class_name)
      else if same nspace (list_ascii_of_string "Spectrometer")
      then Ok (Spectrometer_help class_name)
      else Error ("Unrecognized namespace: " ++ string_of_list_ascii nspace)))
    else
      Error ("Help string not implemented (yet) for "
             ++ string_of_list_ascii class_name))).

End Utils.

Set Warnings "-inexact-float".

Module Bessel.

(** ** The modified Bessel functions (Utils.C, 180-282)

    On binary64 numbers, with the decimal constants rounded to the nearest
    as the compiler does; [exp] and [log] are the C library's and are taken
    as they come, [sqrt] and [fabs] are the IEEE 754 square root and
    absolute value.  Every
    product and sum is rounded on its own. *)

Section Bessel.

Import PrimFloat.
Local Open Scope float_scope.

Variables exp log : float -> float.

Definition bessi0 (xx : float) : float :=
  let ax := PrimFloat.abs xx in
  if ax <? 3.75 then
    let y := xx / 3.75 in
    let y := y * y in
    1.0 + y * (3.5156229 + y * (3.0899424 + y * (1.2067492
      + y * (0.2659732
        + y * (0.360768e-1
          + y * 0.45813e-2)))))
  else
    let y := 3.75 / ax in
    (exp ax / PrimFloat.sqrt ax)
    * (0.39894228
       + y * (0.1328592e-1
         + y * (0.225319e-2
           + y * (-0.157565e-2
             + y * (0.916281e-2
               + y * (-0.2057706e-1
                 + y * (0.2635537e-1
                   + y * (-0.1647633e-1
                     + y * 0.392377e-2)))))))).

Definition bessk0 (xx : float) : float :=
  if xx <=? 2.0 then
    let y := xx * xx / 4.0 in
    (- log (xx / 2.0) * bessi0 xx)
    + (-0.57721566
       + y * (0.42278420
         + y * (0.23069756 + y * (0.3488590e-1
           + y * (0.262698e-2
             + y * (0.10750e-3 + y * 0.74e-5))))))
  else
    let y := 2.0 / xx in
    (exp (- xx) / PrimFloat.sqrt xx) * (1.25331414
      + y * (-0.7832358e-1
        + y * (0.2189568e-1
          + y * (-0.1062446e-1
            + y * (0.587872e-2
              + y * (-0.251540e-2
                + y * 0.53208e-3)))))).

Definition bessi1 (xx : float) : float :=
  let ax := PrimFloat.abs xx in
  let ans :=
    if ax <? 3.75 then
      let y := xx / 3.75 in
      let y := y * y in
      ax * (0.5 + y * (0.87890594
        + y * (0.51498869
          + y * (0.15084934
            + y * (0.2658733e-1
              + y * (0.301532e-2 + y * 0.32411e-3))))))
    else
      let y := 3.75 / ax in
      let ans := 0.2282967e-1 + y * (-0.2895312e-1 + y * (0.1787654e-1
                   - y * 0.420059e-2)) in
      let ans := 0.39894228 + y * (-0.3988024e-1 + y * (-0.362018e-2
                   + y * (0.163801e-2
                     + y * (-0.1031555e-1 + y * ans)))) in
      ans * (exp ax / PrimFloat.sqrt ax) in
  if xx <? 0.0 then - ans else ans.

Definition bessk1 (xx : float) : float :=
  if xx <=? 2.0 then
    let yy := xx * xx / 4.0 in
    (log (xx / 2.0) * bessi1 xx)
    + (1.0 / xx) * (1.0 + yy * (0.15443144
        + yy * (-0.67278579
          + yy * (-0.18156897
            + yy * (-0.1919402e-1
              + yy * (-0.110404e-2
                + yy * (-0.4686e-4)))))))
  else
    let yy := 2.0 / xx in
    (exp (- xx) / PrimFloat.sqrt xx) * (1.25331414
      + yy * (0.23498619
        + yy * (-0.3655620e-1
          + yy * (0.1504268e-1
            + yy * (-0.780353e-2
              + yy * (0.325614e-2
                + yy * (-0.68245e-3))))))).

(** The conversion of a non-negative [int] to [double]. *)
Definition of_int (j : Z) : float := of_uint63 (Uint63.of_Z j).

(** The [for] loop of [bessk], [count] rounds from [j] on. *)
Fixpoint bessk_for (count : nat) (j : Z) (tox bkm bk : float)
    : float * float :=
  match count with
  | O => (bkm, bk)
  | S count =>
      let bkp := bkm + of_int j * tox * bk in
      bessk_for count (j + 1)%Z tox bk bkp
  end.

Definition bessk (nn : Z) (xx : float) : outcome float :=
  if (nn <? 2)%Z then Error "In Utils::besselk n>2!"
  else
    let tox := 2.0 / xx in
    let bkm := bessk0 xx in
    let bk := bessk1 xx in
    Ok (snd (bessk_for (Z.to_nat (nn - 1)) 1 tox bkm bk)).

End Bessel.

End Bessel.

Set Warnings "inexact-float".

(** ** More data for the examples *)

(** A polarized [radiativeQ] that returns the frequencies as [Inu] and no
    absorption. *)
Definition grey_polar (nuem : list float) (dsem : float)
    (cph : state_t float) (co : list float) : Polar float :=
  let zeros := map (fun _ => 0%float) nuem in
  {| p_Inu := nuem; p_Qnu := zeros; p_Unu := zeros; p_Vnu := zeros;
     p_alphaInu := zeros; p_alphaQnu := zeros; p_alphaUnu := zeros;
     p_alphaVnu := zeros; p_rQnu := zeros; p_rUnu := zeros;
     p_rVnu := zeros |}.

(** [thin_object] with the redshift switched off. *)
Definition static_object : Generic float :=
  {| gg_ := Some unit_metric; rmax_ := 10%float;
     deltamaxinsidermax_ := 0.5%float; flag_radtransf_ := true;
     noredshift_ := true; shadow_ := false |}.

(** A metric of Cartesian kind in which every scalar product is [-2]. *)
Definition other_metric : Metric float :=
  {| coordKind := GYOTO_COORDKIND_CARTESIAN;
     ScalarProd := fun _ _ _ => (-2)%float |}.

(** [recording_photon] with a spectrometer of one channel. *)
Definition spectral_photon : PhotonClass float (list (Z * float)) :=
  {| freqObs := fun _ => 1%float;
     spectrometer := fun _ =>
       Some {| nSamples := 1; getMidpoints := [1%float];
               getNBoundaries := 2;
               getChannelBoundaries := [0.5; 1.5]%float;
               getChannelIndices := [0; 1]%nat |};
     getTransmission := fun _ _ => 1%float;
     transmit := fun ph i t => (i, t) :: ph;
     parallelTransport := fun _ => false;
     transfer := fun ph q => (ph, q) |}.

(** An output record that asks for the Stokes parameter Q, at address 0. *)
Definition stokesQ_only : Properties float :=
  {| intensity := None; time := None; distance := None;
     first_dmin := None; first_dmin_found := 0;
     redshift := None; nbcrosseqplane := None;
     spectrum := None; stokesQ := Some 0; stokesU := None; stokesV := None;
     binspectrum := None; offset := 1; impactcoords := None;
     user1 := None; user2 := None; user3 := None; user4 := None;
     user5 := None;
     intensity_converter_ := None; spectrum_converter_ := None;
     binspectrum_converter_ := None; alloc := false |}.

(** [isspace] in the C locale. *)
Definition isspace_C (c : Ascii.ascii) : bool :=
  let n := Ascii.nat_of_ascii c in
  (n =? 32)%nat || ((9 <=? n)%nat && (n <=? 13)%nat).

(** * Properties *)

Unset Implicit Arguments.

(** ** The capability bits *)

Lemma unset_lor (df m b : Z) :
  unset (Z.lor df m) b = unset df b && unset m b.
Proof.
  unfold unset. rewrite Z.land_lor_distr_l.
  destruct (Z.eqb_spec (Z.land df b) 0) as [E1 | E1];
    destruct (Z.eqb_spec (Z.land m b) 0) as [E2 | E2]; cbn [andb];
    destruct (Z.eqb_spec (Z.lor (Z.land df b) (Z.land m b)) 0) as [E | E];
    try reflexivity.
  - exfalso. apply E. apply Z.lor_eq_0_iff. split; assumption.
  - apply Z.lor_eq_0_iff in E. tauto.
  - apply Z.lor_eq_0_iff in E. tauto.
  - apply Z.lor_eq_0_iff in E. tauto.
Qed.

Lemma lor_lor (df a b : Z) : Z.lor (Z.lor df a) b = Z.lor df (Z.lor a b).
Proof. symmetry. apply Z.lor_assoc. Qed.

Ltac consts :=
  unfold __default_radiativeQ_polar, __default_radiativeQ,
         __default_emission_vector in *.

(** Rewrites the tests of bits of [df | m] into tests of bits of [df]. *)
Ltac bits :=
  consts;
  repeat rewrite unset_lor;
  repeat match goal with
         | |- context [unset ?m ?b] =>
             lazymatch m with
             | Zpos _ => idtac
             | Z0 => idtac
             end;
             let v := eval vm_compute in (unset m b) in
             change (unset m b) with v
         end;
  repeat rewrite andb_true_r; repeat rewrite andb_false_r.

Lemma settled_lor_7 df : settled (Z.lor df 7).
Proof. unfold settled. bits. auto. Qed.

Lemma extends_refl df : extends df df.
Proof. exists 0. split; [reflexivity | symmetry; apply Z.lor_0_r]. Qed.

Lemma extends_trans a b c : extends a b -> extends b c -> extends a c.
Proof.
  intros (m1 & M1 & ->) (m2 & M2 & ->). exists (Z.lor m1 m2). split.
  - rewrite Z.land_lor_distr_l, M1, M2. reflexivity.
  - apply lor_lor.
Qed.

(** A bit that is set stays set. *)
Lemma extends_keeps df df' b :
  extends df df' -> unset df b = false -> unset df' b = false.
Proof. intros (m & _ & ->) H. rewrite unset_lor, H. reflexivity. Qed.

Lemma extends_testbit df df' i :
  extends df df' -> Z.testbit df i = true -> Z.testbit df' i = true.
Proof. intros (m & _ & ->) H. rewrite Z.lor_spec, H. reflexivity. Qed.

(** Bits other than the three capability bits are never touched. *)
Lemma extends_high_bits df df' i :
  extends df df' -> 3 <= i -> Z.testbit df' i = Z.testbit df i.
Proof.
  intros (m & Hm & ->) Hi. rewrite Z.lor_spec, <- Hm, Z.land_spec.
  replace (Z.testbit 7 i) with false.
  - rewrite andb_false_r, orb_false_r. reflexivity.
  - symmetry. change 7 with (Z.ones 3). apply Z.ones_spec_high. lia.
Qed.

(** ** The monad *)

Lemma bind_Ok {S A B} (m : St S A) (k : A -> St S B) s a s' :
  m s = Ok (a, s') -> bind m k s = k a s'.
Proof. intros E. unfold bind. rewrite E. reflexivity. Qed.

Arguments bind_Ok {S A B m} k {s a s'} E.

Lemma bind_inv {S A B} (m : St S A) (k : A -> St S B) s b s' :
  bind m k s = Ok (b, s') ->
  exists a s1, m s = Ok (a, s1) /\ k a s1 = Ok (b, s').
Proof.
  unfold bind. destruct (m s) as [[a s1] | | |]; try discriminate.
  intros E. exists a, s1. auto.
Qed.

(** A loop whose calls leave the state alone is a [map]. *)
Lemma mapM_pure {S A B} (f : A -> St S B) (h : A -> B) (s : S) (l : list A) :
  (forall a, f a s = Ok (h a, s)) -> mapM f l s = Ok (map h l, s).
Proof.
  intros Hf. induction l as [| a l IH]; cbn [mapM map].
  - reflexivity.
  - rewrite (bind_Ok _ (Hf a)). rewrite (bind_Ok _ IH). reflexivity.
Qed.

Lemma map_const {A B} (c : B) (l : list A) :
  map (fun _ => c) l = repeat c (List.length l).
Proof. induction l as [| a l IH]; cbn; [| rewrite IH]; reflexivity. Qed.

Section DispatchFacts.

Context {D : Type} {DD : Double D}.

(** *** Virtual calls *)

Section Calls.

Variables (o : Overrides D) (g : Generic D) (n : nat).

Lemma call_transmission :
  o_transmission o = None ->
  v_transmission (methods o g (S n)) = Generic_transmission (methods o g n) g.
Proof.
  intros E. unfold methods, dispatch. cbn [v_transmission].
  rewrite E. reflexivity.
Qed.

Lemma call_emission :
  o_emission o = None ->
  v_emission (methods o g (S n)) = Generic_emission (methods o g n) g.
Proof.
  intros E. unfold methods, dispatch. cbn [v_emission].
  rewrite E. reflexivity.
Qed.

Lemma call_emission_vector :
  o_emission_vector o = None ->
  v_emission_vector (methods o g (S n))
  = Generic_emission_vector (methods o g n).
Proof.
  intros E. unfold methods, dispatch. cbn [v_emission_vector].
  rewrite E. reflexivity.
Qed.

Lemma call_radiativeQ :
  o_radiativeQ o = None ->
  v_radiativeQ (methods o g (S n)) = Generic_radiativeQ (methods o g n).
Proof.
  intros E. unfold methods, dispatch. cbn [v_radiativeQ].
  rewrite E. reflexivity.
Qed.

Lemma call_radiativeQ_polar :
  o_radiativeQ_polar o = None ->
  v_radiativeQ_polar (methods o g (S n))
  = Generic_radiativeQ_polar (methods o g n).
Proof.
  intros E. unfold methods, dispatch. cbn [v_radiativeQ_polar].
  rewrite E. reflexivity.
Qed.

End Calls.

(** Unfolds the default method called at the head of the goal. *)
Ltac enter :=
  first
    [ rewrite call_transmission by (reflexivity || assumption)
    | rewrite call_emission by (reflexivity || assumption)
    | rewrite call_emission_vector by (reflexivity || assumption)
    | rewrite call_radiativeQ by (reflexivity || assumption)
    | rewrite call_radiativeQ_polar by (reflexivity || assumption) ];
  unfold Generic_transmission, Generic_emission, Generic_emission_vector,
         Generic_radiativeQ, Generic_radiativeQ_polar,
         bind, set_features, features, ret;
  bits.

Ltac simp := cbn [orb andb negb]; cbv beta iota.

(** *** Objects that reimplement no array-level method *)

Section ScalarLevel.

Variables (o : Overrides D) (g : Generic D).
Hypothesis Hv : o_emission_vector o = None.
Hypothesis Hq : o_radiativeQ o = None.
Hypothesis Hp : o_radiativeQ_polar o = None.

Variables (dsem : D) (cph : state_t D) (co : list D).

Local Abbreviation em := (fun nu : D => scalar_emission o g nu dsem cph co).
Local Abbreviation tr :=
  (fun nu : D => scalar_transmission o g nu dsem cph co).

Lemma transmission_settled n nu df :
  unset df 2 = false -> unset df 1 = false ->
  v_transmission (methods o g (S n)) nu dsem cph co df
  = Ok (scalar_transmission o g nu dsem cph co, df).
Proof.
  intros H2 H1. unfold scalar_transmission.
  destruct (o_transmission o) as [f |] eqn:Ho.
  - unfold methods, dispatch. cbn [v_transmission]. rewrite Ho. reflexivity.
  - enter. rewrite H2, H1. reflexivity.
Qed.

Lemma emission_settled n nu df :
  unset df 4 = false -> unset df 2 = false -> unset df 1 = false ->
  v_emission (methods o g (S n)) nu dsem cph co df
  = Ok (scalar_emission o g nu dsem cph co, df).
Proof.
  intros H4 H2 H1. unfold scalar_emission.
  destruct (o_emission o) as [f |] eqn:Ho.
  - unfold methods, dispatch. cbn [v_emission]. rewrite Ho. reflexivity.
  - enter. rewrite H4, H2, H1. simp.
    destruct (flag_radtransf_ g); reflexivity.
Qed.

Lemma emission_vector_settled n nuem df :
  unset df 2 = false -> unset df 1 = false ->
  v_emission_vector (methods o g (S (S n))) nuem dsem cph co df
  = Ok (map em nuem, Z.lor df 4).
Proof.
  intros H2 H1. enter. rewrite H2, H1. simp.
  apply mapM_pure. intros nu. apply emission_settled; bits; auto.
Qed.

Lemma radiativeQ_settled n nuem df :
  unset df 1 = false ->
  v_radiativeQ (methods o g (S (S (S n)))) nuem dsem cph co df
  = Ok ((map em nuem, map tr nuem), Z.lor (Z.lor df 2) 4).
Proof.
  intros H1. enter. rewrite H1. simp.
  rewrite emission_vector_settled by (bits; auto).
  rewrite (mapM_pure _ tr _ nuem).
  - reflexivity.
  - intros nu. apply transmission_settled; bits; auto.
Qed.

Lemma radiativeQ_polar_scalar n nuem df :
  v_radiativeQ_polar (methods o g (S (S (S (S n))))) nuem dsem cph co df
  = Ok (unpolarized (List.length nuem) (map em nuem) (map tr nuem),
        Z.lor df 7).
Proof.
  enter.
  rewrite radiativeQ_settled by (bits; reflexivity).
  rewrite !lor_lor. reflexivity.
Qed.

Lemma radiativeQ_scalar n nuem df :
  exists df',
    v_radiativeQ (methods o g (S (S (S (S (S n)))))) nuem dsem cph co df
    = Ok ((map em nuem, map tr nuem), df') /\ settled df'.
Proof.
  destruct (unset df 1) eqn:H1.
  - exists (Z.lor (Z.lor df 2) 7). split; [| apply settled_lor_7].
    enter. rewrite H1. simp.
    rewrite (radiativeQ_polar_scalar n nuem (Z.lor df 2)).
    bits. rewrite (mapM_pure _ tr _ nuem).
    + reflexivity.
    + intros nu. apply transmission_settled; bits; auto.
  - exists (Z.lor (Z.lor df 2) 4). split.
    + apply (radiativeQ_settled (S (S n))). exact H1.
    + unfold settled. bits. auto.
Qed.

Lemma emission_vector_scalar n nuem df :
  exists df',
    v_emission_vector (methods o g (S (S (S (S (S (S n)))))))
                      nuem dsem cph co df
    = Ok (map em nuem, df') /\ settled df'.
Proof.
  enter.
  destruct (unset df 2) eqn:H2; [| destruct (unset df 1) eqn:H1]; simp.
  - destruct (radiativeQ_scalar n nuem (Z.lor df 4)) as (df' & E & Hs).
    exists df'. split; [| exact Hs].
    rewrite E. reflexivity.
  - exists (Z.lor (Z.lor df 4) 7). split; [| apply settled_lor_7].
    rewrite (radiativeQ_polar_scalar (S n) nuem (Z.lor df 4)). reflexivity.
  - exists (Z.lor df 4). split; [| unfold settled; bits; auto].
    apply mapM_pure. intros nu.
    apply emission_settled; bits; auto.
Qed.

Lemma emission_scalar n nu df :
  exists df',
    v_emission (methods o g (S (S (S (S (S (S (S n)))))))) nu dsem cph co df
    = Ok (scalar_emission o g nu dsem cph co, df').
Proof.
  destruct (o_emission o) as [f |] eqn:Ho.
  { exists df. unfold scalar_emission, methods, dispatch.
    cbn [v_emission]. rewrite Ho. reflexivity. }
  enter.
  destruct (unset df 4) eqn:H4;
    [| destruct (unset df 2 || unset df 1) eqn:H21]; simp.
  - destruct (emission_vector_scalar n [nu] df) as (df' & E & _).
    exists df'. rewrite E. reflexivity.
  - destruct (radiativeQ_scalar (S n) [nu] df) as (df' & E & _).
    exists df'. rewrite E. reflexivity.
  - exists df. unfold scalar_emission. rewrite Ho.
    destruct (flag_radtransf_ g); reflexivity.
Qed.

Lemma transmission_scalar n nu df :
  exists df',
    v_transmission (methods o g (S (S (S (S (S (S n))))))) nu dsem cph co df
    = Ok (scalar_transmission o g nu dsem cph co, df').
Proof.
  destruct (o_transmission o) as [f |] eqn:Ho.
  { exists df. unfold scalar_transmission, methods, dispatch.
    cbn [v_transmission]. rewrite Ho. reflexivity. }
  enter.
  destruct (unset df 2 || unset df 1) eqn:H21; simp.
  - destruct (radiativeQ_scalar n [nu] df) as (df' & E & _).
    exists df'. rewrite E. reflexivity.
  - exists df. unfold scalar_transmission. rewrite Ho. reflexivity.
Qed.

End ScalarLevel.

(** *** Objects that reimplement one array-level method only *)

Section VectorLevel.

Variable V : list D -> D -> state_t D -> list D -> list D.
Variable g : Generic D.
Variables (dsem : D) (cph : state_t D) (co : list D).

Local Abbreviation o := (only_vector V).
Local Abbreviation flag := (fun _ : D => of_bool (flag_radtransf_ g)).

Lemma vector_transmission_settled n nu df :
  unset df 2 = false -> unset df 1 = false ->
  v_transmission (methods o g (S n)) nu dsem cph co df
  = Ok (of_bool (flag_radtransf_ g), df).
Proof. intros H2 H1. enter. rewrite H2, H1. reflexivity. Qed.

Lemma vector_emission_vector n nuem df :
  v_emission_vector (methods o g n) nuem dsem cph co df
  = Ok (V nuem dsem cph co, df).
Proof. reflexivity. Qed.

Lemma vector_emission n nu df :
  unset df 4 = true ->
  v_emission (methods o g (S n)) nu dsem cph co df
  = Ok (at_ (V [nu] dsem cph co) 0, df).
Proof.
  intros H4. enter. rewrite H4, vector_emission_vector. reflexivity.
Qed.

Lemma vector_radiativeQ_settled n nuem df :
  unset df 1 = false ->
  v_radiativeQ (methods o g (S (S n))) nuem dsem cph co df
  = Ok ((V nuem dsem cph co, map flag nuem), Z.lor df 2).
Proof.
  intros H1. enter. rewrite H1, vector_emission_vector.
  rewrite (mapM_pure _ flag _ nuem).
  - reflexivity.
  - intros nu. apply vector_transmission_settled; bits; auto.
Qed.

Lemma vector_radiativeQ_polar n nuem df :
  v_radiativeQ_polar (methods o g (S (S (S n)))) nuem dsem cph co df
  = Ok (unpolarized (List.length nuem) (V nuem dsem cph co) (map flag nuem),
        Z.lor df 3).
Proof.
  enter. rewrite vector_radiativeQ_settled by (bits; reflexivity).
  rewrite lor_lor. reflexivity.
Qed.

Lemma vector_radiativeQ n nuem df :
  unset df 4 = true ->
  exists df',
    v_radiativeQ (methods o g (S (S (S (S n))))) nuem dsem cph co df
    = Ok ((V nuem dsem cph co, map flag nuem), df')
    /\ unset df' 4 = true.
Proof.
  intros H4. destruct (unset df 1) eqn:H1.
  - exists (Z.lor (Z.lor df 2) 3). split; [| bits; assumption].
    enter. rewrite H1, vector_radiativeQ_polar.
    bits. rewrite (mapM_pure _ flag _ nuem).
    + reflexivity.
    + intros nu. apply vector_transmission_settled; bits; auto.
  - exists (Z.lor df 2). split; [| bits; assumption].
    apply (vector_radiativeQ_settled (S (S n))). exact H1.
Qed.

Lemma vector_transmission n nu df :
  unset df 4 = true ->
  exists df',
    v_transmission (methods o g (S (S (S (S (S n)))))) nu dsem cph co df
    = Ok (of_bool (flag_radtransf_ g), df')
    /\ unset df' 4 = true.
Proof.
  intros H4. enter.
  destruct (unset df 2 || unset df 1) eqn:H21.
  - destruct (vector_radiativeQ n [nu] df H4) as (df' & E & H4').
    rewrite E. exists df'. split; auto.
  - exists df. split; auto.
Qed.

End VectorLevel.

Section UnpolarizedLevel.

Variable F : list D -> D -> state_t D -> list D -> list D * list D.
Variable g : Generic D.
Variables (dsem : D) (cph : state_t D) (co : list D).

Local Abbreviation o := (only_radiativeQ F).

Lemma unpolarized_radiativeQ n nuem df :
  v_radiativeQ (methods o g n) nuem dsem cph co df
  = Ok (F nuem dsem cph co, df).
Proof. reflexivity. Qed.

Lemma unpolarized_transmission n nu df :
  unset df 2 = true ->
  v_transmission (methods o g (S n)) nu dsem cph co df
  = Ok (at_ (snd (F [nu] dsem cph co)) 0, df).
Proof.
  intros H2. enter. rewrite H2. simp. rewrite unpolarized_radiativeQ.
  destruct (F [nu] dsem cph co). reflexivity.
Qed.

Lemma unpolarized_emission_vector n nuem df :
  unset df 2 = true ->
  v_emission_vector (methods o g (S n)) nuem dsem cph co df
  = Ok (fst (F nuem dsem cph co), Z.lor df 4).
Proof.
  intros H2. enter. rewrite H2. simp. rewrite unpolarized_radiativeQ.
  destruct (F nuem dsem cph co). reflexivity.
Qed.

Lemma unpolarized_emission n nu df :
  unset df 2 = true ->
  exists df',
    v_emission (methods o g (S (S n))) nu dsem cph co df
    = Ok (at_ (fst (F [nu] dsem cph co)) 0, df')
    /\ unset df' 2 = true.
Proof.
  intros H2. enter. rewrite H2. destruct (unset df 4) eqn:H4; simp.
  - rewrite unpolarized_emission_vector by assumption.
    exists (Z.lor df 4). split; [reflexivity | bits; assumption].
  - rewrite unpolarized_radiativeQ.
    exists df. split; [| assumption].
    destruct (F [nu] dsem cph co). reflexivity.
Qed.

Lemma unpolarized_radiativeQ_polar n nuem df :
  v_radiativeQ_polar (methods o g (S n)) nuem dsem cph co df
  = Ok (unpolarized (List.length nuem) (fst (F nuem dsem cph co))
                    (snd (F nuem dsem cph co)),
        Z.lor df 1).
Proof.
  enter. rewrite unpolarized_radiativeQ.
  destruct (F nuem dsem cph co). reflexivity.
Qed.

End UnpolarizedLevel.

Section PolarizedLevel.

Variable G : list D -> D -> state_t D -> list D -> Polar D.
Variable g : Generic D.
Variables (dsem : D) (cph : state_t D) (co : list D).

Local Abbreviation o := (only_radiativeQ_polar G).

Local Abbreviation Tau :=
  (fun nuem : list D =>
     transmission_of (p_alphaInu (G nuem dsem cph co)) (List.length nuem)).

Lemma polarized_radiativeQ_polar n nuem df :
  v_radiativeQ_polar (methods o g n) nuem dsem cph co df
  = Ok (G nuem dsem cph co, df).
Proof. reflexivity. Qed.

Lemma polarized_radiativeQ n nuem df :
  unset df 1 = true ->
  v_radiativeQ (methods o g (S n)) nuem dsem cph co df
  = Ok ((p_Inu (G nuem dsem cph co), Tau nuem), Z.lor df 2).
Proof.
  intros H1. enter. rewrite H1. simp. rewrite polarized_radiativeQ_polar.
  bits. rewrite H1. reflexivity.
Qed.

Lemma polarized_transmission n nu df :
  unset df 1 = true ->
  v_transmission (methods o g (S (S n))) nu dsem cph co df
  = Ok (at_ (Tau [nu]) 0, Z.lor df 2).
Proof.
  intros H1. enter. rewrite H1, orb_true_r. simp.
  rewrite polarized_radiativeQ by assumption. reflexivity.
Qed.

Lemma polarized_emission_vector n nuem df :
  unset df 1 = true ->
  exists df',
    v_emission_vector (methods o g (S (S n))) nuem dsem cph co df
    = Ok (p_Inu (G nuem dsem cph co), df')
    /\ unset df' 1 = true.
Proof.
  intros H1. enter. rewrite H1. destruct (unset df 2) eqn:H2; simp.
  - rewrite polarized_radiativeQ by (bits; assumption).
    exists (Z.lor (Z.lor df 4) 2). split; [reflexivity | bits; assumption].
  - rewrite polarized_radiativeQ_polar.
    exists (Z.lor df 4). split; [reflexivity | bits; assumption].
Qed.

Lemma polarized_emission n nu df :
  unset df 1 = true ->
  exists df',
    v_emission (methods o g (S (S (S n)))) nu dsem cph co df
    = Ok (at_ (p_Inu (G [nu] dsem cph co)) 0, df')
    /\ unset df' 1 = true.
Proof.
  intros H1. enter. rewrite H1, orb_true_r. destruct (unset df 4) eqn:H4; simp.
  - destruct (polarized_emission_vector n [nu] df H1) as (df' & E & H1').
    rewrite E. exists df'. split; auto.
  - rewrite polarized_radiativeQ by assumption.
    exists (Z.lor df 2). split; [reflexivity | bits; assumption].
Qed.

End PolarizedLevel.

(** *** The claims about the dispatcher *)

Lemma consistent_initial (o : Overrides D) : consistent o 0.
Proof.
  unfold consistent.
  destruct (o_emission_vector o), (o_radiativeQ o), (o_radiativeQ_polar o);
    repeat split.
Qed.

Lemma consistent_scalar (o : Overrides D) df :
  o_emission_vector o = None -> o_radiativeQ o = None ->
  o_radiativeQ_polar o = None -> consistent o df.
Proof. intros Hv Hq Hp. unfold consistent. rewrite Hv, Hq, Hp. auto. Qed.

Lemma consistent_vector (V : list D -> D -> state_t D -> list D -> list D)
    df :
  consistent (only_vector V) df <-> unset df 4 = true.
Proof. unfold consistent. cbn. tauto. Qed.

Lemma consistent_radiativeQ
    (F : list D -> D -> state_t D -> list D -> list D * list D) df :
  consistent (only_radiativeQ F) df <-> unset df 2 = true.
Proof. unfold consistent. cbn. tauto. Qed.

Lemma consistent_radiativeQ_polar
    (G : list D -> D -> state_t D -> list D -> Polar D) df :
  consistent (only_radiativeQ_polar G) df <-> unset df 1 = true.
Proof. unfold consistent. cbn. tauto. Qed.

(** C1.  An object that reimplements the scalar emission only: a call of
    the polarized [radiativeQ] returns as soon as calls may nest four deep,
    from every value of the bitmask, for all arguments; when it returns the
    three capability bits are set. *)
Theorem radiativeQ_polar_terminates
    (f : D -> D -> state_t D -> list D -> D) (g : Generic D) (k : nat)
    (nuem : list D) (dsem : D) (cph : state_t D) (co : list D) (df : Z) :
  exists q,
    v_radiativeQ_polar (methods (only_emission f) g (4 + k))
                       nuem dsem cph co df
    = Ok (q, Z.lor df 7)
    /\ settled (Z.lor df 7).
Proof.
  eexists. split.
  - apply (radiativeQ_polar_scalar (only_emission f) g); reflexivity.
  - apply settled_lor_7.
Qed.

(** C2.  An object that reimplements the scalar emission only: the
    polarized [radiativeQ] returns [Inu[i] = emission(nuem[i], dsem,
    coord_ph, coord_obj)] and [Qnu[i] = Unu[i] = Vnu[i] = 0] for every
    index [i] of [nuem]. *)
Theorem radiativeQ_polar_of_scalar_emission
    (f : D -> D -> state_t D -> list D -> D) (g : Generic D) (k : nat)
    (nuem : list D) (dsem : D) (cph : state_t D) (co : list D) (df : Z) :
  exists q df',
    v_radiativeQ_polar (methods (only_emission f) g (4 + k))
                       nuem dsem cph co df
    = Ok (q, df')
    /\ p_Inu q = map (fun nu => f nu dsem cph co) nuem
    /\ p_Qnu q = repeat d_0 (List.length nuem)
    /\ p_Unu q = repeat d_0 (List.length nuem)
    /\ p_Vnu q = repeat d_0 (List.length nuem).
Proof.
  eexists. eexists. split.
  - apply (radiativeQ_polar_scalar (only_emission f) g); reflexivity.
  - cbn [unpolarized p_Inu p_Qnu p_Unu p_Vnu].
    rewrite map_const, length_seq. auto.
Qed.

(** C3.  An object that reimplements nothing: the scalar emission returns
    [dsem] when the object is optically thin and [1.] otherwise, the scalar
    transmission returns [1.] when it is optically thin and [0.]
    otherwise, from every value of the bitmask. *)
Theorem default_emission_and_transmission
    (g : Generic D) (k : nat) (nu dsem : D) (cph : state_t D) (co : list D)
    (df : Z) :
  (exists df',
     v_emission (methods no_overrides g (7 + k)) nu dsem cph co df
     = Ok (if flag_radtransf_ g then dsem else d_1, df'))
  /\ (exists df',
        v_transmission (methods no_overrides g (7 + k)) nu dsem cph co df
        = Ok (if flag_radtransf_ g then d_1 else d_0, df')).
Proof.
  split.
  - destruct (emission_scalar no_overrides g eq_refl eq_refl eq_refl
                dsem cph co k nu df) as (df' & E).
    exists df'. exact E.
  - destruct (transmission_scalar no_overrides g eq_refl eq_refl eq_refl
                dsem cph co (S k) nu df) as (df' & E).
    exists df'. exact E.
Qed.

(** C9.  An object that reimplements exactly one level: each of the five
    methods gives one answer for given arguments, the same from every
    value the bitmask can have in such an object, and leaves the bitmask
    such a value; a repeated call therefore returns what the first
    returned. *)
Theorem capability_idempotence (o : Overrides D) (g : Generic D) (k : nat) :
  one_level o ->
  (forall nu dsem cph co,
     determined o (v_transmission (methods o g (7 + k)) nu dsem cph co))
  /\ (forall nu dsem cph co,
        determined o (v_emission (methods o g (7 + k)) nu dsem cph co))
  /\ (forall nuem dsem cph co,
        determined o
          (v_emission_vector (methods o g (7 + k)) nuem dsem cph co))
  /\ (forall nuem dsem cph co,
        determined o (v_radiativeQ (methods o g (7 + k)) nuem dsem cph co))
  /\ (forall nuem dsem cph co,
        determined o
          (v_radiativeQ_polar (methods o g (7 + k)) nuem dsem cph co)).
Proof.
  intros [o' Hv Hq Hp _ | V | F | G]; repeat split; intros;
    unfold determined; eexists; intros df Hc.
  - destruct (transmission_scalar o' g Hv Hq Hp dsem cph co (S k) nu df)
      as (df' & E).
    exists df'. split; [exact E | apply consistent_scalar; assumption].
  - destruct (emission_scalar o' g Hv Hq Hp dsem cph co k nu df)
      as (df' & E).
    exists df'. split; [exact E | apply consistent_scalar; assumption].
  - destruct (emission_vector_scalar o' g Hv Hq Hp dsem cph co (S k) nuem df)
      as (df' & E & _).
    exists df'. split; [exact E | apply consistent_scalar; assumption].
  - destruct (radiativeQ_scalar o' g Hv Hq Hp dsem cph co (S (S k)) nuem df)
      as (df' & E & _).
    exists df'. split; [exact E | apply consistent_scalar; assumption].
  - eexists. split.
    + apply (radiativeQ_polar_scalar o' g Hv Hq Hp dsem cph co
               (S (S (S k)))).
    + apply consistent_scalar; assumption.
  - apply consistent_vector in Hc.
    destruct (vector_transmission V g dsem cph co (S (S k)) nu df Hc)
      as (df' & E & H4).
    exists df'. split; [exact E | apply consistent_vector; exact H4].
  - apply consistent_vector in Hc. eexists. split.
    + apply (vector_emission V g dsem cph co (S (S (S (S (S (S k)))))));
        exact Hc.
    + apply consistent_vector; exact Hc.
  - eexists. split; [reflexivity | exact Hc].
  - apply consistent_vector in Hc.
    destruct (vector_radiativeQ V g dsem cph co (S (S (S k))) nuem df Hc)
      as (df' & E & H4).
    exists df'. split; [exact E | apply consistent_vector; exact H4].
  - apply consistent_vector in Hc. eexists. split.
    + apply (vector_radiativeQ_polar V g dsem cph co (S (S (S (S k))))).
    + apply consistent_vector. bits. exact Hc.
  - apply consistent_radiativeQ in Hc. eexists. split.
    + apply (unpolarized_transmission F g dsem cph co
               (S (S (S (S (S (S k))))))); exact Hc.
    + apply consistent_radiativeQ; exact Hc.
  - apply consistent_radiativeQ in Hc.
    destruct (unpolarized_emission F g dsem cph co (S (S (S (S (S k)))))
                nu df Hc) as (df' & E & H2).
    exists df'. split; [exact E | apply consistent_radiativeQ; exact H2].
  - apply consistent_radiativeQ in Hc. eexists. split.
    + apply (unpolarized_emission_vector F g dsem cph co
               (S (S (S (S (S (S k))))))); exact Hc.
    + apply consistent_radiativeQ. bits. exact Hc.
  - eexists. split; [reflexivity | exact Hc].
  - apply consistent_radiativeQ in Hc. eexists. split.
    + apply (unpolarized_radiativeQ_polar F g dsem cph co
               (S (S (S (S (S (S k))))))).
    + apply consistent_radiativeQ. bits. exact Hc.
  - apply consistent_radiativeQ_polar in Hc. eexists. split.
    + apply (polarized_transmission G g dsem cph co (S (S (S (S (S k))))));
        exact Hc.
    + apply consistent_radiativeQ_polar. bits. exact Hc.
  - apply consistent_radiativeQ_polar in Hc.
    destruct (polarized_emission G g dsem cph co (S (S (S (S k))))
                nu df Hc) as (df' & E & H1).
    exists df'. split; [exact E | apply consistent_radiativeQ_polar; exact H1].
  - apply consistent_radiativeQ_polar in Hc.
    destruct (polarized_emission_vector G g dsem cph co (S (S (S (S (S k)))))
                nuem df Hc) as (df' & E & H1).
    exists df'. split; [exact E | apply consistent_radiativeQ_polar; exact H1].
  - apply consistent_radiativeQ_polar in Hc. eexists. split.
    + apply (polarized_radiativeQ G g dsem cph co (S (S (S (S (S (S k)))))));
        exact Hc.
    + apply consistent_radiativeQ_polar. bits. exact Hc.
  - eexists. split; [reflexivity | exact Hc].
Qed.

End DispatchFacts.

(** ** Monotonicity of the capability bitmask *)

Lemma grows_ret {A} (a : A) : grows (ret a).
Proof. intros df r df' E. inversion E. apply extends_refl. Qed.

Lemma grows_bind {A B} (m : M A) (k : A -> M B) :
  grows m -> (forall a, grows (k a)) -> grows (bind m k).
Proof.
  intros Hm Hk df r df' E. unfold bind in E.
  destruct (m df) as [[a df1] | | |] eqn:E1; try discriminate.
  eapply extends_trans; [eapply Hm; eassumption | eapply Hk; eassumption].
Qed.

Lemma grows_features : grows features.
Proof. intros df r df' E. inversion E. apply extends_refl. Qed.

Lemma grows_set_features mask :
  Z.land mask 7 = mask -> grows (set_features mask).
Proof. intros Hm df r df' E. inversion E. exists mask. auto. Qed.

Lemma grows_out_of_fuel {A} : grows (@out_of_fuel Z A).
Proof. intros df r df' E. discriminate. Qed.

Lemma grows_mapM {A B} (f : A -> M B) l :
  (forall a, grows (f a)) -> grows (mapM f l).
Proof.
  intros Hf. induction l as [| a l IH]; cbn [mapM].
  - apply grows_ret.
  - apply grows_bind; [apply Hf |]. intros b.
    apply grows_bind; [apply IH |]. intros bs. apply grows_ret.
Qed.

Ltac grow :=
  repeat first
    [ apply grows_ret
    | apply grows_features
    | apply grows_set_features; reflexivity
    | apply grows_out_of_fuel
    | apply grows_mapM; intros
    | apply grows_bind; [| intros]
    | match goal with
      | |- grows (if ?b then _ else _) => destruct b
      | |- grows (let '(_, _) := ?x in _) => destruct x
      | |- grows (match ?x with _ => _ end) => destruct x
      | H : _ |- _ => solve [apply H]
      end ].

Section Monotone.

Context {D : Type} {DD : Double D}.

Lemma dispatch_grows (o : Overrides D) (base : vtable D) :
  vtable_grows base -> vtable_grows (dispatch o base).
Proof.
  intros (Ht & He & Hv & Hq & Hp). unfold vtable_grows, dispatch.
  cbn [v_transmission v_emission v_emission_vector v_radiativeQ
       v_radiativeQ_polar].
  repeat split; intros;
    match goal with
    | |- grows (match ?x with _ => _ end _ _ _ _) => destruct x
    end;
    grow.
Qed.

Lemma Generic_grows (self : vtable D) (g : Generic D) :
  vtable_grows self ->
  (forall nu dsem cph co, grows (Generic_transmission self g nu dsem cph co))
  /\ (forall nu dsem cph co, grows (Generic_emission self g nu dsem cph co))
  /\ (forall nuem dsem cph co,
        grows (Generic_emission_vector self nuem dsem cph co))
  /\ (forall nuem dsem cph co,
        grows (Generic_radiativeQ self nuem dsem cph co))
  /\ (forall nuem dsem cph co,
        grows (Generic_radiativeQ_polar self nuem dsem cph co)).
Proof.
  intros (Ht & He & Hv & Hq & Hp).
  repeat split; intros;
    unfold Generic_transmission, Generic_emission, Generic_emission_vector,
           Generic_radiativeQ, Generic_radiativeQ_polar; consts; grow.
Qed.

Lemma generic_grows (o : Overrides D) (g : Generic D) n :
  vtable_grows (generic o g n).
Proof.
  induction n as [| n IH]; cbn [generic].
  - unfold vtable_grows. cbn. repeat split; intros; grow.
  - apply Generic_grows. apply dispatch_grows. exact IH.
Qed.

Lemma methods_grows (o : Overrides D) (g : Generic D) n :
  vtable_grows (methods o g n).
Proof. apply dispatch_grows, generic_grows. Qed.

Lemma integrateEmission_for_grows (self : vtable D) dsem cph co fuel :
  vtable_grows self ->
  forall nu nu2 dnux2 Icur,
    grows (integrateEmission_for self dsem cph co fuel nu nu2 dnux2 Icur).
Proof.
  intros (_ & He & _). induction fuel as [| k IH]; intros;
    cbn [integrateEmission_for]; grow.
Qed.

Lemma integrateEmission_do_grows (self : vtable D) dsem cph co fuel :
  vtable_grows self ->
  forall nu1 nu2 dnux2 Icur,
    grows (integrateEmission_do self dsem cph co fuel nu1 nu2 dnux2 Icur).
Proof.
  intros Hs. induction fuel as [| k IH]; intros.
  - cbn [integrateEmission_do]. grow.
  - cbn [integrateEmission_do]. cbv zeta.
    apply grows_bind.
    + apply integrateEmission_for_grows. exact Hs.
    + intros. grow.
Qed.

Lemma integrateEmission_grows (self : vtable D) dsem cph co fuel nu1 nu2 :
  vtable_grows self ->
  grows (integrateEmission self dsem cph co fuel nu1 nu2).
Proof.
  intros Hs. unfold integrateEmission.
  destruct (dltb nu2 nu1);
    (apply grows_bind; [apply Hs |]; intros;
     apply grows_bind; [apply Hs |]; intros;
     apply integrateEmission_do_grows; exact Hs).
Qed.

Lemma integrateEmission_vector_grows (self : vtable D) dsem cph co fuel
    b c n :
  vtable_grows self ->
  grows (integrateEmission_vector self dsem cph co fuel b c n).
Proof.
  intros Hs. unfold integrateEmission_vector. apply grows_mapM. intros.
  apply integrateEmission_grows. exact Hs.
Qed.

Section AccumulatorFacts.

Context {Ph : Type} (P : PhotonClass D Ph).

Lemma growsH_ret {A} (a : A) : growsH (ret a : St (World D Ph) A).
Proof. intros w r w' E. inversion E. apply extends_refl. Qed.

Lemma growsH_bind {A B} (m : St (World D Ph) A)
    (k : A -> St (World D Ph) B) :
  growsH m -> (forall a, growsH (k a)) -> growsH (bind m k).
Proof.
  intros Hm Hk w r w' E. unfold bind in E.
  destruct (m w) as [[a w1] | | |] eqn:E1; try discriminate.
  eapply extends_trans; [eapply Hm; eassumption | eapply Hk; eassumption].
Qed.

Lemma growsH_call {A} (m : M A) :
  grows m -> growsH (call m : St (World D Ph) A).
Proof.
  intros Hm w r w' E. unfold call in E.
  destruct (m (w_features w)) as [[a df] | | |] eqn:E1; try discriminate.
  inversion E; subst. cbn [w_features]. eapply Hm. eassumption.
Qed.

Lemma growsH_photon : growsH (photon : St (World D Ph) Ph).
Proof. intros w r w' E. inversion E. apply extends_refl. Qed.

Lemma growsH_set_photon ph : growsH (set_photon ph : St (World D Ph) unit).
Proof. intros w r w' E. inversion E. apply extends_refl. Qed.

Lemma growsH_load a : growsH (load a : St (World D Ph) D).
Proof. intros w r w' E. inversion E. apply extends_refl. Qed.

Lemma growsH_write a v : growsH (write a v : St (World D Ph) unit).
Proof. intros w r w' E. inversion E. apply extends_refl. Qed.

Lemma growsH_write_list a l n :
  growsH (write_list a l n : St (World D Ph) unit).
Proof. intros w r w' E. inversion E. apply extends_refl. Qed.

Lemma growsH_throw {A} msg : growsH (@throw (World D Ph) A msg).
Proof. intros w r w' E. discriminate. Qed.

Lemma growsH_undefined {A} : growsH (@undefined (World D Ph) A).
Proof. intros w r w' E. discriminate. Qed.

Lemma growsH_forM {A} (l : list A) (f : A -> St (World D Ph) unit) :
  (forall a, growsH (f a)) -> growsH (forM l f).
Proof.
  intros Hf. induction l as [| a l IH]; cbn [forM].
  - apply growsH_ret.
  - apply growsH_bind; [apply Hf | intros; apply IH].
Qed.

Ltac growH :=
  repeat first
    [ apply growsH_ret
    | apply growsH_photon
    | apply growsH_set_photon
    | apply growsH_load
    | apply growsH_write
    | apply growsH_write_list
    | apply growsH_throw
    | apply growsH_undefined
    | apply growsH_forM; intros
    | apply growsH_bind; [| intros]
    | match goal with
      | |- growsH (if ?b then _ else _) => destruct b
      | |- growsH (let '(_, _) := ?x in _) => destruct x
      | |- growsH (match ?x with _ => _ end) => destruct x
      end ].

Lemma processHitQuantities_grows o g fuel coord_ph_hit coord_obj_hit dt data :
  growsH (processHitQuantities P o g fuel coord_ph_hit coord_obj_hit dt data).
Proof.
  pose proof (methods_grows o g fuel) as Hs.
  destruct Hs as (Ht & He & Hv & Hq & Hp).
  assert (Hi : forall dsem b c n,
             grows (integrateEmission_vector (methods o g fuel) dsem
                      coord_ph_hit coord_obj_hit fuel b c n)).
  { intros. apply integrateEmission_vector_grows. repeat split; assumption. }
  unfold processHitQuantities, phq_redshift, phq_time, phq_impactcoords,
         phq_intensity, phq_binspectrum, phq_spectrum, phq_transmit,
         deref, add_at.
  cbv zeta.
  growH; try (apply growsH_call; auto).
Qed.

End AccumulatorFacts.

(** C8.  Whatever the class of the object and the depth of the calls, a
    call of one of the five methods, of the band quadrature or of the
    accumulator that returns leaves [__defaultfeatures] equal to its old
    value or-ed with some of the three capability bits: bits are added,
    never cleared. *)
Theorem defaultfeatures_monotone (o : Overrides D) (g : Generic D)
    (fuel : nat) :
  (forall nu dsem cph co df r df',
     v_transmission (methods o g fuel) nu dsem cph co df = Ok (r, df') ->
     extends df df')
  /\ (forall nu dsem cph co df r df',
        v_emission (methods o g fuel) nu dsem cph co df = Ok (r, df') ->
        extends df df')
  /\ (forall nuem dsem cph co df r df',
        v_emission_vector (methods o g fuel) nuem dsem cph co df
        = Ok (r, df') ->
        extends df df')
  /\ (forall nuem dsem cph co df r df',
        v_radiativeQ (methods o g fuel) nuem dsem cph co df = Ok (r, df') ->
        extends df df')
  /\ (forall nuem dsem cph co df r df',
        v_radiativeQ_polar (methods o g fuel) nuem dsem cph co df
        = Ok (r, df') ->
        extends df df')
  /\ (forall dsem cph co nu1 nu2 df r df',
        integrateEmission (methods o g fuel) dsem cph co fuel nu1 nu2 df
        = Ok (r, df') ->
        extends df df')
  /\ (forall Ph (P : PhotonClass D Ph) cph co dt data w r w',
        processHitQuantities P o g fuel cph co dt data w = Ok (r, w') ->
        extends (w_features w) (w_features w')).
Proof.
  pose proof (methods_grows o g fuel) as Hs.
  destruct Hs as (Ht & He & Hv & Hq & Hp).
  repeat split; intros.
  - eapply Ht; eassumption.
  - eapply He; eassumption.
  - eapply Hv; eassumption.
  - eapply Hq; eassumption.
  - eapply Hp; eassumption.
  - eapply integrateEmission_grows; [| eassumption].
    repeat split; assumption.
  - eapply processHitQuantities_grows; eassumption.
Qed.

End Monotone.

(** ** The band quadrature *)

Lemma Qltb_true (a b : Q) : (a < b)%Q -> Qltb a b = true.
Proof.
  intros H. unfold Qltb. destruct (Qle_bool b a) eqn:E; [| reflexivity].
  apply Qle_bool_iff in E. exfalso. apply (Qlt_not_le _ _ H E).
Qed.

Lemma Qltb_false (a b : Q) : (b <= a)%Q -> Qltb a b = false.
Proof.
  intros H. unfold Qltb. apply Qle_bool_iff in H. rewrite H. reflexivity.
Qed.

Section ExactQuadrature.

Variables (qsqrt qexp qlog : Q -> Q) (qinf : Q).

#[local] Instance exact_arithmetic : Double Q :=
  Q_double qsqrt qexp qlog qinf.

Variables (g : Generic Q) (c dsem : Q) (cph : state_t Q) (co : list Q).
Variable m : nat.

Local Abbreviation self := (methods (only_emission (fun _ _ _ _ => c)) g m).

Lemma integrateEmission_do_constant (k : nat) (lo hi : Q) (df : Z) :
  (0 <= c)%Q -> (lo < hi)%Q ->
  exists r,
    integrateEmission_do self dsem cph co (2 + k) lo hi
      ((hi - lo) * 2)%Q ((c + c) * ((hi - lo) * 2) * (1 # 4))%Q df
    = Ok (r, df)
    /\ (r == c * (hi - lo))%Q.
Proof.
  intros Hc Hlt.
  cbn [Nat.add integrateEmission_do integrateEmission_for].
  cbn [dmul dadd dsub dltb fabs d_0p5 d_1em2 exact_arithmetic Q_double].
  cbn [v_emission methods dispatch only_emission o_emission].
  unfold bind at 1. unfold bind at 1.
  rewrite Qltb_true by lra. unfold ret at 1.
  rewrite Qltb_false by lra. unfold ret at 1.
  set (r := ((((c + c) * ((hi - lo) * 2) * (1 # 4)
              + c * ((hi - lo) * 2 * (1 # 2))) * (1 # 2)))%Q).
  assert (Er : (r == c * (hi - lo))%Q) by (unfold r; ring).
  assert (Hr : (0 <= r)%Q).
  { rewrite Er. apply Qmult_le_0_compat; lra. }
  rewrite Qltb_false.
  - exists r. split; [reflexivity | exact Er].
  - assert (E0 : (r - (c + c) * ((hi - lo) * 2) * (1 # 4) == 0)%Q)
      by (unfold r; ring).
    rewrite E0. cbn [Qabs Qnum Z.abs]. lra.
Qed.

Lemma integrateEmission_sorted (k : nat) (lo hi : Q) (df : Z) :
  (0 <= c)%Q -> (lo < hi)%Q ->
  exists r,
    integrateEmission self dsem cph co (2 + k) lo hi df = Ok (r, df)
    /\ integrateEmission self dsem cph co (2 + k) hi lo df = Ok (r, df)
    /\ (r == c * (hi - lo))%Q.
Proof.
  intros Hc Hlt.
  destruct (integrateEmission_do_constant k lo hi df Hc Hlt) as (r & E & Er).
  exists r. unfold integrateEmission.
  cbn [dltb dsub dmul dadd d_2 d_0p25 exact_arithmetic Q_double].
  rewrite (Qltb_false hi lo) by lra. rewrite (Qltb_true lo hi) by lra.
  cbn [v_emission methods dispatch only_emission o_emission].
  unfold bind at 1 3. unfold ret at 1 3. unfold bind at 1 2. unfold ret.
  auto.
Qed.

(** With a negative constant the loop test [fabs(Icur-Iprev) > 1e-2*Icur]
    compares a non-negative number with a negative one, and the loop is
    never left. *)
Lemma integrateEmission_for_negative fuel :
  (c < 0)%Q ->
  forall (nu nu2 dnux2 Icur : Q) (df : Z),
    (0 < dnux2)%Q -> (Icur < 0)%Q ->
    integrateEmission_for self dsem cph co fuel nu nu2 dnux2 Icur df
    = OutOfFuel
    \/ exists r,
         integrateEmission_for self dsem cph co fuel nu nu2 dnux2 Icur df
         = Ok (r, df) /\ (r < 0)%Q.
Proof.
  intros Hc. induction fuel as [| k IH]; intros nu nu2 dnux2 Icur df Hd HI.
  - left. reflexivity.
  - cbn [integrateEmission_for].
    cbn [dmul dadd dltb exact_arithmetic Q_double].
    destruct (Qltb nu nu2).
    + cbn [v_emission methods dispatch only_emission o_emission].
      unfold bind, ret. apply IH; [assumption |].
      assert (c * dnux2 < 0)%Q; [| lra].
      setoid_replace (c * dnux2)%Q with (- ((- c) * dnux2))%Q by ring.
      assert (0 < (- c) * dnux2)%Q by (apply Qmult_lt_0_compat; lra). lra.
    + right. exists Icur. split; [reflexivity | assumption].
Qed.

Lemma integrateEmission_do_negative fuel :
  (c < 0)%Q ->
  forall (nu1 nu2 dnux2 Icur : Q) (df : Z),
    (0 < dnux2)%Q -> (Icur < 0)%Q ->
    integrateEmission_do self dsem cph co fuel nu1 nu2 dnux2 Icur df
    = OutOfFuel.
Proof.
  intros Hc. induction fuel as [| k IH]; intros nu1 nu2 dnux2 Icur df Hd HI.
  - reflexivity.
  - cbn [integrateEmission_do]. cbv zeta.
    cbn [dmul dadd dsub dltb fabs d_0p5 d_1em2 exact_arithmetic Q_double].
    assert (Hd' : (0 < dnux2 * (1 # 2))%Q) by lra.
    destruct (integrateEmission_for_negative (S k) Hc
                (nu1 + (1 # 2) * (dnux2 * (1 # 2)))%Q nu2
                (dnux2 * (1 # 2))%Q Icur df Hd' HI)
      as [E | (r & E & Hr)];
      unfold bind; rewrite E; [reflexivity |].
    rewrite Qltb_true.
    + apply IH; lra.
    + pose proof (Qabs_nonneg (r * (1 # 2) - Icur)). lra.
Qed.


(** With a negative constant the quadrature never returns, whatever the
    fuel. *)
Lemma integrateEmission_negative_constant (fuel : nat) (nu1 nu2 : Q)
    (df : Z) :
  (c < 0)%Q -> ~ (nu1 == nu2)%Q ->
  integrateEmission self dsem cph co fuel nu1 nu2 df = OutOfFuel.
Proof.
  intros Hc Hne. unfold integrateEmission.
  cbn [dltb dsub dmul dadd d_2 d_0p25 exact_arithmetic Q_double].
  assert (Hneg : forall lo hi : Q, (lo < hi)%Q ->
             ((c + c) * ((hi - lo) * 2) * (1 # 4) < 0)%Q).
  { intros lo hi Hlt.
    setoid_replace ((c + c) * ((hi - lo) * 2) * (1 # 4))%Q
      with (- ((- c) * (hi - lo)))%Q by ring.
    assert (0 < (- c) * (hi - lo))%Q by (apply Qmult_lt_0_compat; lra).
    lra. }
  destruct (Q_dec nu1 nu2) as [[Hlt | Hgt] | Heq]; [| | contradiction].
  - rewrite (Qltb_false nu2 nu1) by lra.
    cbn [v_emission methods dispatch only_emission o_emission].
    unfold bind at 1. unfold ret at 1. unfold bind at 1. unfold ret at 1.
    apply integrateEmission_do_negative; [assumption | lra | auto].
  - rewrite (Qltb_true nu2 nu1) by lra.
    cbn [v_emission methods dispatch only_emission o_emission].
    unfold bind at 1. unfold ret at 1. unfold bind at 1. unfold ret at 1.
    apply integrateEmission_do_negative; [assumption | lra | auto].
Qed.

End ExactQuadrature.

(** ** The order of the bounds *)







Section RecordFacts.

Context {D : Type} {DD : Double D}.

(** ** The output record *)

Lemma advance_moved p k : moved p (advance p k) k.
Proof. destruct p; cbn; auto. Qed.

(** C10.  [operator+=] moves every non-null pointer of the record forward
    by [n] doubles, the impact-coordinates pointer by [16 * n] doubles, and
    leaves the null pointers null; [operator++] is [operator+=] with 1. *)
Theorem Properties_add_moves (d : Properties D) (n : Z) :
  let d' := Properties_add d n in
  moved (intensity d) (intensity d') n
  /\ moved (time d) (time d') n
  /\ moved (distance d) (distance d') n
  /\ moved (first_dmin d) (first_dmin d') n
  /\ moved (redshift d) (redshift d') n
  /\ moved (nbcrosseqplane d) (nbcrosseqplane d') n
  /\ moved (spectrum d) (spectrum d') n
  /\ moved (stokesQ d) (stokesQ d') n
  /\ moved (stokesU d) (stokesU d') n
  /\ moved (stokesV d) (stokesV d') n
  /\ moved (binspectrum d) (binspectrum d') n
  /\ moved (impactcoords d) (impactcoords d') (16 * n)
  /\ moved (user1 d) (user1 d') n
  /\ moved (user2 d) (user2 d') n
  /\ moved (user3 d) (user3 d') n
  /\ moved (user4 d) (user4 d') n
  /\ moved (user5 d) (user5 d') n
  /\ Properties_incr d = Properties_add d 1.
Proof.
  cbv zeta. cbn [Properties_add intensity time distance first_dmin redshift
                 nbcrosseqplane spectrum stokesQ stokesU stokesV binspectrum
                 impactcoords user1 user2 user3 user4 user5].
  repeat split; apply advance_moved.
Qed.

(** ** Impact coordinates *)

Lemma store_same (m : memory D) a v : store m a v a = v.
Proof. unfold store. rewrite Z.eqb_refl. reflexivity. Qed.

Lemma store_other (m : memory D) a v x : x <> a -> store m a v x = m x.
Proof.
  intros H. unfold store. apply Z.eqb_neq in H. rewrite H. reflexivity.
Qed.

Lemma fill_outside (f : nat -> D) p n : forall i0 (m : memory D) x,
  (x < p + Z.of_nat i0 \/ p + Z.of_nat i0 + Z.of_nat n <= x) ->
  fill m p 1 f i0 n x = m x.
Proof.
  induction n as [| n IH]; intros i0 m x Hx; cbn [fill].
  - reflexivity.
  - rewrite IH by lia. apply store_other. lia.
Qed.

Lemma fill_inside (f : nat -> D) p n : forall i0 (m : memory D) i,
  (i0 <= i < i0 + n)%nat ->
  fill m p 1 f i0 n (p + Z.of_nat i) = f i.
Proof.
  induction n as [| n IH]; intros i0 m i Hi; cbn [fill].
  - lia.
  - destruct (Nat.eq_dec i i0) as [-> | Hne].
    + rewrite fill_outside by lia.
      replace (p + Z.of_nat i0 * 1) with (p + Z.of_nat i0) by lia.
      apply store_same.
    + apply IH. lia.
Qed.

Section Impact.

Context {Ph : Type}.
Variables (data : Properties D) (p : Z).
Variables (coord_ph_hit : state_t D) (coord_obj_hit : list D).
Hypothesis Hslot : impactcoords data = Some p.

Lemma impactcoords_kept (w : World D Ph) :
  deqb (w_mem w p) DBL_MAX = false ->
  phq_impactcoords coord_ph_hit coord_obj_hit data w = Ok (tt, w).
Proof.
  intros Hs. unfold phq_impactcoords. rewrite Hslot.
  unfold bind, load. rewrite Hs. reflexivity.
Qed.

Lemma impactcoords_error (w : World D Ph) :
  deqb (w_mem w p) DBL_MAX = true ->
  (8 < List.length coord_ph_hit)%nat ->
  phq_impactcoords coord_ph_hit coord_obj_hit data w
  = Error "ImpactCoords is incompatible with parallel transport".
Proof.
  intros Hs Hn. unfold phq_impactcoords. rewrite Hslot.
  unfold bind, load. rewrite Hs.
  apply Nat.ltb_lt in Hn. rewrite Hn. reflexivity.
Qed.

Lemma impactcoords_snapshot (w : World D Ph) :
  deqb (w_mem w p) DBL_MAX = true ->
  (List.length coord_ph_hit <= 8)%nat ->
  exists w',
    phq_impactcoords coord_ph_hit coord_obj_hit data w = Ok (tt, w')
    /\ w_features w' = w_features w
    /\ w_ph w' = w_ph w
    /\ (forall i, (i < 8)%nat ->
          w_mem w' (p + Z.of_nat i) = at_ coord_obj_hit i
          /\ w_mem w' (p + 8 + Z.of_nat i) = at_ coord_ph_hit i)
    /\ (forall a, a < p \/ p + 16 <= a -> w_mem w' a = w_mem w a).
Proof.
  intros Hs Hn. unfold phq_impactcoords. rewrite Hslot.
  unfold bind at 1. unfold load at 1. rewrite Hs.
  apply Nat.ltb_ge in Hn. rewrite Hn.
  unfold bind, ret, write_list. cbn [w_features w_ph w_mem].
  eexists. split; [reflexivity |]. cbn [w_features w_ph w_mem].
  repeat split.
  - unfold memcpy. rewrite fill_outside by lia. apply fill_inside. lia.
  - unfold memcpy. apply fill_inside. lia.
  - intros a Ha. unfold memcpy. rewrite !fill_outside by lia. reflexivity.
Qed.


(** The whole accumulator reports the error, when the slots written before
    (redshift, time) are not the first double of the snapshot. *)
Lemma processHitQuantities_impactcoords_error (P : PhotonClass D Ph)
    (o : Overrides D) (g : Generic D) (gg : Metric D) (fuel : nat) (dt : D)
    (w : World D Ph) :
  gg_ g = Some gg ->
  redshift data <> Some p -> time data <> Some p ->
  deqb (w_mem w p) DBL_MAX = true ->
  (8 < List.length coord_ph_hit)%nat ->
  processHitQuantities P o g fuel coord_ph_hit coord_obj_hit dt (Some data) w
  = Error "ImpactCoords is incompatible with parallel transport".
Proof.
  intros Hg Hr Ht Hs Hn. unfold processHitQuantities.
  unfold bind at 1. unfold photon at 1. rewrite Hg.
  unfold bind at 1. unfold deref, ret at 1.
  unfold bind at 1.
  assert (E1 : exists w1,
             phq_redshift data
               (d_1 / (if noredshift_ g then d_1
                       else - ScalarProd gg coord_ph_hit
                                (skipn 4 coord_obj_hit)
                                (skipn 4 coord_ph_hit)))%D w
             = Ok (tt, w1) /\ w_mem w1 p = w_mem w p).
  { unfold phq_redshift. destruct (redshift data) as [a |].
    - eexists. split; [reflexivity |]. cbn [w_mem].
      apply store_other. congruence.
    - exists w. split; reflexivity. }
  destruct E1 as (w1 & E1 & M1). rewrite E1.
  unfold bind at 1.
  assert (E2 : exists w2,
             phq_time coord_ph_hit data w1 = Ok (tt, w2)
             /\ w_mem w2 p = w_mem w1 p).
  { unfold phq_time. destruct (time data) as [a |].
    - eexists. split; [reflexivity |]. cbn [w_mem].
      apply store_other. congruence.
    - exists w1. split; reflexivity. }
  destruct E2 as (w2 & E2 & M2). rewrite E2.
  unfold bind at 1.
  rewrite impactcoords_error; [reflexivity | | assumption].
  rewrite M2, M1. exact Hs.
Qed.

(** C5, as amended.  With the impact-coordinates slot requested at [p]:
    the block of the accumulator that fills it leaves the memory alone
    unless [p[0]] holds the sentinel [DBL_MAX]; with the sentinel and a
    photon state of at most 8 components it copies the 8 doubles of the
    object state to [p[0..7]] and the first 8 of the photon state to
    [p[8..15]]; with the sentinel and more than 8 components it reports an
    error, and so does the accumulator; a second hit writes nothing when
    the first double of the snapshot, [coord_obj_hit[0]], is not itself
    [DBL_MAX]. *)
Theorem impactcoords_written_once (w : World D Ph) :
  (deqb (w_mem w p) DBL_MAX = false ->
   phq_impactcoords coord_ph_hit coord_obj_hit data w = Ok (tt, w))
  /\ (deqb (w_mem w p) DBL_MAX = true ->
      (List.length coord_ph_hit <= 8)%nat ->
      exists w',
        phq_impactcoords coord_ph_hit coord_obj_hit data w = Ok (tt, w')
        /\ w_features w' = w_features w
        /\ w_ph w' = w_ph w
        /\ (forall i, (i < 8)%nat ->
              w_mem w' (p + Z.of_nat i) = at_ coord_obj_hit i
              /\ w_mem w' (p + 8 + Z.of_nat i) = at_ coord_ph_hit i)
        /\ (forall a, a < p \/ p + 16 <= a -> w_mem w' a = w_mem w a)
        /\ (deqb (at_ coord_obj_hit 0) DBL_MAX = false ->
            forall coord_ph2 coord_obj2,
              phq_impactcoords coord_ph2 coord_obj2 data w' = Ok (tt, w')))
  /\ (deqb (w_mem w p) DBL_MAX = true ->
      (8 < List.length coord_ph_hit)%nat ->
      phq_impactcoords coord_ph_hit coord_obj_hit data w
      = Error "ImpactCoords is incompatible with parallel transport"
      /\ forall (P : PhotonClass D Ph) o g gg fuel dt,
           gg_ g = Some gg ->
           redshift data <> Some p -> time data <> Some p ->
           processHitQuantities P o g fuel coord_ph_hit coord_obj_hit dt
                                (Some data) w
           = Error "ImpactCoords is incompatible with parallel transport").
Proof.
  split; [| split].
  - apply impactcoords_kept.
  - intros Hs Hn.
    destruct (impactcoords_snapshot w Hs Hn) as (w' & E & Hf & Hph & Hm & Ho).
    exists w'. repeat split; try assumption; try (apply Hm; assumption).
    intros Hfirst coord_ph2 coord_obj2.
    unfold phq_impactcoords. rewrite Hslot. unfold bind, load.
    destruct (Hm 0%nat) as (H0 & _); [lia |].
    cbn [Z.of_nat] in H0. rewrite Z.add_0_r in H0.
    rewrite H0, Hfirst. reflexivity.
  - intros Hs Hn. split.
    + apply impactcoords_error; assumption.
    + intros. eapply processHitQuantities_impactcoords_error; eassumption.
Qed.

End Impact.

End RecordFacts.

(** ** The step-size policy *)

(** C7.  With a metric of spherical kind [rr] is [coord[1]], with one of
    Cartesian kind it is the Euclidean norm of [coord[1..3]]; [deltaMax]
    returns [deltaMaxInsideRMax] when [rr < rMax] and [rr * 0.5] otherwise.
    On binary64 numbers, with [rMax = 10] and [deltaMaxInsideRMax = 0.5],
    it returns [0.5] at radius 5 and [10] at radius 20. *)
Theorem deltaMax_policy :
  (forall (D : Type) (DD : Double D)
          (sp : list D -> list D -> list D -> D) (rmax delta : D)
          (thin noredshift shadow : bool) (t x1 x2 x3 v0 v1 v2 v3 : D),
     let coord := [t; x1; x2; x3; v0; v1; v2; v3] in
     let object kind :=
       {| gg_ := Some {| coordKind := kind; ScalarProd := sp |};
          rmax_ := rmax; deltamaxinsidermax_ := delta;
          flag_radtransf_ := thin; noredshift_ := noredshift;
          shadow_ := shadow |} in
     deltaMax (object GYOTO_COORDKIND_SPHERICAL) coord
     = Ok (if dltb x1 rmax then delta else dmul x1 d_0p5)
     /\ deltaMax (object GYOTO_COORDKIND_CARTESIAN) coord
        = Ok (let rr := sqrt (dadd (dadd (dmul x1 x1) (dmul x2 x2))
                                   (dmul x3 x3)) in
              if dltb rr rmax then delta else dmul rr d_0p5))
  /\ (forall (fexp flog : float -> float)
             (sp : list float -> list float -> list float -> float)
             (thin noredshift shadow : bool) (t x2 x3 v0 v1 v2 v3 : float),
        let object :=
          {| gg_ := Some {| coordKind := GYOTO_COORDKIND_SPHERICAL;
                            ScalarProd := sp |};
             rmax_ := 10%float; deltamaxinsidermax_ := 0.5%float;
             flag_radtransf_ := thin; noredshift_ := noredshift;
             shadow_ := shadow |} in
        deltaMax (DD := float_double fexp flog) object
                 [t; 5%float; x2; x3; v0; v1; v2; v3]
        = Ok 0.5%float
        /\ deltaMax (DD := float_double fexp flog) object
                    [t; 20%float; x2; x3; v0; v1; v2; v3]
           = Ok 10%float).
Proof.
  split.
  - intros. split; reflexivity.
  - intros. split; reflexivity.
Qed.

(** Without a metric, or with a metric of another coordinate kind, the
    policy reports an error. *)
Lemma deltaMax_errors {D : Type} {DD : Double D} (g : Generic D)
    (gg : Metric D) (coord : list D) :
  (gg_ g = None ->
   deltaMax g coord
   = Error "Please set metric before calling Astrobj::Generic::deltaMax()")
  /\ (gg_ g = Some gg -> coordKind gg = GYOTO_COORDKIND_UNSPECIFIED ->
      deltaMax g coord = Error "Incompatible coordinate kind in Astrobj.C").
Proof.
  split.
  - intros E. unfold deltaMax. rewrite E. reflexivity.
  - intros E K. unfold deltaMax. rewrite E, K. reflexivity.
Qed.

(** ** The update of the photon's transmission *)

Section FinalTransmission.

Context {D : Type} {DD : Double D} {Ph : Type}.
Variable P : PhotonClass D Ph.
Variables (o : Overrides D) (g : Generic D) (fuel : nat).
Variables (coord_ph_hit : state_t D) (coord_obj_hit : list D) (dt : D).

(** With no output record the accumulator returns without a call of
    [transmit]: the photon is as it was. *)
Lemma processHitQuantities_no_data (gg : Metric D) (w : World D Ph) :
  gg_ g = Some gg ->
  processHitQuantities P o g fuel coord_ph_hit coord_obj_hit dt None w
  = Ok (tt, w).
Proof.
  intros Hg. unfold processHitQuantities, bind, photon, deref.
  rewrite Hg. reflexivity.
Qed.

(** C6, as amended.  When the accumulator is given an output record and
    returns normally, its last action is the call of the scalar
    transmission at [freqObs * ggredm1] and the call of [transmit] with
    [size_t(-1)] and the value obtained, whatever slots were requested. *)
Theorem final_transmission_update (data : Properties D) (w w' : World D Ph) :
  processHitQuantities P o g fuel coord_ph_hit coord_obj_hit dt (Some data) w
  = Ok (tt, w') ->
  exists gg w1 t df',
    gg_ g = Some gg
    /\ v_transmission (methods o g fuel)
         (dmul (freqObs P (w_ph w))
               (hit_ggredm1 g gg coord_ph_hit coord_obj_hit))
         (hit_dsem g gg coord_ph_hit coord_obj_hit dt)
         coord_ph_hit coord_obj_hit (w_features w1)
       = Ok (t, df')
    /\ w' = {| w_features := df';
               w_ph := transmit P (w_ph w1) SIZE_MAX t;
               w_mem := w_mem w1 |}.
Proof.
  intros H. unfold processHitQuantities in H.
  apply bind_inv in H. destruct H as (ph & w0 & E0 & H).
  unfold photon in E0. inversion E0; subst ph w0. clear E0.
  cbv zeta in H.
  apply bind_inv in H. destruct H as (gg & w0 & Eg & H).
  destruct (gg_ g) as [gg' |] eqn:Hg; [| discriminate].
  cbn [deref] in Eg. unfold ret in Eg. inversion Eg; subst gg' w0. clear Eg.
  do 6 (apply bind_inv in H; destruct H as (? & ? & _ & H)).
  unfold phq_transmit in H.
  apply bind_inv in H. destruct H as (t & w7 & Et & H).
  unfold call in Et.
  match type of Et with
  | match ?m with _ => _ end = _ =>
      destruct m as [[t' df'] | | |] eqn:Em; try discriminate
  end.
  inversion Et; subst t' w7. clear Et.
  unfold bind, photon, set_photon in H. cbn [w_ph w_mem w_features] in H.
  inversion H. subst w'.
  exists gg. eexists. exists t, df'.
  split; [reflexivity |]. split; [exact Em | reflexivity].
Qed.

End FinalTransmission.

(** ** Runs on binary64 numbers *)

(** C6, as stated, fails when the accumulator is called without an output
    record ([data == NULL], the branch [NO data requested!]): the call
    returns normally and [transmit] has not been called. *)
Lemma processHitQuantities_null_record :
  processHitQuantities (DD := binary64) recording_photon no_overrides
    thin_object 8 hit_coord hit_coord 1%float None blank_world
  = Ok (tt, blank_world)
  /\ w_ph blank_world = [].
Proof. split; reflexivity. Qed.

Lemma final_transmission_update_witness :
  exists w',
    processHitQuantities (DD := binary64) recording_photon no_overrides
      thin_object 8 hit_coord hit_coord 1%float
      (Some intensity_only) blank_world
    = Ok (tt, w')
    /\ w_ph w' = [(SIZE_MAX, 1%float)]
    /\ w_mem w' 0 = 1%float
    /\ exists gg w1 t df',
         gg_ thin_object = Some gg
         /\ v_transmission (methods (DD := binary64) no_overrides
                                    thin_object 8)
              (1 * hit_ggredm1 (DD := binary64) thin_object gg
                     hit_coord hit_coord)%float
              (hit_dsem (DD := binary64) thin_object gg
                        hit_coord hit_coord 1%float)
              hit_coord hit_coord (w_features w1)
            = Ok (t, df')
         /\ w' = {| w_features := df';
                    w_ph := transmit recording_photon (w_ph w1) SIZE_MAX t;
                    w_mem := w_mem w1 |}.
Proof.
  exists (match
             processHitQuantities (DD := binary64) recording_photon
               no_overrides thin_object 8 hit_coord hit_coord 1%float
               (Some intensity_only) blank_world
           with
           | Ok (_, w) => w
           | _ => blank_world
           end).
  split; [vm_compute; reflexivity |].
  split; [vm_compute; reflexivity |].
  split; [vm_compute; reflexivity |].
  apply (final_transmission_update (DD := binary64) recording_photon
           no_overrides thin_object 8 hit_coord hit_coord 1%float
           intensity_only blank_world).
  vm_compute. reflexivity.
Defined.

Lemma impactcoords_written_once_witness :
  let w0 : World float (list (Z * float)) :=
    {| w_features := 0; w_ph := [];
       w_mem := snd (Properties_init (DD := binary64) impact_only 0
                                     (fun _ => 0%float)) |} in
  impactcoords impact_only = Some 0
  /\ PrimFloat.eqb (w_mem w0 0) 0x1.fffffffffffffp+1023 = true
  /\ exists w',
       phq_impactcoords (DD := binary64)
         hit_coord [7; 6; 1; 0; 1; 0; 0; 0]%float
         impact_only w0
       = Ok (tt, w')
       /\ w_mem w' 0 = 7%float
       /\ w_mem w' 9 = 5%float
       /\ phq_impactcoords (DD := binary64)
            [9; 9; 9; 9; 9; 9; 9; 9]%float [8; 8; 8; 8; 8; 8; 8; 8]%float
            impact_only w'
          = Ok (tt, w').
Proof.
  cbv zeta. split; [reflexivity |]. split; [reflexivity |].
  destruct (impactcoords_written_once (DD := binary64) impact_only 0
              hit_coord [7; 6; 1; 0; 1; 0; 0; 0]%float
              eq_refl
              {| w_features := 0; w_ph := ([] : list (Z * float));
                 w_mem := snd (Properties_init (DD := binary64) impact_only 0
                                               (fun _ => 0%float)) |})
    as (_ & Hwrite & _).
  destruct Hwrite as (w' & E & _ & _ & Hm & _ & Hsecond);
    [reflexivity | cbn; lia |].
  exists w'. split; [exact E |].
  split; [exact (proj1 (Hm 0%nat ltac:(lia))) |].
  split; [exact (proj2 (Hm 1%nat ltac:(lia))) |].
  apply Hsecond. reflexivity.
Defined.

(** C5, as stated, fails when the first double of the snapshot is itself
    the sentinel: on binary64 numbers, a first hit whose object state
    starts with [DBL_MAX] (at [r = 6]) leaves [p[0] = DBL_MAX], and a
    second hit on the same record (at [r = 8]) overwrites the snapshot. *)
Lemma impactcoords_overwritten_by_second_hit :
  let w0 : World float (list (Z * float)) :=
    {| w_features := 0; w_ph := [];
       w_mem := snd (Properties_init (DD := binary64) impact_only 0
                                     (fun _ => 0%float)) |} in
  exists w1 w2,
    processHitQuantities (DD := binary64) recording_photon no_overrides
      thin_object 8 hit_coord
      [0x1.fffffffffffffp+1023; 6; 1; 0; 1; 0; 0; 0]%float 1%float
      (Some impact_only) w0
    = Ok (tt, w1)
    /\ w_mem w1 0 = 0x1.fffffffffffffp+1023%float
    /\ w_mem w1 1 = 6%float
    /\ w_mem w1 9 = 5%float
    /\ processHitQuantities (DD := binary64) recording_photon no_overrides
         thin_object 8 [9; 9; 9; 9; 9; 9; 9; 9]%float
         [7; 8; 1; 0; 1; 0; 0; 0]%float 1%float
         (Some impact_only) w1
       = Ok (tt, w2)
    /\ w_mem w2 0 = 7%float
    /\ w_mem w2 1 = 8%float
    /\ w_mem w2 9 = 9%float.
Proof.
  cbv zeta.
  set (w0 := {| w_features := 0; w_ph := ([] : list (Z * float));
                w_mem := snd (Properties_init (DD := binary64) impact_only 0
                                              (fun _ => 0%float)) |}).
  set (r1 := processHitQuantities (DD := binary64) recording_photon
               no_overrides thin_object 8 hit_coord
               [0x1.fffffffffffffp+1023; 6; 1; 0; 1; 0; 0; 0]%float 1%float
               (Some impact_only) w0).
  set (w1 := match r1 with Ok (_, w) => w | _ => w0 end).
  set (r2 := processHitQuantities (DD := binary64) recording_photon
               no_overrides thin_object 8 [9; 9; 9; 9; 9; 9; 9; 9]%float
               [7; 8; 1; 0; 1; 0; 0; 0]%float 1%float
               (Some impact_only) w1).
  exists w1, (match r2 with Ok (_, w) => w | _ => w0 end).
  repeat split; vm_compute; reflexivity.
Qed.

Lemma defaultfeatures_monotone_witness :
  v_radiativeQ_polar (methods (DD := binary64) no_overrides thin_object 4)
    [1%float] 1%float [] [] 0
  = Ok (unpolarized (DD := binary64) 1 [1%float] [1%float], 7)
  /\ extends 0 7.
Proof.
  split; [reflexivity |].
  exact (proj1 (proj2 (proj2 (proj2 (proj2
           (defaultfeatures_monotone (DD := binary64) no_overrides
              thin_object 4)))))
         [1%float] 1%float [] [] 0
         (unpolarized (DD := binary64) 1 [1%float] [1%float]) 7 eq_refl).
Defined.

Lemma capability_idempotence_witness :
  one_level (only_emission (fun nu dsem _ _ => (nu * dsem)%float))
  /\ determined (only_emission (fun nu dsem _ _ => (nu * dsem)%float))
       (v_radiativeQ
          (methods (DD := binary64)
             (only_emission (fun nu dsem _ _ => (nu * dsem)%float))
             thin_object 7)
          [1; 2]%float 3%float [] []).
Proof.
  assert (H : one_level
                (only_emission (fun nu dsem (_ : state_t float)
                                    (_ : list float) => (nu * dsem)%float))).
  { apply level_scalar; try reflexivity. left. discriminate. }
  split; [exact H |].
  exact (proj1 (proj2 (proj2 (proj2
           (capability_idempotence (DD := binary64) _ thin_object 0 H))))
         [1; 2]%float 3%float [] []).
Defined.

(** * Further properties *)

Import Ascii.

(** * The dispatcher, for every class *)

(** A loop whose calls return and leave the state alone returns and leaves
    the state alone. *)
Lemma mapM_returns {S A B} (f : A -> St S B) (s : S) (l : list A) :
  (forall a, exists b, f a s = Ok (b, s)) ->
  exists bs, mapM f l s = Ok (bs, s).
Proof.
  intros Hf. induction l as [| a l IH]; cbn [mapM].
  - exists []. reflexivity.
  - destruct (Hf a) as (b & Eb). destruct IH as (bs & Ebs).
    exists (b :: bs). rewrite (bind_Ok _ Eb), (bind_Ok _ Ebs). reflexivity.
Qed.

Section EveryClass.

Context {D : Type} {DD : Double D}.
Variables (o : Overrides D) (g : Generic D).
Variables (dsem : D) (cph : state_t D) (co : list D).

Ltac start :=
  unfold returns;
  first
    [ rewrite call_transmission by assumption
    | rewrite call_emission by assumption
    | rewrite call_emission_vector by assumption
    | rewrite call_radiativeQ by assumption
    | rewrite call_radiativeQ_polar by assumption ];
  unfold Generic_transmission, Generic_emission, Generic_emission_vector,
         Generic_radiativeQ, Generic_radiativeQ_polar,
         bind, set_features, features, ret;
  bits.

Ltac reduce := cbn [orb andb negb]; cbv beta iota.

(** A reimplemented method returns at once. *)
Ltac user Ho :=
  unfold methods, dispatch;
  cbn [v_transmission v_emission v_emission_vector v_radiativeQ
       v_radiativeQ_polar];
  rewrite Ho; unfold ret, returns; eauto.

Lemma any_transmission_settled n nu df :
  unset df 2 = false -> unset df 1 = false ->
  exists r, v_transmission (methods o g (S n)) nu dsem cph co df = Ok (r, df).
Proof.
  intros H2 H1. destruct (o_transmission o) as [f |] eqn:Ho.
  { unfold methods, dispatch. cbn [v_transmission]. rewrite Ho.
    unfold ret. eauto. }
  start. rewrite H2, H1. reduce. eauto.
Qed.

Lemma any_emission_settled n nu df :
  unset df 4 = false -> unset df 2 = false -> unset df 1 = false ->
  exists r, v_emission (methods o g (S n)) nu dsem cph co df = Ok (r, df).
Proof.
  intros H4 H2 H1. destruct (o_emission o) as [f |] eqn:Ho.
  { unfold methods, dispatch. cbn [v_emission]. rewrite Ho.
    unfold ret. eauto. }
  start. rewrite H4, H2, H1. reduce.
  destruct (flag_radtransf_ g); eauto.
Qed.

Lemma any_emission_vector_settled n nuem df :
  unset df 2 = false -> unset df 1 = false ->
  returns (v_emission_vector (methods o g (S (S n))) nuem dsem cph co) df.
Proof.
  intros H2 H1. destruct (o_emission_vector o) as [f |] eqn:Ho; [user Ho |].
  start. rewrite H2, H1. reduce.
  destruct (mapM_returns
              (fun nu => v_emission (methods o g (S n)) nu dsem cph co)
              (Z.lor df 4) nuem) as (bs & E).
  { intros nu. apply any_emission_settled; bits; auto. }
  exists bs, (Z.lor df 4). exact E.
Qed.

(** The loop over [transmission] of the default [radiativeQ], in a state
    [s] reached from one where bit 2 is set, with bit 1 set. *)
Lemma any_transmissions n nuem s :
  unset s 2 = false -> unset s 1 = false ->
  exists bs,
    mapM (fun nu => v_transmission (methods o g (S n)) nu dsem cph co) nuem s
    = Ok (bs, s).
Proof.
  intros H2 H1. apply mapM_returns. intros nu.
  apply any_transmission_settled; assumption.
Qed.

Lemma any_radiativeQ_settled n nuem df :
  unset df 1 = false ->
  returns (v_radiativeQ (methods o g (S (S (S n)))) nuem dsem cph co) df.
Proof.
  intros H1. destruct (o_radiativeQ o) as [f |] eqn:Ho; [user Ho |].
  start. rewrite H1. reduce.
  destruct (any_emission_vector_settled n nuem (Z.lor df 2))
    as (Inu & s & E); [bits; auto | bits; auto |].
  rewrite E.
  assert (Hs : extends (Z.lor df 2) s).
  { destruct (methods_grows o g (S (S n))) as (_ & _ & Hv & _).
    eapply Hv. exact E. }
  destruct (any_transmissions (S n) nuem s) as (Taunu & ET).
  { eapply extends_keeps; [exact Hs | bits; auto]. }
  { eapply extends_keeps; [exact Hs | bits; auto]. }
  rewrite ET. eexists. eexists. reflexivity.
Qed.

Lemma any_radiativeQ_polar n nuem df :
  returns (v_radiativeQ_polar (methods o g (S (S (S (S n)))))
                              nuem dsem cph co) df.
Proof.
  destruct (o_radiativeQ_polar o) as [f |] eqn:Ho; [user Ho |].
  start.
  destruct (any_radiativeQ_settled n nuem (Z.lor df 1))
    as ([Inu Taunu] & s & E); [bits; auto |].
  rewrite E. eexists. eexists. reflexivity.
Qed.

Lemma any_radiativeQ n nuem df :
  returns (v_radiativeQ (methods o g (S (S (S (S (S n))))))
                        nuem dsem cph co) df.
Proof.
  destruct (unset df 1) eqn:H1;
    [| apply (any_radiativeQ_settled (S (S n))); exact H1].
  destruct (o_radiativeQ o) as [f |] eqn:Ho; [user Ho |].
  start. rewrite H1. reduce.
  destruct (any_radiativeQ_polar n nuem (Z.lor df 2)) as (p & s & E).
  rewrite E.
  assert (Hs : extends (Z.lor df 2) s).
  { destruct (methods_grows o g (S (S (S (S n))))) as (_ & _ & _ & _ & Hp).
    eapply Hp. exact E. }
  destruct (unset s 1) eqn:Hs1.
  - eexists. eexists. reflexivity.
  - destruct (any_transmissions (S (S (S n))) nuem s) as (Taunu & ET).
    { eapply extends_keeps; [exact Hs | bits; auto]. }
    { exact Hs1. }
    rewrite ET. eexists. eexists. reflexivity.
Qed.

Lemma any_emission_vector n nuem df :
  returns (v_emission_vector (methods o g (S (S (S (S (S (S n)))))))
                             nuem dsem cph co) df.
Proof.
  destruct (o_emission_vector o) as [f |] eqn:Ho; [user Ho |].
  start.
  destruct (unset df 2) eqn:H2; [| destruct (unset df 1) eqn:H1]; reduce.
  - destruct (any_radiativeQ n nuem (Z.lor df 4)) as ([Inu Taunu] & s & E).
    rewrite E. eexists. eexists. reflexivity.
  - destruct (any_radiativeQ_polar (S n) nuem (Z.lor df 4)) as (p & s & E).
    rewrite E. eexists. eexists. reflexivity.
  - destruct (mapM_returns
                (fun nu => v_emission (methods o g (S (S (S (S (S n))))))
                                      nu dsem cph co)
                (Z.lor df 4) nuem) as (bs & E).
    { intros nu. apply any_emission_settled; bits; auto. }
    exists bs, (Z.lor df 4). exact E.
Qed.

Lemma any_emission n nu df :
  returns (v_emission (methods o g (S (S (S (S (S (S (S n))))))))
                      nu dsem cph co) df.
Proof.
  destruct (o_emission o) as [f |] eqn:Ho; [user Ho |].
  start.
  destruct (unset df 4) eqn:H4;
    [| destruct (unset df 2 || unset df 1) eqn:H21]; reduce.
  - destruct (any_emission_vector n [nu] df) as (Inu & s & E).
    rewrite E. eexists. eexists. reflexivity.
  - destruct (any_radiativeQ (S n) [nu] df) as ([Inu Taunu] & s & E).
    rewrite E. eexists. eexists. reflexivity.
  - destruct (flag_radtransf_ g); eexists; eexists; reflexivity.
Qed.

Lemma any_transmission n nu df :
  returns (v_transmission (methods o g (S (S (S (S (S (S n)))))))
                          nu dsem cph co) df.
Proof.
  destruct (o_transmission o) as [f |] eqn:Ho; [user Ho |].
  start.
  destruct (unset df 2 || unset df 1) eqn:H21; reduce.
  - destruct (any_radiativeQ n [nu] df) as ([Inu Taunu] & s & E).
    rewrite E. eexists. eexists. reflexivity.
  - eexists. eexists. reflexivity.
Qed.

End EveryClass.

(** X1.  Whatever methods the class reimplements, from every value of the
    bitmask and for all arguments, each of the five methods returns as soon
    as calls may nest seven deep: the default methods never recurse
    forever and never report an error. *)
Theorem dispatch_returns {D : Type} {DD : Double D} (o : Overrides D)
    (g : Generic D) (k : nat) (dsem : D) (cph : state_t D) (co : list D)
    (df : Z) :
  (forall nu,
     returns (v_transmission (methods o g (7 + k)) nu dsem cph co) df)
  /\ (forall nu,
        returns (v_emission (methods o g (7 + k)) nu dsem cph co) df)
  /\ (forall nuem,
        returns (v_emission_vector (methods o g (7 + k)) nuem dsem cph co) df)
  /\ (forall nuem,
        returns (v_radiativeQ (methods o g (7 + k)) nuem dsem cph co) df)
  /\ (forall nuem,
        returns (v_radiativeQ_polar (methods o g (7 + k)) nuem dsem cph co)
                df).
Proof.
  repeat split; intros.
  - apply (any_transmission o g dsem cph co (S k)).
  - apply (any_emission o g dsem cph co k).
  - apply (any_emission_vector o g dsem cph co (S k)).
  - apply (any_radiativeQ o g dsem cph co (S (S k))).
  - apply (any_radiativeQ_polar o g dsem cph co (S (S (S k)))).
Qed.

(** * The bits tell the truth *)

Section Soundness.

Context {D : Type} {DD : Double D}.
Variable o : Overrides D.

Lemma keeps_ret {A} (a : A) : keeps o (ret a).
Proof. intros df r df' Hc E. inversion E; subst. exact Hc. Qed.

Lemma keeps_bind {A B} (m : M A) (k : A -> M B) :
  keeps o m -> (forall a, keeps o (k a)) -> keeps o (bind m k).
Proof.
  intros Hm Hk df r df' Hc E. unfold bind in E.
  destruct (m df) as [[a df1] | | |] eqn:E1; try discriminate.
  eapply Hk; [eapply Hm; eassumption | eassumption].
Qed.

Lemma keeps_features : keeps o features.
Proof. intros df r df' Hc E. inversion E; subst. exact Hc. Qed.

Lemma keeps_out_of_fuel {A} : keeps o (@out_of_fuel Z A).
Proof. intros df r df' Hc E. discriminate. Qed.

Lemma keeps_mapM {A B} (f : A -> M B) l :
  (forall a, keeps o (f a)) -> keeps o (mapM f l).
Proof.
  intros Hf. induction l as [| a l IH]; cbn [mapM].
  - apply keeps_ret.
  - apply keeps_bind; [apply Hf |]. intros b.
    apply keeps_bind; [apply IH |]. intros bs. apply keeps_ret.
Qed.

(** The default body of a method sets the bit of that method, which the
    class does not reimplement. *)
Lemma keeps_set_emission_vector :
  o_emission_vector o = None ->
  keeps o (set_features __default_emission_vector).
Proof.
  intros Ho df r df' (Hv & Hq & Hp) E. inversion E; subst.
  unfold consistent. rewrite Ho. repeat split.
  - destruct (o_radiativeQ o); [bits; exact Hq | exact I].
  - destruct (o_radiativeQ_polar o); [bits; exact Hp | exact I].
Qed.

Lemma keeps_set_radiativeQ :
  o_radiativeQ o = None -> keeps o (set_features __default_radiativeQ).
Proof.
  intros Ho df r df' (Hv & Hq & Hp) E. inversion E; subst.
  unfold consistent. rewrite Ho. repeat split.
  - destruct (o_emission_vector o); [bits; exact Hv | exact I].
  - destruct (o_radiativeQ_polar o); [bits; exact Hp | exact I].
Qed.

Lemma keeps_set_radiativeQ_polar :
  o_radiativeQ_polar o = None ->
  keeps o (set_features __default_radiativeQ_polar).
Proof.
  intros Ho df r df' (Hv & Hq & Hp) E. inversion E; subst.
  unfold consistent. rewrite Ho. repeat split.
  - destruct (o_emission_vector o); [bits; exact Hv | exact I].
  - destruct (o_radiativeQ o); [bits; exact Hq | exact I].
Qed.

Ltac keep :=
  repeat first
    [ apply keeps_ret
    | apply keeps_features
    | apply keeps_out_of_fuel
    | apply keeps_set_emission_vector; assumption
    | apply keeps_set_radiativeQ; assumption
    | apply keeps_set_radiativeQ_polar; assumption
    | apply keeps_mapM; intros
    | apply keeps_bind; [| intros]
    | match goal with
      | |- keeps _ (if ?b then _ else _) => destruct b
      | |- keeps _ (let '(_, _) := ?x in _) => destruct x
      | H : _ |- _ => solve [apply H]
      end ].

Lemma methods_keep (g : Generic D) (n : nat) : vtable_keeps o (methods o g n).
Proof.
  induction n as [| n IH].
  - unfold vtable_keeps, methods, dispatch.
    cbn [generic v_transmission v_emission v_emission_vector v_radiativeQ
         v_radiativeQ_polar].
    split; [| split; [| split; [| split]]]; intros.
    + destruct (o_transmission o); keep.
    + destruct (o_emission o); keep.
    + destruct (o_emission_vector o); keep.
    + destruct (o_radiativeQ o); keep.
    + destruct (o_radiativeQ_polar o); keep.
  - destruct IH as (Ht & He & Hv & Hq & Hp).
    unfold vtable_keeps. split; [| split; [| split; [| split]]]; intros.
    + destruct (o_transmission o) as [f |] eqn:Ho.
      * unfold methods, dispatch. cbn [v_transmission]. rewrite Ho. keep.
      * rewrite call_transmission by assumption.
        unfold Generic_transmission. keep.
    + destruct (o_emission o) as [f |] eqn:Ho.
      * unfold methods, dispatch. cbn [v_emission]. rewrite Ho. keep.
      * rewrite call_emission by assumption.
        unfold Generic_emission. keep.
    + destruct (o_emission_vector o) as [f |] eqn:Ho.
      * unfold methods, dispatch. cbn [v_emission_vector]. rewrite Ho. keep.
      * rewrite call_emission_vector by assumption.
        unfold Generic_emission_vector. keep.
    + destruct (o_radiativeQ o) as [f |] eqn:Ho.
      * unfold methods, dispatch. cbn [v_radiativeQ]. rewrite Ho. keep.
      * rewrite call_radiativeQ by assumption.
        unfold Generic_radiativeQ. cbv zeta. keep.
    + destruct (o_radiativeQ_polar o) as [f |] eqn:Ho.
      * unfold methods, dispatch. cbn [v_radiativeQ_polar]. rewrite Ho. keep.
      * rewrite call_radiativeQ_polar by assumption.
        unfold Generic_radiativeQ_polar. cbv zeta. keep.
Qed.

End Soundness.

(** X2.  In an object of any class, starting from a bitmask in which the
    bit of every reimplemented method is clear (as after construction), a
    call of any of the five methods that returns leaves it so: a bit that
    is set always names a method the class did not reimplement. *)
Theorem set_bits_name_defaults {D : Type} {DD : Double D} (o : Overrides D)
    (g : Generic D) (fuel : nat) (df : Z) :
  consistent o df ->
  (forall nu dsem cph co r df',
     v_transmission (methods o g fuel) nu dsem cph co df = Ok (r, df') ->
     consistent o df')
  /\ (forall nu dsem cph co r df',
        v_emission (methods o g fuel) nu dsem cph co df = Ok (r, df') ->
        consistent o df')
  /\ (forall nuem dsem cph co r df',
        v_emission_vector (methods o g fuel) nuem dsem cph co df
        = Ok (r, df') ->
        consistent o df')
  /\ (forall nuem dsem cph co r df',
        v_radiativeQ (methods o g fuel) nuem dsem cph co df = Ok (r, df') ->
        consistent o df')
  /\ (forall nuem dsem cph co r df',
        v_radiativeQ_polar (methods o g fuel) nuem dsem cph co df
        = Ok (r, df') ->
        consistent o df').
Proof.
  intros Hc. destruct (methods_keep o g fuel) as (Ht & He & Hv & Hq & Hp).
  split; [| split; [| split; [| split]]]; intros.
  - eapply Ht; eassumption.
  - eapply He; eassumption.
  - eapply Hv; eassumption.
  - eapply Hq; eassumption.
  - eapply Hp; eassumption.
Qed.

(** * What the default methods answer, class by class *)

Section Answers.

Context {D : Type} {DD : Double D}.
Variables (g : Generic D) (k : nat).
Variables (dsem : D) (cph : state_t D) (co : list D) (df : Z).

(** X3.  A class that reimplements the polarized [radiativeQ] only, with
    the bit of that method clear: the unpolarized [radiativeQ] returns the
    [Inu] of the polarized one and [Taunu[i] = exp(-alphaInu[i])]; the
    transmission is [exp(-alphaInu[0])] of a call with the one frequency;
    the emissions are the [Inu] of the polarized method. *)
Theorem polarized_class_answers
    (G : list D -> D -> state_t D -> list D -> Polar D) :
  unset df 1 = true ->
  (forall nuem, exists df',
     v_radiativeQ (methods (only_radiativeQ_polar G) g (3 + k))
                  nuem dsem cph co df
     = Ok ((p_Inu (G nuem dsem cph co),
            map (fun i => exp (dopp (at_ (p_alphaInu (G nuem dsem cph co)) i)))
                (seq 0 (List.length nuem))),
           df'))
  /\ (forall nu, exists df',
        v_transmission (methods (only_radiativeQ_polar G) g (3 + k))
                       nu dsem cph co df
        = Ok (exp (dopp (at_ (p_alphaInu (G [nu] dsem cph co)) 0)), df'))
  /\ (forall nuem, exists df',
        v_emission_vector (methods (only_radiativeQ_polar G) g (3 + k))
                          nuem dsem cph co df
        = Ok (p_Inu (G nuem dsem cph co), df'))
  /\ (forall nu, exists df',
        v_emission (methods (only_radiativeQ_polar G) g (3 + k))
                   nu dsem cph co df
        = Ok (at_ (p_Inu (G [nu] dsem cph co)) 0, df')).
Proof.
  intros H1. split; [| split; [| split]]; intros.
  - eexists.
    apply (polarized_radiativeQ G g dsem cph co (S (S k)) nuem df H1).
  - eexists.
    apply (polarized_transmission G g dsem cph co (S k) nu df H1).
  - destruct (polarized_emission_vector G g dsem cph co (S k) nuem df H1)
      as (df' & E & _).
    exists df'. exact E.
  - destruct (polarized_emission G g dsem cph co k nu df H1)
      as (df' & E & _).
    exists df'. exact E.
Qed.

(** X4.  A class that reimplements the unpolarized [radiativeQ] only, with
    the bit of that method clear: transmission and emission are
    [Taunu[0]] and [Inu[0]] of a call with the one frequency, the vector
    emission is its [Inu], and the polarized [radiativeQ] returns its
    [Inu], [Qnu = Unu = Vnu = 0] and [alphaInu[i] = -log(Taunu[i])], or
    minus infinity where [Taunu[i] < 0.1]. *)
Theorem unpolarized_class_answers
    (F : list D -> D -> state_t D -> list D -> list D * list D) :
  unset df 2 = true ->
  (forall nu, exists df',
     v_transmission (methods (only_radiativeQ F) g (2 + k)) nu dsem cph co df
     = Ok (at_ (snd (F [nu] dsem cph co)) 0, df'))
  /\ (forall nu, exists df',
        v_emission (methods (only_radiativeQ F) g (2 + k)) nu dsem cph co df
        = Ok (at_ (fst (F [nu] dsem cph co)) 0, df'))
  /\ (forall nuem, exists df',
        v_emission_vector (methods (only_radiativeQ F) g (2 + k))
                          nuem dsem cph co df
        = Ok (fst (F nuem dsem cph co), df'))
  /\ (forall nuem, exists q df',
        v_radiativeQ_polar (methods (only_radiativeQ F) g (2 + k))
                           nuem dsem cph co df
        = Ok (q, df')
        /\ p_Inu q = fst (F nuem dsem cph co)
        /\ p_Qnu q = repeat d_0 (List.length nuem)
        /\ p_Unu q = repeat d_0 (List.length nuem)
        /\ p_Vnu q = repeat d_0 (List.length nuem)
        /\ p_alphaInu q
           = map (fun i =>
                    let Tau := at_ (snd (F nuem dsem cph co)) i in
                    if dltb Tau d_0p1 then dopp infinity
                    else dopp (log Tau))
                 (seq 0 (List.length nuem))).
Proof.
  intros H2. split; [| split; [| split]]; intros.
  - eexists.
    apply (unpolarized_transmission F g dsem cph co (S k) nu df H2).
  - destruct (unpolarized_emission F g dsem cph co k nu df H2)
      as (df' & E & _).
    exists df'. exact E.
  - eexists.
    apply (unpolarized_emission_vector F g dsem cph co (S k) nuem df H2).
  - eexists. eexists. split.
    + apply (unpolarized_radiativeQ_polar F g dsem cph co (S k) nuem df).
    + cbn [unpolarized p_Inu p_Qnu p_Unu p_Vnu p_alphaInu].
      rewrite map_const, length_seq. auto.
Qed.

(** X5.  A class that reimplements the vector emission only, with the bit
    of that method clear: the scalar emission is [Inu[0]] of a call with
    the one frequency, the unpolarized [radiativeQ] returns the [Inu] of
    the vector emission and the optically-thin flag for every [Taunu[i]],
    and the transmission is that flag. *)
Theorem vector_class_answers
    (V : list D -> D -> state_t D -> list D -> list D) :
  unset df 4 = true ->
  (forall nu, exists df',
     v_emission (methods (only_vector V) g (5 + k)) nu dsem cph co df
     = Ok (at_ (V [nu] dsem cph co) 0, df'))
  /\ (forall nu, exists df',
        v_transmission (methods (only_vector V) g (5 + k)) nu dsem cph co df
        = Ok (of_bool (flag_radtransf_ g), df'))
  /\ (forall nuem, exists df',
        v_radiativeQ (methods (only_vector V) g (5 + k)) nuem dsem cph co df
        = Ok ((V nuem dsem cph co,
               repeat (of_bool (flag_radtransf_ g)) (List.length nuem)),
              df')).
Proof.
  intros H4. split; [| split]; intros.
  - eexists.
    apply (vector_emission V g dsem cph co (S (S (S (S k)))) nu df H4).
  - destruct (vector_transmission V g dsem cph co k nu df H4)
      as (df' & E & _).
    exists df'. exact E.
  - destruct (vector_radiativeQ V g dsem cph co (S k) nuem df H4)
      as (df' & E & _).
    exists df'. rewrite <- map_const. exact E.
Qed.

(** X6.  A class that reimplements no array-level method (it may
    reimplement the scalar emission, the scalar transmission, both or
    neither): from every value of the bitmask the vector emission is the
    scalar emission at every frequency, and the unpolarized [radiativeQ]
    returns the scalar emission and the scalar transmission at every
    frequency; a scalar method that is not reimplemented counts with its
    fall-back value ([dsem] or [1.], and the optically-thin flag). *)
Theorem scalar_class_answers (o : Overrides D) :
  o_emission_vector o = None ->
  o_radiativeQ o = None ->
  o_radiativeQ_polar o = None ->
  (forall nuem, exists df',
     v_emission_vector (methods o g (6 + k)) nuem dsem cph co df
     = Ok (map (fun nu => scalar_emission o g nu dsem cph co) nuem, df'))
  /\ (forall nuem, exists df',
        v_radiativeQ (methods o g (6 + k)) nuem dsem cph co df
        = Ok ((map (fun nu => scalar_emission o g nu dsem cph co) nuem,
               map (fun nu => scalar_transmission o g nu dsem cph co) nuem),
              df')).
Proof.
  intros Hv Hq Hp. split; intros.
  - destruct (emission_vector_scalar o g Hv Hq Hp dsem cph co k nuem df)
      as (df' & E & _).
    exists df'. exact E.
  - destruct (radiativeQ_scalar o g Hv Hq Hp dsem cph co (S k) nuem df)
      as (df' & E & _).
    exists df'. exact E.
Qed.

End Answers.

(** * More on the band quadrature, in exact arithmetic *)

(** A loop whose calls return and leave the state alone, with what they
    return. *)
Lemma mapM_Forall2 {S A B} (R : A -> B -> Prop) (f : A -> St S B) (s : S)
    (l : list A) :
  (forall a, In a l -> exists b, f a s = Ok (b, s) /\ R a b) ->
  exists bs, mapM f l s = Ok (bs, s) /\ Forall2 R l bs.
Proof.
  induction l as [| a l IH]; intros Hf; cbn [mapM].
  - exists []. split; [reflexivity | constructor].
  - destruct (Hf a (or_introl eq_refl)) as (b & Eb & Rb).
    destruct IH as (bs & Ebs & Rbs).
    { intros a' Ha'. apply Hf. right. exact Ha'. }
    exists (b :: bs). split.
    + rewrite (bind_Ok _ Eb), (bind_Ok _ Ebs). reflexivity.
    + constructor; assumption.
Qed.

Section ExactQuadratureMore.

Variables (qsqrt qexp qlog : Q -> Q) (qinf : Q).

#[local] Instance exact_numbers : Double Q := Q_double qsqrt qexp qlog qinf.

Variables (dsem : Q) (cph : state_t Q) (co : list Q).

(** X7.  Whatever the class of the object, the quadrature does the same
    with the bounds in either order when they differ: same result, same
    bitmask, or the same failure. *)
Theorem integrateEmission_order_independent (self : vtable Q) (fuel : nat)
    (nu1 nu2 : Q) (df : Z) :
  ~ (nu1 == nu2)%Q ->
  integrateEmission self dsem cph co fuel nu1 nu2 df
  = integrateEmission self dsem cph co fuel nu2 nu1 df.
Proof.
  intros Hne. unfold integrateEmission.
  cbn [dltb exact_numbers Q_double].
  destruct (Q_dec nu1 nu2) as [[Hlt | Hgt] | Heq]; [| | contradiction].
  - rewrite (Qltb_false nu2 nu1) by lra. rewrite (Qltb_true nu1 nu2) by lra.
    reflexivity.
  - rewrite (Qltb_true nu2 nu1) by lra. rewrite (Qltb_false nu1 nu2) by lra.
    reflexivity.
Qed.

Variables (g : Generic Q) (m : nat).

(** X8.  A band of zero width: for an object that reimplements the scalar
    emission, whatever that emission is, the quadrature of [nu..nu]
    returns zero after one pass through the loop. *)
Theorem integrateEmission_empty_band
    (f : Q -> Q -> state_t Q -> list Q -> Q) (k : nat) (nu : Q) (df : Z) :
  exists r,
    integrateEmission (methods (only_emission f) g m) dsem cph co (1 + k)
                      nu nu df
    = Ok (r, df)
    /\ (r == 0)%Q.
Proof.
  unfold integrateEmission.
  cbn [dltb dsub dmul dadd d_2 d_0p25 exact_numbers Q_double].
  rewrite (Qltb_false nu nu) by lra.
  cbn [v_emission methods dispatch only_emission o_emission].
  unfold bind at 1. unfold ret at 1. unfold bind at 1. unfold ret at 1.
  cbn [Nat.add integrateEmission_do integrateEmission_for].
  cbn [dmul dadd dsub dltb fabs d_0p5 d_1em2 exact_numbers Q_double].
  unfold bind at 1.
  rewrite Qltb_false by lra. unfold ret at 1.
  set (e := f nu dsem cph co).
  set (r := ((e + e) * ((nu - nu) * 2) * (1 # 4) * (1 # 2))%Q).
  assert (Er : (r == 0)%Q) by (unfold r; ring).
  rewrite Qltb_false.
  - exists r. split; [reflexivity | exact Er].
  - assert (E0 : (r - (e + e) * ((nu - nu) * 2) * (1 # 4) == 0)%Q)
      by (unfold r; ring).
    rewrite E0, Er. cbn [Qabs Qnum Z.abs]. lra.
Qed.

Variable c : Q.

(** X9.  The binned quadrature: for a constant emission coefficient
    [c >= 0] and channels whose two boundaries differ, it returns one value
    per channel, [c] times the width of that channel. *)
Theorem integrateEmission_vector_constant (k : nat) (boundaries : list Q)
    (chaninds : list nat) (nbnu : nat) (df : Z) :
  (0 <= c)%Q ->
  (forall i, (i < nbnu)%nat ->
     ~ (at_ boundaries (nth (2 * i) chaninds O)
        == at_ boundaries (nth (2 * i + 1) chaninds O))%Q) ->
  exists I,
    integrateEmission_vector
      (methods (only_emission (fun _ _ _ _ => c)) g m) dsem cph co (2 + k)
      boundaries chaninds nbnu df
    = Ok (I, df)
    /\ List.length I = nbnu
    /\ forall i, (i < nbnu)%nat ->
         (nth i I 0
          == c * Qabs (at_ boundaries (nth (2 * i + 1) chaninds O)
                       - at_ boundaries (nth (2 * i) chaninds O)))%Q.
Proof.
  intros Hc Hne. unfold integrateEmission_vector.
  destruct (mapM_Forall2
              (fun i r =>
                 (r == c * Qabs (at_ boundaries (nth (2 * i + 1) chaninds O)
                                 - at_ boundaries (nth (2 * i) chaninds O)))%Q)
              (fun i =>
                 integrateEmission
                   (methods (only_emission (fun _ _ _ _ => c)) g m)
                   dsem cph co (2 + k)
                   (at_ boundaries (nth (2 * i) chaninds O))
                   (at_ boundaries (nth (2 * i + 1) chaninds O)))
              df (seq 0 nbnu)) as (I & E & HI).
  { intros i Hi. apply in_seq in Hi.
    assert (Hd := Hne i ltac:(lia)).
    destruct (Q_dec (at_ boundaries (nth (2 * i) chaninds O))
                    (at_ boundaries (nth (2 * i + 1) chaninds O)))
      as [[Hlt | Hgt] | Heq]; [| | contradiction].
    - destruct (integrateEmission_sorted qsqrt qexp qlog qinf g c dsem cph co
                  m k _ _ df Hc Hlt) as (r & E & _ & Er).
      exists r. split; [exact E |]. rewrite Qabs_pos by lra. exact Er.
    - destruct (integrateEmission_sorted qsqrt qexp qlog qinf g c dsem cph co
                  m k _ _ df Hc Hgt) as (r & _ & E & Er).
      exists r. split; [exact E |]. rewrite Qabs_neg by lra.
      rewrite Er. ring. }
  exists I. split; [exact E |].
  assert (Hlen : List.length I = nbnu).
  { apply Forall2_length in HI. rewrite length_seq in HI. auto. }
  split; [exact Hlen |].
  intros i Hi.
  assert (Hnth : forall (n : nat) (l : list nat) (J : list Q),
             Forall2
               (fun i r =>
                  (r == c * Qabs (at_ boundaries (nth (2 * i + 1) chaninds O)
                                  - at_ boundaries (nth (2 * i) chaninds O)))%Q)
               l J ->
             (n < List.length l)%nat ->
             (nth n J 0
              == c * Qabs (at_ boundaries
                             (nth (2 * nth n l O + 1) chaninds O)
                           - at_ boundaries
                               (nth (2 * nth n l O) chaninds O)))%Q).
  { intros n l J HF. revert n.
    induction HF as [| a b l' J' Hab HF IH]; intros n Hn.
    - cbn in Hn. lia.
    - destruct n as [| n]; cbn [nth].
      + exact Hab.
      + apply IH. cbn in Hn. lia. }
  pose proof (Hnth i (seq 0 nbnu) I HI) as Hn.
  rewrite length_seq in Hn. specialize (Hn Hi).
  rewrite seq_nth in Hn by lia. cbn [Nat.add] in Hn. exact Hn.
Qed.

(** X25.  With a negative constant emission coefficient and two different
    bounds the quadrature never returns: whatever the fuel, the loop is
    still running when it is spent. *)
Theorem integrateEmission_negative_diverges (fuel : nat) (nu1 nu2 : Q)
    (df : Z) :
  (c < 0)%Q -> ~ (nu1 == nu2)%Q ->
  integrateEmission (methods (only_emission (fun _ _ _ _ => c)) g m)
                    dsem cph co fuel nu1 nu2 df
  = OutOfFuel.
Proof.
  exact (integrateEmission_negative_constant qsqrt qexp qlog qinf g c dsem
           cph co m fuel nu1 nu2 df).
Qed.

End ExactQuadratureMore.

(** * More on the accumulator *)

Section AccumulatorMore.

Context {D : Type} {DD : Double D} {Ph : Type}.
Variable P : PhotonClass D Ph.
Variables (o : Overrides D) (g : Generic D) (gg : Metric D) (k : nat).
Variables (coord_ph_hit : state_t D) (coord_obj_hit : list D) (dt : D).
Hypothesis Hg : gg_ g = Some gg.

Ltac blocks :=
  unfold processHitQuantities, phq_redshift, phq_time, phq_impactcoords,
         phq_intensity, phq_binspectrum, phq_spectrum, phq_transmit;
  cbv zeta.

Ltac run :=
  unfold bind, ret, photon, set_photon, load, write, call, deref;
  cbv beta iota; unfold ret; cbv beta iota;
  cbn [w_features w_ph w_mem is_set orb].

(** X10.  For an object that reimplements no array-level method and an
    output record that requests the intensity only, one hit adds
    [emission * transmission so far * ggred^3] (through the converter, if
    any) to the intensity, multiplies the photon's overall transmission by
    the scalar transmission, and writes nothing else. *)
Theorem intensity_increment (data : Properties D) (p : Z) (w : World D Ph) :
  o_emission_vector o = None ->
  o_radiativeQ o = None ->
  o_radiativeQ_polar o = None ->
  intensity data = Some p ->
  redshift data = None -> time data = None -> impactcoords data = None ->
  no_spectral_slot data ->
  let ggredm1 := hit_ggredm1 g gg coord_ph_hit coord_obj_hit in
  let ggred := ddiv d_1 ggredm1 in
  let dsem := hit_dsem g gg coord_ph_hit coord_obj_hit dt in
  let nuem := dmul (freqObs P (w_ph w)) ggredm1 in
  let e := scalar_emission o g nuem dsem coord_ph_hit coord_obj_hit in
  let t := scalar_transmission o g nuem dsem coord_ph_hit coord_obj_hit in
  let inc :=
    convert (intensity_converter_ data)
      (dmul (dmul (dmul (dmul e (getTransmission P (w_ph w) SIZE_MAX)) ggred)
                  ggred) ggred) in
  exists df',
    processHitQuantities P o g (7 + k) coord_ph_hit coord_obj_hit dt
                         (Some data) w
    = Ok (tt, {| w_features := df';
                 w_ph := transmit P (w_ph w) SIZE_MAX t;
                 w_mem := store (w_mem w) p (dadd (w_mem w p) inc) |}).
Proof.
  intros Hv Hq Hp Hi Hr Ht Hic (Hb & Hs & HQ & HU & HV). cbv zeta.
  destruct (emission_scalar o g Hv Hq Hp
              (hit_dsem g gg coord_ph_hit coord_obj_hit dt)
              coord_ph_hit coord_obj_hit k
              (dmul (freqObs P (w_ph w))
                    (hit_ggredm1 g gg coord_ph_hit coord_obj_hit))
              (w_features w)) as (df1 & Ee).
  destruct (transmission_scalar o g Hv Hq Hp
              (hit_dsem g gg coord_ph_hit coord_obj_hit dt)
              coord_ph_hit coord_obj_hit (S k)
              (dmul (freqObs P (w_ph w))
                    (hit_ggredm1 g gg coord_ph_hit coord_obj_hit))
              df1) as (df2 & Et).
  exists df2. blocks. rewrite Hg, Hi, Hr, Ht, Hic, Hb, Hs, HQ, HU, HV.
  unfold hit_dsem, hit_ggredm1 in *. run.
  cbn [Nat.add]. rewrite Ee. cbv beta iota. cbn [w_features w_ph w_mem].
  rewrite Et. reflexivity.
Qed.

(** The blocks that come before the spectrum return and leave the photon
    alone. *)
Lemma redshift_passes (data : Properties D) (ggred : D) (w : World D Ph) :
  exists w', phq_redshift data ggred w = Ok (tt, w') /\ w_ph w' = w_ph w.
Proof.
  unfold phq_redshift. destruct (redshift data) as [a |];
    eexists; split; reflexivity.
Qed.

Lemma time_passes (data : Properties D) (w : World D Ph) :
  exists w', phq_time coord_ph_hit data w = Ok (tt, w') /\ w_ph w' = w_ph w.
Proof.
  unfold phq_time. destruct (time data) as [a |];
    eexists; split; reflexivity.
Qed.

Lemma impactcoords_passes (data : Properties D) (w : World D Ph) :
  impactcoords data = None \/ (List.length coord_ph_hit <= 8)%nat ->
  exists w',
    phq_impactcoords coord_ph_hit coord_obj_hit data w = Ok (tt, w')
    /\ w_ph w' = w_ph w.
Proof.
  intros Hic. unfold phq_impactcoords.
  destruct (impactcoords data) as [a |];
    [| exists w; split; reflexivity].
  destruct Hic as [Hic | Hic]; [discriminate Hic |].
  apply Nat.ltb_ge in Hic. unfold bind at 1. unfold load at 1.
  destruct (deqb (w_mem w a) DBL_MAX); [| exists w; split; reflexivity].
  rewrite Hic. eexists. split; reflexivity.
Qed.

Lemma intensity_passes (data : Properties D) (freqObs_ ggredm1 ggred dsem : D)
    (w : World D Ph) :
  exists w',
    phq_intensity P (methods o g (7 + k)) coord_ph_hit coord_obj_hit data
                  freqObs_ ggredm1 ggred dsem w
    = Ok (tt, w')
    /\ w_ph w' = w_ph w.
Proof.
  unfold phq_intensity. destruct (intensity data) as [a |];
    [| exists w; split; reflexivity].
  destruct (any_emission o g dsem coord_ph_hit coord_obj_hit k
              (dmul freqObs_ ggredm1) (w_features w)) as (e & df' & E).
  unfold bind at 1. unfold call. cbn [Nat.add]. rewrite E.
  eexists. split; reflexivity.
Qed.

(** The spectrum block, with a Stokes slot and no spectrum slot. *)
Lemma spectrum_null (data : Properties D) (ggredm1 ggred dsem : D)
    (n : nat) (nuobs : list D) (w : World D Ph) :
  spectrum data = None ->
  is_set (stokesQ data) || is_set (stokesU data) || is_set (stokesV data)
  = true ->
  parallelTransport P (w_ph w) = false ->
  phq_spectrum P (methods o g (7 + k)) coord_ph_hit coord_obj_hit data
               ggredm1 ggred dsem (S n) nuobs w
  = Undefined.
Proof.
  intros Hs HS Hpt. unfold phq_spectrum. rewrite Hs.
  cbn [is_set orb]. rewrite HS.
  unfold bind at 1. unfold photon at 1. rewrite Hpt.
  match goal with
  | |- context [v_radiativeQ ?vt ?nuem ?ds ?a ?b] =>
      destruct (any_radiativeQ o g ds a b (S (S k)) nuem (w_features w))
        as ([Inu Taunu] & s1 & E)
  end.
  unfold bind at 1. unfold call. cbn [Nat.add]. rewrite E.
  cbn [seq forM]. unfold bind, photon, add_at, undefined. reflexivity.
Qed.

(** X11.  When the record requests a Stokes parameter but neither the
    spectrum nor the binned spectrum, the block of the impact coordinates
    raises no error (the slot is not requested, or the photon state has at
    most 8 components), the photon carries no polarization basis and the
    spectrometer has at least one channel, the accumulator adds to
    [data->spectrum[0]] through the null pointer, whatever else the record
    requests. *)
Theorem stokes_without_spectrum_dereferences_null (data : Properties D)
    (s : Spectrometer D) (n : nat) (w : World D Ph) :
  binspectrum data = None -> spectrum data = None ->
  is_set (stokesQ data) || is_set (stokesU data) || is_set (stokesV data)
  = true ->
  impactcoords data = None \/ (List.length coord_ph_hit <= 8)%nat ->
  spectrometer P (w_ph w) = Some s -> nSamples s = S n ->
  parallelTransport P (w_ph w) = false ->
  processHitQuantities P o g (7 + k) coord_ph_hit coord_obj_hit dt
                       (Some data) w
  = Undefined.
Proof.
  intros Hb Hs HS Hic Hspr Hn Hpt.
  unfold processHitQuantities. cbv zeta.
  unfold bind at 1. unfold photon at 1. cbv beta iota.
  rewrite Hg, Hspr, Hn.
  unfold bind at 1. unfold deref, ret at 1. cbv beta iota.
  match goal with
  | |- context [phq_redshift data ?ggred] =>
      destruct (redshift_passes data ggred w) as (w1 & E1 & P1)
  end.
  unfold bind at 1. rewrite E1.
  destruct (time_passes data w1) as (w2 & E2 & P2).
  unfold bind at 1. rewrite E2.
  destruct (impactcoords_passes data w2 Hic) as (w3 & E3 & P3).
  unfold bind at 1. rewrite E3.
  match goal with
  | |- context [phq_intensity P _ _ _ data ?f ?a ?b ?c] =>
      destruct (intensity_passes data f a b c w3) as (w4 & E4 & P4)
  end.
  unfold bind at 1. rewrite E4.
  unfold bind at 1. unfold phq_binspectrum at 1. rewrite Hb.
  unfold ret at 1.
  unfold bind at 1.
  rewrite spectrum_null; [reflexivity | exact Hs | exact HS |].
  rewrite P4, P3, P2, P1. exact Hpt.
Qed.

(** X12.  When the record requests none of the slots the accumulator
    fills, a hit calls the scalar transmission and [transmit] once, and
    does nothing else: no emission is computed and the memory is left
    alone, whatever the class of the object. *)
Theorem nothing_requested (data : Properties D) (w : World D Ph) :
  intensity data = None ->
  redshift data = None -> time data = None -> impactcoords data = None ->
  no_spectral_slot data ->
  exists t df',
    v_transmission (methods o g (7 + k))
      (dmul (freqObs P (w_ph w))
            (hit_ggredm1 g gg coord_ph_hit coord_obj_hit))
      (hit_dsem g gg coord_ph_hit coord_obj_hit dt)
      coord_ph_hit coord_obj_hit (w_features w)
    = Ok (t, df')
    /\ processHitQuantities P o g (7 + k) coord_ph_hit coord_obj_hit dt
                            (Some data) w
       = Ok (tt, {| w_features := df';
                    w_ph := transmit P (w_ph w) SIZE_MAX t;
                    w_mem := w_mem w |}).
Proof.
  intros Hi Hr Ht Hic (Hb & Hs & HQ & HU & HV).
  destruct (any_transmission o g
              (hit_dsem g gg coord_ph_hit coord_obj_hit dt)
              coord_ph_hit coord_obj_hit (S k)
              (dmul (freqObs P (w_ph w))
                    (hit_ggredm1 g gg coord_ph_hit coord_obj_hit))
              (w_features w)) as (t & df' & Et).
  exists t, df'. split; [exact Et |].
  blocks. rewrite Hg, Hi, Hr, Ht, Hic, Hb, Hs, HQ, HU, HV.
  unfold hit_dsem, hit_ggredm1 in *. run.
  cbn [Nat.add] in *. rewrite Et. reflexivity.
Qed.

End AccumulatorMore.

Section NoRedshift.

Context {D : Type} {DD : Double D} {Ph : Type}.
Variable P : PhotonClass D Ph.
Variables (o : Overrides D) (g : Generic D).

Lemma generic_set_metric (gg : Metric D) (n : nat) :
  generic o (set_metric g gg) n = generic o g n.
Proof.
  induction n as [| n IH]; cbn [generic].
  - reflexivity.
  - rewrite IH. reflexivity.
Qed.

(** X13.  With redshift disabled ([noredshift_]) the metric plays no part
    in a hit: the accumulator does the same whatever metric is attached to
    the object. *)
Theorem noredshift_ignores_metric (gg1 gg2 : Metric D) (fuel : nat)
    (coord_ph_hit : state_t D) (coord_obj_hit : list D) (dt : D)
    (data : option (Properties D)) (w : World D Ph) :
  noredshift_ g = true ->
  processHitQuantities P o (set_metric g gg1) fuel coord_ph_hit
                       coord_obj_hit dt data w
  = processHitQuantities P o (set_metric g gg2) fuel coord_ph_hit
                         coord_obj_hit dt data w.
Proof.
  intros Hn. unfold processHitQuantities, methods.
  rewrite !generic_set_metric.
  cbn [set_metric gg_ noredshift_ deref]. rewrite Hn.
  unfold bind, photon, ret. reflexivity.
Qed.

End NoRedshift.

(** * More on the output record *)

Section RecordMore.

Context {D : Type} {DD : Double D}.

Lemma advance_advance (p : pointer) (a b : Z) :
  advance (advance p a) b = advance p (a + b).
Proof. destruct p as [x |]; cbn [advance]; [f_equal; lia | reflexivity]. Qed.

Lemma advance_0 (p : pointer) : advance p 0 = p.
Proof. destruct p as [x |]; cbn [advance]; [f_equal; lia | reflexivity]. Qed.

(** X14.  Advancing the record by [a] and then by [b] is advancing it by
    [a + b]; in particular advancing by [n] and then by [-n] gives the
    record back, and advancing by 0 changes nothing. *)
Theorem Properties_add_add (d : Properties D) (a b n : Z) :
  Properties_add (Properties_add d a) b = Properties_add d (a + b)
  /\ Properties_add (Properties_add d n) (- n) = d
  /\ Properties_add d 0 = d.
Proof.
  assert (Hadd : forall x y,
             Properties_add (Properties_add d x) y
             = Properties_add d (x + y)).
  { intros x y. unfold Properties_add.
    cbn [intensity time distance first_dmin first_dmin_found redshift
         nbcrosseqplane spectrum stokesQ stokesU stokesV binspectrum offset
         impactcoords user1 user2 user3 user4 user5 intensity_converter_
         spectrum_converter_ binspectrum_converter_ alloc].
    rewrite !advance_advance.
    replace (16 * x + 16 * y) with (16 * (x + y)) by lia. reflexivity. }
  assert (H0 : Properties_add d 0 = d).
  { destruct d as [i t di fd fdf r nb sp sq su sv bs off ic u1 u2 u3 u4 u5
                   c1 c2 c3 al]. unfold Properties_add.
    cbn [intensity time distance first_dmin first_dmin_found redshift
         nbcrosseqplane spectrum stokesQ stokesU stokesV binspectrum offset
         impactcoords user1 user2 user3 user4 user5 intensity_converter_
         spectrum_converter_ binspectrum_converter_ alloc].
    change (16 * 0) with 0. rewrite !advance_0. reflexivity. }
  split; [apply Hadd |]. split; [| exact H0].
  rewrite Hadd. replace (n + - n) with 0 by lia. exact H0.
Qed.

Lemma or_if_advance (p : pointer) (n q res : Z) :
  or_if (advance p n) q res = or_if p q res.
Proof. destruct p; reflexivity. Qed.

(** X15.  The set of quantities a record requests, as [operator
    Quantity_t] reports it, is the same after [operator+=], after
    [operator++] and after [init], whatever the values of the
    [GYOTO_QUANTITY_...] macros. *)
Theorem Quantity_t_stable (Q : Quantities) (d : Properties D) (n : Z)
    (nbnuobs : nat) (m : memory D) :
  Properties_Quantity_t Q (Properties_add d n) = Properties_Quantity_t Q d
  /\ Properties_Quantity_t Q (Properties_incr d) = Properties_Quantity_t Q d
  /\ Properties_Quantity_t Q (fst (Properties_init d nbnuobs m))
     = Properties_Quantity_t Q d.
Proof.
  assert (Hadd : forall x,
             Properties_Quantity_t Q (Properties_add d x)
             = Properties_Quantity_t Q d).
  { intros x. unfold Properties_Quantity_t, Properties_add.
    cbn [intensity time distance first_dmin first_dmin_found redshift
         nbcrosseqplane spectrum stokesQ stokesU stokesV binspectrum offset
         impactcoords user1 user2 user3 user4 user5].
    rewrite !or_if_advance. reflexivity. }
  split; [apply Hadd |]. split; [apply Hadd |].
  reflexivity.
Qed.

(** X16.  After [init], if none of the five user slots points into the
    block of the impact coordinates, its 16 doubles all hold the sentinel
    [DBL_MAX]. *)
Theorem init_arms_impactcoords (d : Properties D) (p : Z) (nbnuobs : nat)
    (m : memory D) (i : nat) :
  impactcoords d = Some p ->
  outside (user1 d) p -> outside (user2 d) p -> outside (user3 d) p ->
  outside (user4 d) p -> outside (user5 d) p ->
  (i < 16)%nat ->
  snd (Properties_init d nbnuobs m) (p + Z.of_nat i) = DBL_MAX.
Proof.
  intros Hp H1 H2 H3 H4 H5 Hi. unfold Properties_init. cbv zeta.
  cbn [snd]. rewrite Hp.
  assert (Hset : forall (u : pointer) (v : D) (m' : memory D),
             outside u p ->
             match u with Some a => store m' a v | None => m' end
               (p + Z.of_nat i)
             = m' (p + Z.of_nat i)).
  { intros u v m' Hu. destruct u as [a |]; [| reflexivity].
    apply store_other. cbn [outside] in Hu. lia. }
  rewrite !Hset by assumption.
  apply (fill_inside (fun _ => DBL_MAX)). lia.
Qed.

End RecordMore.

(** * The debug mode *)

Section DebugMode.

Variable GYOTO_DEBUG_VERBOSITY : Z.

Ltac fields :=
  cbn [Utils.gyoto_debug Utils.gyoto_verbosity Utils.gyoto_prev_verbosity
       negb].

(** X17.  From a state where the debug mode is off, switching it to a
    non-zero [mode] raises the verbosity to [GYOTO_DEBUG_VERBOSITY], and
    switching it off again restores the verbosity there was before; a
    verbosity chosen in between is lost. *)
Theorem debug_round_trip (s : Utils.globals) (mode v : Z) :
  Utils.debug s = 0 -> mode <> 0 ->
  forall s1, s1 = Utils.set_debug GYOTO_DEBUG_VERBOSITY mode s ->
  Utils.debug s1 = mode
  /\ Utils.verbose s1 = GYOTO_DEBUG_VERBOSITY
  /\ Utils.debug (Utils.set_debug GYOTO_DEBUG_VERBOSITY 0 s1) = 0
  /\ Utils.verbose (Utils.set_debug GYOTO_DEBUG_VERBOSITY 0 s1)
     = Utils.verbose s
  /\ Utils.verbose (Utils.set_debug GYOTO_DEBUG_VERBOSITY 0
                      (Utils.set_verbose v s1))
     = Utils.verbose s.
Proof.
  intros H0 Hm s1 ->. unfold Utils.debug in H0.
  assert (E1 : (mode =? Utils.gyoto_debug s) = false)
    by (apply Z.eqb_neq; lia).
  assert (E2 : (mode =? 0) = false) by (apply Z.eqb_neq; lia).
  assert (E3 : (0 =? mode) = false) by (apply Z.eqb_neq; lia).
  unfold Utils.set_debug, Utils.set_verbose, Utils.debug, Utils.verbose.
  rewrite E1, E2. fields. rewrite E3. fields. auto.
Qed.

(** X18.  Switching from one non-zero debug mode to another overwrites the
    saved verbosity: when the debug mode is switched off afterwards, the
    verbosity stays at [GYOTO_DEBUG_VERBOSITY]. *)
Theorem debug_switch_loses_verbosity (s : Utils.globals) (m1 m2 : Z) :
  Utils.debug s = 0 -> m1 <> 0 -> m2 <> 0 -> m1 <> m2 ->
  forall s3,
    s3 = Utils.set_debug GYOTO_DEBUG_VERBOSITY 0
           (Utils.set_debug GYOTO_DEBUG_VERBOSITY m2
              (Utils.set_debug GYOTO_DEBUG_VERBOSITY m1 s)) ->
  Utils.verbose s3 = GYOTO_DEBUG_VERBOSITY /\ Utils.debug s3 = 0.
Proof.
  intros H0 H1 H2 H12 s3 ->. unfold Utils.debug in H0.
  assert (E1 : (m1 =? Utils.gyoto_debug s) = false)
    by (apply Z.eqb_neq; lia).
  assert (E2 : (m1 =? 0) = false) by (apply Z.eqb_neq; lia).
  assert (E3 : (m2 =? m1) = false) by (apply Z.eqb_neq; lia).
  assert (E4 : (m2 =? 0) = false) by (apply Z.eqb_neq; lia).
  assert (E5 : (0 =? m2) = false) by (apply Z.eqb_neq; lia).
  unfold Utils.set_debug, Utils.set_verbose, Utils.debug, Utils.verbose.
  rewrite E1, E2. fields. rewrite E3, E4. fields. rewrite E5. fields. auto.
Qed.

(** X19.  In a build whose default debug mode is on, switching the debug
    mode off from the initial state leaves the verbosity at
    [GYOTO_DEBUG_VERBOSITY]. *)
Theorem debug_build_stays_verbose (mode0 v0 : Z) :
  mode0 <> 0 ->
  Utils.verbose
    (Utils.set_debug GYOTO_DEBUG_VERBOSITY 0
       (Utils.initial mode0 GYOTO_DEBUG_VERBOSITY v0))
  = GYOTO_DEBUG_VERBOSITY.
Proof.
  intros Hm.
  assert (E1 : (mode0 =? 0) = false) by (apply Z.eqb_neq; lia).
  assert (E2 : (0 =? mode0) = false) by (apply Z.eqb_neq; lia).
  unfold Utils.initial, Utils.set_debug, Utils.set_verbose, Utils.verbose.
  rewrite E1. fields. rewrite E2. reflexivity.
Qed.

End DebugMode.

(** * [split] *)

Section Split.

Variables src delim : Utils.std_string.
Hypothesis Hsize : Utils.length src < Utils.npos.

Lemma scan_free (l : Utils.std_string) (i : Z) :
  Utils.free delim l -> Utils.scan delim l i = Utils.npos.
Proof.
  revert i. induction l as [| c l IH]; intros i Hl; cbn [Utils.scan].
  - reflexivity.
  - rewrite (Hl c) by (left; reflexivity).
    apply IH. intros x Hx. apply Hl. right. exact Hx.
Qed.

Lemma scan_found (pre post : Utils.std_string) (d : ascii) (i : Z) :
  Utils.free delim pre -> Utils.is_in d delim = true ->
  Utils.scan delim (pre ++ d :: post) i = i + Z.of_nat (List.length pre).
Proof.
  revert i. induction pre as [| c pre IH]; intros i Hpre Hd.
  - cbn. rewrite Hd. lia.
  - cbn [app Utils.scan List.length].
    rewrite (Hpre c) by (left; reflexivity).
    rewrite IH; [lia | | exact Hd].
    intros x Hx. apply Hpre. right. exact Hx.
Qed.

(** A string is free of delimiters, or has a first one. *)
Lemma first_delimiter (l : Utils.std_string) :
  Utils.free delim l
  \/ exists pre d post,
       l = pre ++ d :: post /\ Utils.free delim pre
       /\ Utils.is_in d delim = true.
Proof.
  induction l as [| c l IH].
  - left. intros c [].
  - destruct (Utils.is_in c delim) eqn:Ec.
    + right. exists [], c, l. repeat split; [intros x [] | exact Ec].
    + destruct IH as [Hl | (pre & d & post & -> & Hpre & Hd)].
      * left. intros x [<- | Hx]; [exact Ec | apply Hl; exact Hx].
      * right. exists (c :: pre), d, post. repeat split; [| exact Hd].
        intros x [<- | Hx]; [exact Ec | apply Hpre; exact Hx].
Qed.

Lemma skipn_lt (n : nat) (c : ascii) (l : Utils.std_string) :
  skipn n src = c :: l -> (n < List.length src)%nat.
Proof.
  intros E. destruct (Nat.lt_ge_cases n (List.length src)) as [Hlt | Hge];
    [exact Hlt |].
  rewrite (skipn_all2 src Hge) in E. discriminate.
Qed.

Lemma skipn_more (n : nat) (pre l : Utils.std_string) :
  skipn n src = pre ++ l -> skipn (n + List.length pre) src = l.
Proof.
  intros E. rewrite Nat.add_comm, <- skipn_skipn, E.
  rewrite skipn_app, skipn_all, Nat.sub_diag. reflexivity.
Qed.

Lemma in_range (n : nat) :
  (n < List.length src)%nat ->
  (Z.of_nat n =? Utils.npos) = false
  /\ (Z.of_nat n <? Utils.length src) = true
  /\ Utils.size_t (Z.of_nat n + 1) = Z.of_nat (S n).
Proof.
  intros Hn. unfold Utils.length, Utils.npos, Utils.size_t in *.
  split; [apply Z.eqb_neq; lia |]. split; [apply Z.ltb_lt; lia |].
  rewrite Z.mod_small; lia.
Qed.

Lemma step_end (fuel n : nat) (res : list Utils.std_string) (fpos : Z) :
  (List.length src <= n)%nat ->
  Utils.split_while fuel src delim res (Z.of_nat n) fpos = Ok res.
Proof.
  intros Hn.
  assert (E : (Z.of_nat n <? Utils.length src) = false)
    by (apply Z.ltb_ge; unfold Utils.length; lia).
  destruct fuel; cbn [Utils.split_while]; rewrite E, andb_false_r;
    reflexivity.
Qed.

Lemma step_delim (f n : nat) (res : list Utils.std_string) (fpos : Z)
    (d : ascii) (post : Utils.std_string) :
  skipn n src = d :: post -> Utils.is_in d delim = true ->
  fpos <> Utils.npos ->
  Utils.split_while (S f) src delim res (Z.of_nat n) fpos
  = Utils.split_while f src delim res (Z.of_nat (S n)) (Z.of_nat n).
Proof.
  intros E Hd Hf.
  destruct (in_range n (skipn_lt n d post E)) as (_ & E2 & E3).
  cbn [Utils.split_while].
  rewrite (proj2 (Z.eqb_neq fpos Utils.npos) Hf), E2. cbn [negb andb].
  unfold Utils.find_first_of. rewrite Nat2Z.id, E. cbn [Utils.scan].
  rewrite Hd, Z.eqb_refl, E3. reflexivity.
Qed.

Lemma step_token (f n : nat) (res : list Utils.std_string) (fpos : Z)
    (pre : Utils.std_string) (d : ascii) (post : Utils.std_string) :
  skipn n src = pre ++ d :: post -> pre <> [] -> Utils.free delim pre ->
  Utils.is_in d delim = true -> fpos <> Utils.npos ->
  Utils.split_while (S f) src delim res (Z.of_nat n) fpos
  = Utils.split_while f src delim (res ++ [pre])
      (Z.of_nat (S (n + List.length pre)))
      (Z.of_nat (n + List.length pre)).
Proof.
  intros E Hne Hpre Hd Hf.
  assert (Hn : (n < List.length src)%nat).
  { destruct pre as [| c pre]; [contradiction |].
    exact (skipn_lt n c _ E). }
  assert (Hk : (n + List.length pre < List.length src)%nat)
    by exact (skipn_lt _ d post (skipn_more n pre _ E)).
  destruct (in_range n Hn) as (_ & E2 & _).
  destruct (in_range _ Hk) as (_ & _ & E3).
  assert (Hlen : (0 < List.length pre)%nat)
    by (destruct pre; [contradiction | cbn; lia]).
  cbn [Utils.split_while].
  rewrite (proj2 (Z.eqb_neq fpos Utils.npos) Hf), E2. cbn [negb andb].
  unfold Utils.find_first_of. rewrite Nat2Z.id, E.
  rewrite (scan_found pre post d _ Hpre Hd).
  replace (Z.of_nat n + Z.of_nat (List.length pre) =? Z.of_nat n)
    with false by (symmetry; apply Z.eqb_neq; lia).
  unfold Utils.substr.
  replace (Utils.length src <? Z.of_nat n) with false
    by (symmetry; apply Z.ltb_ge; unfold Utils.length; lia).
  rewrite Nat2Z.id, E.
  replace (Utils.size_t (Z.of_nat n + Z.of_nat (List.length pre)
                         - Z.of_nat n))
    with (Z.of_nat (List.length pre)).
  2:{ unfold Utils.size_t. rewrite Z.mod_small; [lia |].
      unfold Utils.length, Utils.npos in Hsize. lia. }
  rewrite Nat2Z.id, firstn_app, Nat.sub_diag, firstn_all. cbn [firstn].
  rewrite app_nil_r.
  replace (Z.of_nat n + Z.of_nat (List.length pre))
    with (Z.of_nat (n + List.length pre)) by lia.
  rewrite E3. reflexivity.
Qed.

Lemma step_last (f n : nat) (res : list Utils.std_string) (fpos : Z)
    (pre : Utils.std_string) :
  skipn n src = pre -> pre <> [] -> Utils.free delim pre ->
  fpos <> Utils.npos ->
  Utils.split_while (S f) src delim res (Z.of_nat n) fpos
  = Ok (res ++ [pre]).
Proof.
  intros E Hne Hpre Hf.
  assert (Hn : (n < List.length src)%nat).
  { destruct pre as [| c pre]; [contradiction |].
    exact (skipn_lt n c _ E). }
  destruct (in_range n Hn) as (E1 & E2 & _).
  assert (Hlen : List.length pre = (List.length src - n)%nat)
    by (rewrite <- E; apply length_skipn).
  cbn [Utils.split_while].
  rewrite (proj2 (Z.eqb_neq fpos Utils.npos) Hf), E2. cbn [negb andb].
  unfold Utils.find_first_of. rewrite Nat2Z.id, E.
  rewrite (scan_free pre _ Hpre).
  rewrite Z.eqb_sym, E1.
  unfold Utils.substr.
  replace (Utils.length src <? Z.of_nat n) with false
    by (symmetry; apply Z.ltb_ge; unfold Utils.length; lia).
  rewrite Nat2Z.id, E.
  rewrite firstn_all2.
  2:{ unfold Utils.size_t, Utils.length, Utils.npos in *.
      rewrite Z.mod_small by lia. lia. }
  destruct f; cbn [Utils.split_while]; rewrite Z.eqb_refl; reflexivity.
Qed.

Lemma filter_free (l : Utils.std_string) :
  Utils.free delim l -> filter (Utils.kept delim) l = l.
Proof.
  induction l as [| c l IH]; intros Hl; [reflexivity |].
  cbn [filter]. unfold Utils.kept at 1.
  rewrite (Hl c) by (left; reflexivity). cbn [negb].
  rewrite IH; [reflexivity |]. intros x Hx. apply Hl. right. exact Hx.
Qed.

Lemma split_while_spec (fuel : nat) :
  forall (n : nat) (res : list Utils.std_string) (fpos : Z),
    fpos <> Utils.npos ->
    (List.length (skipn n src) <= fuel)%nat ->
    exists out,
      Utils.split_while fuel src delim res (Z.of_nat n) fpos
      = Ok (res ++ out)
      /\ Forall (Utils.token delim) out
      /\ List.concat out = filter (Utils.kept delim) (skipn n src).
Proof.
  induction fuel as [| f IH]; intros n res fpos Hf Hfuel.
  - assert (Hn : (List.length src <= n)%nat)
      by (rewrite length_skipn in Hfuel; lia).
    exists []. rewrite (step_end 0 n res fpos Hn), app_nil_r.
    rewrite (skipn_all2 src Hn). repeat split. constructor.
  - destruct (skipn n src) as [| c l] eqn:E.
    + assert (Hn : (List.length src <= n)%nat)
        by (apply skipn_all_iff; exact E).
      exists []. rewrite (step_end _ n res fpos Hn), app_nil_r.
      repeat split. constructor.
    + destruct (first_delimiter (c :: l))
        as [Hfree | (pre & d & post & Epre & Hpre & Hd)].
      * exists [c :: l].
        rewrite (step_last f n res fpos (c :: l) E); auto;
          [| discriminate].
        split; [reflexivity |]. split.
        -- constructor; [| constructor]. split; [discriminate | exact Hfree].
        -- cbn [List.concat]. rewrite app_nil_r, filter_free; auto.
      * rewrite Epre in E |- *. cbn [List.length] in Hfuel.
        assert (Hlen : List.length (c :: l)
                       = (List.length pre + S (List.length post))%nat)
          by (rewrite Epre, length_app; reflexivity).
        cbn [List.length] in Hlen.
        destruct pre as [| p pre].
        -- cbn [app] in E.
           destruct (in_range n (skipn_lt n d post E)) as (E1 & _ & _).
           assert (Epost : skipn (S n) src = post).
           { replace (S n) with (n + List.length [d])%nat
               by (cbn [List.length]; lia).
             apply skipn_more. exact E. }
           destruct (IH (S n) res (Z.of_nat n)) as (out & Eo & Ho & Hc).
           { apply Z.eqb_neq. exact E1. }
           { rewrite Epost. cbn [List.length] in Hlen. lia. }
           exists out. rewrite (step_delim f n res fpos d post E Hd Hf).
           split; [exact Eo |]. split; [exact Ho |].
           rewrite Hc, Epost.
           cbn [app filter]. unfold Utils.kept. rewrite Hd. reflexivity.
        -- assert (Hk : (n + List.length (p :: pre) < List.length src)%nat)
             by exact (skipn_lt _ d post (skipn_more n (p :: pre) _ E)).
           destruct (in_range _ Hk) as (E1 & _ & _).
           assert (Epost : skipn (S (n + List.length (p :: pre))) src
                           = post).
           { replace (S (n + List.length (p :: pre)))
               with (n + List.length ((p :: pre) ++ [d]))%nat
               by (rewrite length_app; cbn [List.length]; lia).
             apply skipn_more. rewrite <- app_assoc. exact E. }
           destruct (IH (S (n + List.length (p :: pre)))
                        (res ++ [p :: pre])
                        (Z.of_nat (n + List.length (p :: pre))))
             as (out & Eo & Ho & Hc).
           { apply Z.eqb_neq. exact E1. }
           { rewrite Epost. cbn [List.length] in Hlen. lia. }
           exists ((p :: pre) :: out).
           rewrite (step_token f n res fpos (p :: pre) d post E);
             auto; [| discriminate].
           split; [rewrite <- app_assoc in Eo; exact Eo |]. split.
           ++ constructor; [| exact Ho]. split; [discriminate | exact Hpre].
           ++ cbn [List.concat]. rewrite Hc, Epost, filter_app.
              rewrite (filter_free _ Hpre). cbn [filter].
              unfold Utils.kept. rewrite Hd. reflexivity.
Qed.

Lemma split_while_join (d : ascii) (tokens : list Utils.std_string) :
  Utils.is_in d delim = true ->
  Forall (Utils.token delim) tokens ->
  forall (fuel n : nat) (res : list Utils.std_string) (fpos : Z),
    skipn n src = Utils.join d tokens ->
    fpos <> Utils.npos ->
    (List.length tokens <= fuel)%nat ->
    Utils.split_while fuel src delim res (Z.of_nat n) fpos
    = Ok (res ++ tokens).
Proof.
  intros Hd. induction tokens as [| t ts IH]; intros Ht fuel n res fpos E Hf
    Hfuel.
  - cbn [Utils.join] in E. rewrite app_nil_r. apply step_end.
    apply skipn_all_iff. exact E.
  - inversion Ht as [| ? ? [Hne Hfree] Hts]; subst.
    destruct fuel as [| f]; [cbn [List.length] in Hfuel; lia |].
    destruct ts as [| t2 ts].
    + cbn [Utils.join] in E. apply step_last; auto.
    + change (Utils.join d (t :: t2 :: ts))
        with (t ++ d :: Utils.join d (t2 :: ts)) in E.
      rewrite (step_token f n res fpos t d _ E); auto.
      assert (Hk : (n + List.length t < List.length src)%nat)
        by exact (skipn_lt _ d _ (skipn_more n t _ E)).
      destruct (in_range _ Hk) as (E1 & _ & _).
      rewrite (IH Hts f (S (n + List.length t)) (res ++ [t])
                  (Z.of_nat (n + List.length t))).
      * rewrite <- app_assoc. reflexivity.
      * replace (S (n + List.length t))
          with (n + List.length (t ++ [d]))%nat
          by (rewrite length_app; cbn [List.length]; lia).
        apply skipn_more. rewrite <- app_assoc. exact E.
      * apply Z.eqb_neq. exact E1.
      * cbn [List.length] in *. lia.
Qed.

End Split.

(** X20.  On a string shorter than [npos], [split] returns as soon as the
    fuel covers the length of the string; every token it returns is not
    empty and has no delimiter in it, and the tokens put end to end are
    the string without its delimiters. *)
Theorem split_tokens (fuel : nat) (src delim : Utils.std_string) :
  Utils.length src < Utils.npos ->
  (List.length src <= fuel)%nat ->
  exists res,
    Utils.split fuel src delim = Ok res
    /\ Forall (Utils.token delim) res
    /\ List.concat res = filter (Utils.kept delim) src.
Proof.
  intros Hsize Hfuel.
  destruct (split_while_spec src delim Hsize fuel 0 [] 0)
    as (out & E & Ho & Hc).
  - unfold Utils.npos. lia.
  - cbn [skipn]. exact Hfuel.
  - exists out. split; [exact E |]. split; [exact Ho | exact Hc].
Qed.

(** X21.  Splitting gives back the tokens that were joined: if every
    token is not empty and free of delimiters and [d] is a delimiter, then
    [split] of the tokens joined by [d] is the list of the tokens. *)
Theorem split_join (fuel : nat) (d : ascii) (delim : Utils.std_string)
    (tokens : list Utils.std_string) :
  Utils.is_in d delim = true ->
  Forall (Utils.token delim) tokens ->
  Utils.length (Utils.join d tokens) < Utils.npos ->
  (List.length tokens <= fuel)%nat ->
  Utils.split fuel (Utils.join d tokens) delim = Ok tokens.
Proof.
  intros Hd Ht Hsize Hfuel.
  apply (split_while_join (Utils.join d tokens) delim Hsize d tokens Hd Ht
           fuel 0 [] 0); [reflexivity | unfold Utils.npos; lia | exact Hfuel].
Qed.

(** X22.  Without a delimiter in it (in particular when [delim] is empty)
    a string that is not empty is its own single token, and the empty
    string has no token. *)
Theorem split_without_delimiter (fuel : nat)
    (src delim : Utils.std_string) :
  Utils.length src < Utils.npos ->
  Utils.free delim src ->
  Utils.split (S fuel) src delim
  = Ok (match src with [] => [] | _ :: _ => [src] end).
Proof.
  intros Hsize Hfree. unfold Utils.split. destruct src as [| c l].
  - apply (step_end [] delim (S fuel) 0 [] 0). cbn. lia.
  - apply (step_last (c :: l) delim Hsize fuel 0 [] 0 (c :: l));
      [reflexivity | discriminate | exact Hfree | unfold Utils.npos; lia].
Qed.

(** * [atof] *)

Section AtofFacts.

Context {D : Type} {DD : Double D}.
Variable isspace : ascii -> bool.
Variable std_atof : list ascii -> D.
Variable DBL_MIN : D.

Lemma skip_space_blanks (blanks s : list ascii) (c : ascii) :
  Forall (fun b => isspace b = true) blanks -> isspace c = false ->
  Utils.skip_space isspace (blanks ++ c :: s) = c :: s.
Proof.
  intros Hb Hc. induction Hb as [| b blanks Eb _ IH]; cbn [app].
  - cbn [Utils.skip_space]. rewrite Hc. reflexivity.
  - cbn [Utils.skip_space]. rewrite Eb. exact IH.
Qed.

(** X23.  After any run of blanks, [DBL_MAX] and [DBL_MIN], with or
    without a minus sign and whatever follows them, are read as the
    constants of these names; any other text that starts with [DBL_M] is
    an error and is not passed to [std::atof]. *)
Theorem atof_constants (blanks rest : list ascii) :
  Forall (fun b => isspace b = true) blanks ->
  isspace "D" = false -> isspace "-" = false ->
  let atof := Utils.atof isspace std_atof DBL_MIN in
  atof (blanks ++ list_ascii_of_string "DBL_MAX" ++ rest) = Ok DBL_MAX
  /\ atof (blanks ++ list_ascii_of_string "-DBL_MAX" ++ rest)
     = Ok (- DBL_MAX)%D
  /\ atof (blanks ++ list_ascii_of_string "DBL_MIN" ++ rest) = Ok DBL_MIN
  /\ atof (blanks ++ list_ascii_of_string "-DBL_MIN" ++ rest)
     = Ok (- DBL_MIN)%D
  /\ (match rest with
      | "A"%char :: "X"%char :: _ => False
      | "I"%char :: "N"%char :: _ => False
      | _ => True
      end ->
      atof (blanks ++ list_ascii_of_string "DBL_M" ++ rest)
      = Error "unrecognize double representation"
      /\ atof (blanks ++ list_ascii_of_string "-DBL_M" ++ rest)
         = Error "unrecognize double representation").
Proof.
  intros Hb HD Hm atof. unfold atof, Utils.atof.
  cbn [list_ascii_of_string app].
  rewrite !(skip_space_blanks blanks _ "D" Hb HD).
  rewrite !(skip_space_blanks blanks _ "-" Hb Hm).
  repeat (split; [reflexivity |]).
  intros Hrest.
  destruct rest as [| a [| b rest']]; [split; reflexivity | |].
  - destruct (Ascii.eqb_spec a "A") as [-> | Ha];
      [split; reflexivity |].
    destruct (Ascii.eqb_spec a "I") as [-> | Hi];
      [split; reflexivity |].
    destruct a as [[] [] [] [] [] [] [] []]; split; reflexivity.
  - destruct a as [[] [] [] [] [] [] [] []];
      try (split; reflexivity);
      destruct b as [[] [] [] [] [] [] [] []];
      try (split; reflexivity); contradiction.
Qed.

End AtofFacts.

(** * [help] *)

Section Help.

Lemma firstn_npos (l : Utils.std_string) :
  Utils.length l < Utils.npos -> firstn (Z.to_nat Utils.npos) l = l.
Proof.
  intros Hl. apply firstn_all2. unfold Utils.length, Utils.npos in *. lia.
Qed.

Lemma find_at_bounds (pat l : Utils.std_string) (i : Z) :
  Utils.find_at pat l i = Utils.npos
  \/ i <= Utils.find_at pat l i <= i + Utils.length l.
Proof.
  revert i. induction l as [| c l IH]; intros i; cbn [Utils.find_at].
  - destruct (Utils.starts_with pat []); [right | left; reflexivity].
    unfold Utils.length. cbn. lia.
  - destruct (Utils.starts_with pat (c :: l)).
    + right. unfold Utils.length. cbn [List.length]. lia.
    + destruct (IH (i + 1)) as [E | E]; [left; exact E | right].
      unfold Utils.length in *. cbn [List.length]. lia.
Qed.

(** A name that starts with [Gyoto::] has a [::] in it. *)
Lemma prefix_has_colons (name : Utils.std_string) :
  Utils.same (firstn 7 name) (list_ascii_of_string "Gyoto::") = true ->
  Utils.find name (list_ascii_of_string "::") = 5.
Proof.
  intros E.
  do 7 (destruct name as [| ? name];
        [cbn in E; rewrite ?andb_false_r in E; discriminate E |]).
  cbn [firstn Utils.same list_ascii_of_string] in E.
  repeat match type of E with
         | (_ && _)%bool = true =>
             apply andb_true_iff in E; destruct E as [?H E]
         end.
  repeat match goal with
         | H : Ascii.eqb _ _ = true |- _ => apply Ascii.eqb_eq in H; subst
         end.
  reflexivity.
Qed.

(** X26.  A name without [::] that is not [Scenery], [Screen] or [Photon]
    is refused.  The message is [Help string not implemented (yet) for],
    except for a name of one character, where [pos + 2] wraps around to 1
    and the message is [Not a valid class name]. *)
Theorem help_plain_name (name : Utils.std_string) :
  Utils.length name < Utils.npos ->
  Utils.find name (list_ascii_of_string "::") = Utils.npos ->
  Utils.same name (list_ascii_of_string "Scenery") = false ->
  Utils.same name (list_ascii_of_string "Screen") = false ->
  Utils.same name (list_ascii_of_string "Photon") = false ->
  Utils.help name
  = Error (if (List.length name =? 1)%nat
           then "Not a valid class name: " ++ string_of_list_ascii name
           else "Help string not implemented (yet) for "
                ++ string_of_list_ascii name).
Proof.
  intros Hl Hf H1 H2 H3. unfold Utils.help, Utils.substr.
  replace (Utils.length name <? 0) with false
    by (symmetry; apply Z.ltb_ge; unfold Utils.length; lia).
  cbn [Utils.and_then Z.to_nat skipn]. change (Pos.to_nat 7) with 7%nat.
  destruct (Utils.same (firstn 7 name) (list_ascii_of_string "Gyoto::"))
    eqn:Ep.
  { rewrite (prefix_has_colons name Ep) in Hf. discriminate Hf. }
  cbn [Utils.and_then]. rewrite H1, H2, H3, Hf.
  change (Utils.npos =? 0) with false.
  change (Utils.size_t (Utils.npos + 2)) with 1.
  change (0 <? Utils.npos) with true. rewrite Z.eqb_refl.
  cbn [orb andb negb].
  unfold Utils.length.
  destruct (List.length name =? 1)%nat eqn:E1.
  - apply Nat.eqb_eq in E1. rewrite E1. reflexivity.
  - apply Nat.eqb_neq in E1.
    replace (1 =? Z.of_nat (List.length name)) with false
      by (symmetry; apply Z.eqb_neq; lia).
    reflexivity.
Qed.

Lemma substr_0 (l : Utils.std_string) (n : Z) :
  Utils.substr l 0 n = Ok (firstn (Z.to_nat n) l).
Proof.
  unfold Utils.substr.
  replace (Utils.length l <? 0) with false
    by (symmetry; apply Z.ltb_ge; unfold Utils.length; lia).
  reflexivity.
Qed.

Lemma substr_rest (pre l : Utils.std_string) :
  Utils.length l < Utils.npos ->
  Utils.substr (pre ++ l) (Utils.length pre) Utils.npos = Ok l.
Proof.
  intros Hl. unfold Utils.substr.
  replace (Utils.length (pre ++ l) <? Utils.length pre) with false
    by (symmetry; apply Z.ltb_ge; unfold Utils.length;
        rewrite length_app; lia).
  unfold Utils.length at 1. rewrite Nat2Z.id.
  rewrite skipn_app, skipn_all, Nat.sub_diag. cbn [skipn app].
  rewrite firstn_npos by exact Hl. reflexivity.
Qed.

Lemma same_firstn (pat l : Utils.std_string) :
  Utils.same (firstn (List.length pat) l) pat
  = Utils.starts_with pat l.
Proof.
  revert l. induction pat as [| x pat IH]; intros l.
  - reflexivity.
  - destruct l as [| y l]; [reflexivity |].
    cbn [List.length firstn Utils.same Utils.starts_with].
    rewrite IH, (Ascii.eqb_sym y x). reflexivity.
Qed.

Lemma same_prefix (name : Utils.std_string) :
  Utils.same (firstn 7 name) (list_ascii_of_string "Gyoto::")
  = Utils.starts_with (list_ascii_of_string "Gyoto::") name.
Proof. exact (same_firstn (list_ascii_of_string "Gyoto::") name). Qed.

(** A name with the prefix twice and something after it. *)
Lemma help_doubled_prefix (name : Utils.std_string) :
  Utils.length name < Utils.npos - 7 -> name <> [] ->
  Utils.help (list_ascii_of_string "Gyoto::Gyoto::" ++ name)
  = Error "Unrecognized namespace: Gyoto".
Proof.
  intros Hl Hne.
  assert (Hl' : Utils.length name < Utils.npos)
    by (unfold Utils.npos in *; lia).
  pose proof (substr_rest (list_ascii_of_string "Gyoto::") name Hl')
    as Hs.
  change (Utils.length (list_ascii_of_string "Gyoto::")) with 7 in Hs.
  assert (Hs2 : Utils.substr
                  (list_ascii_of_string "Gyoto::"
                   ++ (list_ascii_of_string "Gyoto::" ++ name))
                  7 Utils.npos
                = Ok (list_ascii_of_string "Gyoto::" ++ name)).
  { apply (substr_rest (list_ascii_of_string "Gyoto::")).
    unfold Utils.length, Utils.npos in *. rewrite length_app.
    cbn [list_ascii_of_string List.length]. lia. }
  unfold Utils.help.
  rewrite substr_0. change (Z.to_nat 7) with 7%nat.
  cbn [Utils.and_then].
  change (Utils.same
            (firstn 7 (list_ascii_of_string "Gyoto::Gyoto::" ++ name))
            (list_ascii_of_string "Gyoto::")) with true.
  cbn [Utils.and_then].
  change (list_ascii_of_string "Gyoto::Gyoto::" ++ name)
    with (list_ascii_of_string "Gyoto::"
          ++ (list_ascii_of_string "Gyoto::" ++ name)).
  rewrite Hs2.
  cbn [Utils.and_then].
  change (Utils.same (list_ascii_of_string "Gyoto::" ++ name)
            (list_ascii_of_string "Scenery")) with false.
  change (Utils.same (list_ascii_of_string "Gyoto::" ++ name)
            (list_ascii_of_string "Screen")) with false.
  change (Utils.same (list_ascii_of_string "Gyoto::" ++ name)
            (list_ascii_of_string "Photon")) with false.
  change (Utils.find (list_ascii_of_string "Gyoto::" ++ name)
            (list_ascii_of_string "::")) with 5.
  cbv iota.
  change (5 =? 0) with false. change (Utils.size_t (5 + 2)) with 7.
  replace (7 =? Utils.length (list_ascii_of_string "Gyoto::" ++ name))
    with false.
  2:{ symmetry. apply Z.eqb_neq. unfold Utils.length.
      rewrite length_app. cbn [list_ascii_of_string List.length].
      destruct name; [contradiction | cbn [List.length]; lia]. }
  change (0 <? 5) with true. change (5 =? Utils.npos) with false.
  cbn [orb andb negb].
  rewrite substr_0, Hs. reflexivity.
Qed.

(** X27.  The prefix [Gyoto::] is optional, once: [help] of
    [Gyoto::] followed by a name that does not itself start with
    [Gyoto::] is [help] of that name, whereas a name with the prefix
    twice is refused: with [Unrecognized namespace: Gyoto] when something
    follows the doubled prefix, with [Not a valid class name: Gyoto::]
    when nothing does. *)
Theorem help_prefix (name : Utils.std_string) :
  Utils.length name < Utils.npos - 7 ->
  (Utils.starts_with (list_ascii_of_string "Gyoto::") name = false ->
   Utils.help (list_ascii_of_string "Gyoto::" ++ name)
   = Utils.help name)
  /\ Utils.help (list_ascii_of_string "Gyoto::Gyoto::" ++ name)
     = Error (match name with
              | [] => "Not a valid class name: Gyoto::"
              | _ :: _ => "Unrecognized namespace: Gyoto"
              end).
Proof.
  intros Hl.
  assert (Hl' : Utils.length name < Utils.npos)
    by (unfold Utils.npos in *; lia).
  split.
  - intros Hp. unfold Utils.help.
    rewrite !substr_0. change (Z.to_nat 7) with 7%nat.
    cbn [Utils.and_then].
    rewrite (same_prefix name), Hp.
    change (Utils.same
              (firstn 7 (list_ascii_of_string "Gyoto::" ++ name))
              (list_ascii_of_string "Gyoto::")) with true.
    cbn [Utils.and_then].
    pose proof (substr_rest (list_ascii_of_string "Gyoto::") name Hl')
      as Hs.
    change (Utils.length (list_ascii_of_string "Gyoto::")) with 7 in Hs.
    rewrite Hs. reflexivity.
  - destruct name as [| c name].
    + reflexivity.
    + apply help_doubled_prefix; [exact Hl | discriminate].
Qed.

End Help.

(** * The Bessel functions *)

Section BesselFacts.

Import PrimFloat.

Variables exp log : PrimFloat.float -> PrimFloat.float.

Lemma bessk_for_last (count : nat) :
  forall (j : Z) (tox bkm bk : PrimFloat.float),
    Bessel.bessk_for (S count) j tox bkm bk
    = let '(a, b) := Bessel.bessk_for count j tox bkm bk in
      (b, PrimFloat.add a
            (PrimFloat.mul
               (PrimFloat.mul (Bessel.of_int (j + Z.of_nat count)) tox) b)).
Proof.
  induction count as [| c IH]; intros j tox bkm bk.
  - cbn [Bessel.bessk_for]. rewrite Z.add_0_r. reflexivity.
  - change (Bessel.bessk_for (S (S c)) j tox bkm bk)
      with (Bessel.bessk_for (S c) (j + 1) tox bk
              (PrimFloat.add bkm
                 (PrimFloat.mul (PrimFloat.mul (Bessel.of_int j) tox) bk))).
    rewrite IH. cbn [Bessel.bessk_for].
    replace (j + 1 + Z.of_nat c) with (j + Z.of_nat (S c)) by lia.
    reflexivity.
Qed.

Lemma bessk_for_snd (count : nat) :
  forall (j : Z) (tox bkm bk : PrimFloat.float),
    fst (Bessel.bessk_for (S count) j tox bkm bk)
    = snd (Bessel.bessk_for count j tox bkm bk).
Proof.
  intros j tox bkm bk. rewrite bessk_for_last.
  destruct (Bessel.bessk_for count j tox bkm bk). reflexivity.
Qed.

(** X24.  From order 3 on, the values of [bessk] at three successive
    orders satisfy, bit for bit, the recurrence
    [K(n+1) = K(n-1) + n * (2/x) * K(n)]. *)
Theorem bessk_recurrence (nn : Z) (xx : float) :
  3 <= nn < 2147483647 ->
  exists a b,
    Bessel.bessk exp log (nn - 1) xx = Ok a
    /\ Bessel.bessk exp log nn xx = Ok b
    /\ Bessel.bessk exp log (nn + 1) xx
       = Ok (PrimFloat.add a
               (PrimFloat.mul
                  (PrimFloat.mul (Bessel.of_int nn)
                                 (PrimFloat.div 2%float xx)) b)).
Proof.
  intros Hn. unfold Bessel.bessk.
  rewrite (proj2 (Z.ltb_ge (nn - 1) 2)) by lia.
  rewrite (proj2 (Z.ltb_ge nn 2)) by lia.
  rewrite (proj2 (Z.ltb_ge (nn + 1) 2)) by lia.
  set (tox := PrimFloat.div 2%float xx).
  set (k0 := Bessel.bessk0 exp log xx).
  set (k1 := Bessel.bessk1 exp log xx).
  replace (Z.to_nat (nn + 1 - 1)) with (S (Z.to_nat (nn - 1))) by lia.
  replace (Z.to_nat (nn - 1)) with (S (Z.to_nat (nn - 1 - 1))) by lia.
  do 2 eexists. split; [reflexivity |]. split; [reflexivity |].
  rewrite (bessk_for_last (S (Z.to_nat (nn - 1 - 1)))).
  rewrite <- (bessk_for_snd (Z.to_nat (nn - 1 - 1))).
  destruct (Bessel.bessk_for (S (Z.to_nat (nn - 1 - 1))) 1 tox k0 k1)
    as [a b].
  cbn [fst snd].
  replace (1 + Z.of_nat (S (Z.to_nat (nn - 1 - 1)))) with nn by lia.
  reflexivity.
Qed.

End BesselFacts.

(** * The symmetry of [bessi0] and [bessi1] *)

Section BesselSymmetry.

Import PrimFloat SpecFloat FloatOps FloatAxioms FloatLemmas.

Lemma abs_opp (x : float) : abs (- x) = abs x.
Proof.
  apply Prim2SF_inj. rewrite !abs_spec, opp_spec.
  destruct (Prim2SF x); reflexivity.
Qed.

Lemma mul_opp_opp (x : float) : (- x * - x = x * x)%float.
Proof.
  apply Prim2SF_inj. rewrite !mul_spec, opp_spec.
  destruct (Prim2SF x) as [s | s | | s m e]; try reflexivity;
    destruct s; reflexivity.
Qed.

Lemma binary_round_aux_negb (s : bool) (m e : Z) (l : location) :
  binary_round_aux prec emax (negb s) m e l
  = SFopp (binary_round_aux prec emax s m e l).
Proof.
  unfold binary_round_aux.
  destruct (shr_fexp prec emax m e l) as [mrs' e'].
  destruct (shr_fexp prec emax
              (round_nearest_even (shr_m mrs') (loc_of_shr_record mrs'))
              e' loc_Exact) as [mrs'' e''].
  destruct (shr_m mrs''); try reflexivity.
  destruct (e'' <=? emax - prec); reflexivity.
Qed.

Lemma div_opp_l (x c : float) : (- x / c = - (x / c))%float.
Proof.
  apply Prim2SF_inj. rewrite opp_spec, !div_spec, opp_spec.
  unfold SF64div, SFdiv.
  destruct (Prim2SF x) as [sx | sx | | sx mx ex];
    destruct (Prim2SF c) as [sc | sc | | sc mc ec];
    try reflexivity;
    cbn [SFopp];
    try (destruct sx, sc; reflexivity).
  destruct (SFdiv_core_binary prec emax (Z.pos mx) ex (Z.pos mc) ec)
    as [[mz ez] lz].
  rewrite <- binary_round_aux_negb.
  destruct sx, sc; reflexivity.
Qed.

Variable exp : float -> float.

(** X28.  On every binary64 number, NaN and the infinities included,
    [bessi0] is even bit for bit, and [bessi1] is odd up to the sign of
    the result: [bessi1(-x)] and [bessi1(x)] have the same absolute
    value. *)
Theorem bessi_symmetry (xx : float) :
  Bessel.bessi0 exp (- xx) = Bessel.bessi0 exp xx
  /\ abs (Bessel.bessi1 exp (- xx)) = abs (Bessel.bessi1 exp xx).
Proof.
  split.
  - unfold Bessel.bessi0. cbv zeta.
    rewrite abs_opp, div_opp_l, mul_opp_opp. reflexivity.
  - unfold Bessel.bessi1. cbv zeta.
    rewrite abs_opp, div_opp_l, mul_opp_opp.
    destruct (- xx <? 0)%float; destruct (xx <? 0)%float;
      rewrite ?abs_opp; reflexivity.
Qed.

End BesselSymmetry.

(** * Examples *)

Lemma set_bits_name_defaults_witness :
  consistent (only_emission (fun nu dsem _ _ => (nu * dsem)%float)) 0
  /\ v_radiativeQ
       (methods (DD := binary64)
          (only_emission (fun nu dsem _ _ => (nu * dsem)%float))
          thin_object 7)
       [1; 2]%float 3%float [] [] 0
     = Ok (([3; 6]%float, [1; 1]%float), 7)
  /\ consistent (only_emission (fun nu dsem _ _ => (nu * dsem)%float)) 7.
Proof.
  assert (Hc : consistent
                 (only_emission (fun nu dsem (_ : state_t float)
                                     (_ : list float) => (nu * dsem)%float))
                 0)
    by (repeat split).
  split; [exact Hc |]. split; [reflexivity |].
  exact (proj1 (proj2 (proj2 (proj2
           (set_bits_name_defaults (DD := binary64) _ thin_object 7 0 Hc))))
         [1; 2]%float 3%float [] [] ([3; 6]%float, [1; 1]%float) 7
         eq_refl).
Defined.

Lemma polarized_class_answers_witness :
  unset 0 1 = true
  /\ exists df',
       v_radiativeQ
         (methods (DD := binary64) (only_radiativeQ_polar grey_polar)
                  thin_object 3)
         [4; 5]%float 1%float [] [] 0
       = Ok (([4; 5]%float, [1; 1]%float), df').
Proof.
  split; [reflexivity |].
  exact (proj1 (polarized_class_answers (DD := binary64) thin_object 0
                  1%float [] [] 0 grey_polar eq_refl)
               [4; 5]%float).
Defined.

Lemma unpolarized_class_answers_witness :
  unset 0 2 = true
  /\ exists df',
       v_transmission
         (methods (DD := binary64)
            (only_radiativeQ (fun nuem _ _ _ => (nuem, nuem)))
            thin_object 2)
         5%float 1%float [] [] 0
       = Ok (5%float, df').
Proof.
  split; [reflexivity |].
  exact (proj1 (unpolarized_class_answers (DD := binary64) thin_object 0
                  1%float [] [] 0 (fun nuem _ _ _ => (nuem, nuem)) eq_refl)
               5%float).
Defined.

Lemma vector_class_answers_witness :
  unset 0 4 = true
  /\ exists df',
       v_radiativeQ
         (methods (DD := binary64) (only_vector (fun nuem _ _ _ => nuem))
                  thin_object 5)
         [4; 5]%float 1%float [] [] 0
       = Ok (([4; 5]%float, [1; 1]%float), df').
Proof.
  split; [reflexivity |].
  exact (proj2 (proj2 (vector_class_answers (DD := binary64) thin_object 0
                         1%float [] [] 0 (fun nuem _ _ _ => nuem) eq_refl))
               [4; 5]%float).
Defined.

Lemma scalar_class_answers_witness :
  exists df',
    v_radiativeQ
      (methods (DD := binary64)
         (only_emission (fun nu dsem _ _ => (nu * dsem)%float))
         thin_object 6)
      [1; 2]%float 3%float [] [] 0
    = Ok (([3; 6]%float, [1; 1]%float), df').
Proof.
  exact (proj2 (scalar_class_answers (DD := binary64) thin_object 0
                  3%float [] [] 0
                  (only_emission (fun nu dsem _ _ => (nu * dsem)%float))
                  eq_refl eq_refl eq_refl)
               [1; 2]%float).
Defined.

Lemma integrateEmission_order_independent_witness :
  ~ (1 == 2)%Q
  /\ integrateEmission (DD := rational)
       (methods (DD := rational) (only_emission (fun nu _ _ _ => nu))
                {| gg_ := None; rmax_ := 10%Q; deltamaxinsidermax_ := 1%Q;
                   flag_radtransf_ := true; noredshift_ := false;
                   shadow_ := false |} 0)
       1%Q [] [] 3 1%Q 2%Q 0
     = integrateEmission (DD := rational)
         (methods (DD := rational) (only_emission (fun nu _ _ _ => nu))
                  {| gg_ := None; rmax_ := 10%Q; deltamaxinsidermax_ := 1%Q;
                     flag_radtransf_ := true; noredshift_ := false;
                     shadow_ := false |} 0)
         1%Q [] [] 3 2%Q 1%Q 0.
Proof.
  assert (Hne : ~ (1 == 2)%Q) by (vm_compute; discriminate).
  split; [exact Hne |].
  exact (integrateEmission_order_independent
           (fun _ => 0%Q) (fun _ => 0%Q) (fun _ => 0%Q) 0%Q 1%Q [] []
           _ 3%nat 1%Q 2%Q 0 Hne).
Defined.

Lemma integrateEmission_vector_constant_witness :
  (0 <= 3)%Q
  /\ exists I,
       integrateEmission_vector (DD := rational)
         (methods (DD := rational) (only_emission (fun _ _ _ _ => 3%Q))
                  {| gg_ := None; rmax_ := 10%Q; deltamaxinsidermax_ := 1%Q;
                     flag_radtransf_ := true; noredshift_ := false;
                     shadow_ := false |} 0)
         1%Q [] [] 2 [1; 2; 4]%Q [0; 1; 1; 2]%nat 2 0
       = Ok (I, 0)
       /\ List.length I = 2%nat
       /\ (nth 0 I 0 == 3)%Q
       /\ (nth 1 I 0 == 6)%Q.
Proof.
  assert (Hc : (0 <= 3)%Q) by (vm_compute; discriminate).
  split; [exact Hc |].
  destruct (integrateEmission_vector_constant
              (fun _ => 0%Q) (fun _ => 0%Q) (fun _ => 0%Q) 0%Q 1%Q [] []
              {| gg_ := None; rmax_ := 10%Q; deltamaxinsidermax_ := 1%Q;
                 flag_radtransf_ := true; noredshift_ := false;
                 shadow_ := false |}
              0%nat 3%Q 0%nat [1; 2; 4]%Q [0; 1; 1; 2]%nat 2%nat 0 Hc)
    as (I & E & Hlen & HI).
  { intros i Hi. destruct i as [| [| i]]; [| | lia];
      vm_compute; discriminate. }
  exists I. split; [exact E |]. split; [exact Hlen |]. split.
  - rewrite (HI 0%nat) by lia. vm_compute. reflexivity.
  - rewrite (HI 1%nat) by lia. vm_compute. reflexivity.
Defined.

Lemma integrateEmission_negative_diverges_witness :
  (-1 < 0)%Q
  /\ ~ (0 == 1)%Q
  /\ integrateEmission (DD := rational)
       (methods (DD := rational) (only_emission (fun _ _ _ _ => (-1)%Q))
                {| gg_ := None; rmax_ := 10%Q; deltamaxinsidermax_ := 1%Q;
                   flag_radtransf_ := true; noredshift_ := false;
                   shadow_ := false |} 0)
       1%Q [] [] 1000 0%Q 1%Q 0
     = OutOfFuel.
Proof.
  assert (Hc : (-1 < 0)%Q) by reflexivity.
  assert (Hne : ~ (0 == 1)%Q) by (vm_compute; discriminate).
  split; [exact Hc |]. split; [exact Hne |].
  exact (integrateEmission_negative_diverges
           (fun _ => 0%Q) (fun _ => 0%Q) (fun _ => 0%Q) 0%Q 1%Q [] []
           {| gg_ := None; rmax_ := 10%Q; deltamaxinsidermax_ := 1%Q;
              flag_radtransf_ := true; noredshift_ := false;
              shadow_ := false |}
           0%nat (-1)%Q 1000%nat 0%Q 1%Q 0 Hc Hne).
Defined.

Lemma intensity_increment_witness :
  exists df',
    processHitQuantities (DD := binary64) recording_photon
      (only_emission (fun nu dsem _ _ => (nu * dsem + 2)%float))
      thin_object 7 hit_coord hit_coord 1%float (Some intensity_only)
      blank_world
    = Ok (tt, {| w_features := df';
                 w_ph := [(SIZE_MAX, 1%float)];
                 w_mem := store (D := float) (fun _ => 0%float) 0
                                3%float |}).
Proof.
  exact (intensity_increment (DD := binary64) recording_photon
           (only_emission (fun nu dsem _ _ => (nu * dsem + 2)%float))
           thin_object unit_metric 0 hit_coord hit_coord 1%float eq_refl
           intensity_only 0 blank_world eq_refl eq_refl eq_refl eq_refl
           eq_refl eq_refl eq_refl
           (conj eq_refl (conj eq_refl (conj eq_refl
              (conj eq_refl eq_refl))))).
Defined.

Lemma stokes_without_spectrum_dereferences_null_witness :
  processHitQuantities (DD := binary64) spectral_photon no_overrides
    thin_object 7 hit_coord hit_coord 1%float (Some stokesQ_only)
    blank_world
  = Undefined.
Proof.
  exact (stokes_without_spectrum_dereferences_null (DD := binary64)
           spectral_photon no_overrides thin_object unit_metric 0
           hit_coord hit_coord 1%float eq_refl stokesQ_only
           {| nSamples := 1; getMidpoints := [1%float];
              getNBoundaries := 2;
              getChannelBoundaries := [0.5; 1.5]%float;
              getChannelIndices := [0; 1]%nat |}
           0%nat blank_world
           eq_refl eq_refl eq_refl (or_introl eq_refl)
           eq_refl eq_refl eq_refl).
Defined.

Lemma nothing_requested_witness :
  exists t df',
    v_transmission (methods (DD := binary64) no_overrides thin_object 7)
      (1 * hit_ggredm1 (DD := binary64) thin_object unit_metric
             hit_coord hit_coord)%float
      (hit_dsem (DD := binary64) thin_object unit_metric
                hit_coord hit_coord 1%float)
      hit_coord hit_coord 0
    = Ok (t, df')
    /\ processHitQuantities (DD := binary64) recording_photon no_overrides
         thin_object 7 hit_coord hit_coord 1%float
         (Some (Properties_default (D := float))) blank_world
       = Ok (tt, {| w_features := df';
                    w_ph := [(SIZE_MAX, t)];
                    w_mem := fun _ => 0%float |}).
Proof.
  exact (nothing_requested (DD := binary64) recording_photon no_overrides
           thin_object unit_metric 0 hit_coord hit_coord 1%float eq_refl
           (Properties_default (D := float)) blank_world
           eq_refl eq_refl eq_refl eq_refl
           (conj eq_refl (conj eq_refl (conj eq_refl
              (conj eq_refl eq_refl))))).
Defined.

Lemma noredshift_ignores_metric_witness :
  noredshift_ static_object = true
  /\ processHitQuantities (DD := binary64) recording_photon no_overrides
       (set_metric static_object unit_metric) 7 hit_coord hit_coord 1%float
       (Some intensity_only) blank_world
     = processHitQuantities (DD := binary64) recording_photon no_overrides
         (set_metric static_object other_metric) 7 hit_coord hit_coord
         1%float (Some intensity_only) blank_world.
Proof.
  split; [reflexivity |].
  exact (noredshift_ignores_metric (DD := binary64) recording_photon
           no_overrides static_object unit_metric other_metric 7
           hit_coord hit_coord 1%float (Some intensity_only) blank_world
           eq_refl).
Defined.

Lemma init_arms_impactcoords_witness :
  impactcoords impact_only = Some 0
  /\ snd (Properties_init (DD := binary64) impact_only 0 (fun _ => 0%float))
         (0 + Z.of_nat 15)
     = 0x1.fffffffffffffp+1023%float.
Proof.
  split; [reflexivity |].
  exact (init_arms_impactcoords (DD := binary64) impact_only 0 0
           (fun _ => 0%float) 15 eq_refl I I I I I ltac:(lia)).
Defined.

Lemma debug_round_trip_witness :
  let s := {| Utils.gyoto_debug := 0; Utils.gyoto_verbosity := 10;
              Utils.gyoto_prev_verbosity := 3000 |} in
  Utils.debug s = 0
  /\ Utils.verbose (Utils.set_debug 3000 1 s) = 3000
  /\ Utils.verbose (Utils.set_debug 3000 0 (Utils.set_debug 3000 1 s)) = 10
  /\ Utils.verbose
       (Utils.set_debug 3000 0
          (Utils.set_verbose 5 (Utils.set_debug 3000 1 s)))
     = 10.
Proof.
  cbv zeta. split; [reflexivity |].
  destruct (debug_round_trip 3000
              {| Utils.gyoto_debug := 0; Utils.gyoto_verbosity := 10;
                 Utils.gyoto_prev_verbosity := 3000 |}
              1 5 eq_refl ltac:(discriminate) _ eq_refl)
    as (_ & H2 & _ & H4 & H5).
  split; [exact H2 |]. split; [exact H4 | exact H5].
Defined.

Lemma debug_switch_loses_verbosity_witness :
  let s := {| Utils.gyoto_debug := 0; Utils.gyoto_verbosity := 10;
              Utils.gyoto_prev_verbosity := 3000 |} in
  Utils.verbose
    (Utils.set_debug 3000 0
       (Utils.set_debug 3000 2 (Utils.set_debug 3000 1 s)))
  = 3000.
Proof.
  cbv zeta.
  exact (proj1 (debug_switch_loses_verbosity 3000
                  {| Utils.gyoto_debug := 0; Utils.gyoto_verbosity := 10;
                     Utils.gyoto_prev_verbosity := 3000 |}
                  1 2 eq_refl ltac:(discriminate) ltac:(discriminate)
                  ltac:(discriminate) _ eq_refl)).
Defined.

Lemma debug_build_stays_verbose_witness :
  Utils.verbose (Utils.set_debug 3000 0 (Utils.initial 1 3000 10)) = 3000.
Proof.
  exact (debug_build_stays_verbose 3000 1 10 ltac:(discriminate)).
Defined.

Lemma split_tokens_witness :
  exists res,
    Utils.split 9 (list_ascii_of_string "a,,bc;d,")
                (list_ascii_of_string ",;")
    = Ok res
    /\ Forall (Utils.token (list_ascii_of_string ",;")) res
    /\ List.concat res = list_ascii_of_string "abcd".
Proof.
  exact (split_tokens 9 (list_ascii_of_string "a,,bc;d,")
           (list_ascii_of_string ",;") eq_refl ltac:(cbn; lia)).
Defined.

Lemma split_join_witness :
  Utils.split 3 (list_ascii_of_string "ab,c,def") (list_ascii_of_string ",")
  = Ok [list_ascii_of_string "ab"; list_ascii_of_string "c";
        list_ascii_of_string "def"].
Proof.
  assert (Ht : forall t,
             t <> [] ->
             existsb (fun c => Utils.is_in c (list_ascii_of_string ",")) t
             = false ->
             Utils.token (list_ascii_of_string ",") t).
  { intros t Hne Hex. split; [exact Hne |]. intros c Hc.
    destruct (Utils.is_in c (list_ascii_of_string ",")) eqn:E;
      [| reflexivity].
    rewrite <- Hex. symmetry. apply existsb_exists. exists c. auto. }
  exact (split_join 3 ","%char (list_ascii_of_string ",")
           [list_ascii_of_string "ab"; list_ascii_of_string "c";
            list_ascii_of_string "def"]
           eq_refl
           (Forall_cons _
              (Ht (list_ascii_of_string "ab") ltac:(discriminate) eq_refl)
              (Forall_cons _
                 (Ht (list_ascii_of_string "c") ltac:(discriminate) eq_refl)
                 (Forall_cons _
                    (Ht (list_ascii_of_string "def") ltac:(discriminate)
                        eq_refl)
                    (Forall_nil _))))
           eq_refl ltac:(cbn; lia)).
Defined.

Lemma split_without_delimiter_witness :
  Utils.split 1 (list_ascii_of_string "abc") []
  = Ok [list_ascii_of_string "abc"].
Proof.
  exact (split_without_delimiter 0 (list_ascii_of_string "abc") [] eq_refl
           (fun c _ => eq_refl)).
Defined.

Lemma atof_constants_witness :
  Utils.atof (DD := binary64) isspace_C (fun _ => 0%float) 0x1p-1022%float
    (list_ascii_of_string "  -DBL_MAXIMUM")
  = Ok (-0x1.fffffffffffffp+1023)%float
  /\ Utils.atof (DD := binary64) isspace_C (fun _ => 0%float)
       0x1p-1022%float (list_ascii_of_string "  DBL_MEAN")
     = Error "unrecognize double representation".
Proof.
  assert (Hb : Forall (fun b => isspace_C b = true) [" "%char; " "%char])
    by (repeat constructor).
  destruct (atof_constants (DD := binary64) isspace_C (fun _ => 0%float)
              0x1p-1022%float [" "%char; " "%char]
              (list_ascii_of_string "IMUM") Hb eq_refl eq_refl)
    as (_ & Hmax & _).
  destruct (atof_constants (DD := binary64) isspace_C (fun _ => 0%float)
              0x1p-1022%float [" "%char; " "%char]
              (list_ascii_of_string "EAN") Hb eq_refl eq_refl)
    as (_ & _ & _ & _ & Herr).
  split; [exact Hmax | exact (proj1 (Herr I))].
Defined.

Lemma bessk_recurrence_witness :
  exists a b,
    Bessel.bessk exp_table log_table 2 1%float = Ok a
    /\ Bessel.bessk exp_table log_table 3 1%float = Ok b
    /\ Bessel.bessk exp_table log_table 4 1%float
       = Ok (a + 3 * (2 / 1) * b)%float.
Proof.
  exact (bessk_recurrence exp_table log_table 3 1%float ltac:(lia)).
Defined.

Lemma help_plain_name_witness :
  Utils.help (list_ascii_of_string "X")
  = Error "Not a valid class name: X"
  /\ Utils.help (list_ascii_of_string "Star")
     = Error "Help string not implemented (yet) for Star".
Proof.
  split.
  - exact (help_plain_name (list_ascii_of_string "X")
             eq_refl eq_refl eq_refl eq_refl eq_refl).
  - exact (help_plain_name (list_ascii_of_string "Star")
             eq_refl eq_refl eq_refl eq_refl eq_refl).
Defined.

Lemma help_prefix_witness :
  Utils.help (list_ascii_of_string "Gyoto::Astrobj::Star")
  = Ok (Utils.Astrobj_help (list_ascii_of_string "Star"))
  /\ Utils.help (list_ascii_of_string "Gyoto::Gyoto::Astrobj::Star")
     = Error "Unrecognized namespace: Gyoto"
  /\ Utils.help (list_ascii_of_string "Gyoto::Gyoto::")
     = Error "Not a valid class name: Gyoto::".
Proof.
  destruct (help_prefix (list_ascii_of_string "Astrobj::Star") eq_refl)
    as [Honce Htwice].
  split; [exact (eq_trans (Honce eq_refl) eq_refl) |].
  split; [exact Htwice |].
  exact (proj2 (help_prefix [] eq_refl)).
Defined.
